(** * A shallow embedding of the kaitai-based Parquet reader

    The development follows the Go sources under [main/] and the Kaitai
    description [thrift_compact.ksy]:

    - Part I gives the model: Go's fixed-width integers and slices, the two
      library routines the decoders lean on ([binary.Uvarint],
      [binary.LittleEndian]), the value decoders ([plain_decode.go],
      [delta_decode.go]), the level decoder ([rle_decoder.go]), the Thrift
      Compact parser described by [thrift_compact.ksy], the metadata mapper
      and the column page reader ([thrift_compact_decode.go], with
      [compress.go]), and the page dispatcher ([page_decode.go]).
    - Part II states and proves the properties.

    Conventions.  [int] and [uint] are 64 bits wide.  A Go function that
    returns [(v, err)] is a function into a pair whose last component is an
    [option error], or into a sum where the value is dropped with the error;
    a call that may hit a run-time panic ([make] with a negative capacity) is
    a function into [outcome].  Memory is unbounded and the file never fails
    to be read: the only short read is end of file. *)

From Stdlib Require Import ZArith NArith List Bool Lia.
From Stdlib.Strings Require Import Byte.
Import ListNotations.
Open Scope Z_scope.

(* ================================================================== *)
(** * Part I.  The model                                               *)
(* ================================================================== *)

(** ** Machine integers and slices *)

(** [wrap w z] is [z] as an unsigned [w]-bit integer, [swrap w z] as a signed
    one (two's complement). *)
Definition wrap (w z : Z) : Z := z mod 2 ^ w.
Definition swrap (w z : Z) : Z := (z + 2 ^ (w - 1)) mod 2 ^ w - 2 ^ (w - 1).

Definition uint8 : Z -> Z := wrap 8.
Definition uint64 : Z -> Z := wrap 64.
Definition int16 : Z -> Z := swrap 16.
Definition int32 : Z -> Z := swrap 32.
Definition int64 : Z -> Z := swrap 64.

Definition b2z (b : byte) : Z := Z.of_N (Byte.to_N b).

Definition z2b (z : Z) : byte :=
  match Byte.of_N (Z.to_N (z mod 256)) with
  | Some b => b
  | None => x00
  end.

(** [len l] is Go's [len(l)]; [slice l i j] is [l[i:j]], [from l i] is
    [l[i:]] and [index l i] is [l[i]], each used under the bound checks of
    the source. *)
Definition len {A : Type} (l : list A) : Z := Z.of_nat (length l).

Definition from {A : Type} (l : list A) (i : Z) : list A :=
  skipn (Z.to_nat i) l.

Definition slice {A : Type} (l : list A) (i j : Z) : list A :=
  firstn (Z.to_nat (j - i)) (skipn (Z.to_nat i) l).

Definition index (l : list byte) (i : Z) : byte := nth (Z.to_nat i) l x00.

(** ** Errors and outcomes *)

(** One constructor per error value the sources build or pass on. *)
Inductive error : Type :=
| EOF                       (* io.EOF *)
| ErrUnexpectedEOF          (* io.ErrUnexpectedEOF *)
| ErrNegativeRead           (* kaitai ReadBytes with a negative size *)
| ErrExtendedDeltaMissing   (* "thrift compact: extended delta missing" *)
| ErrConsumedZero           (* "thrift compact parse: consumed=0" *)
| ErrNoMetadata             (* "no metadata for column chunk" *)
| ErrInvalidEncodedLength   (* "invalid encoded length: %d" *)
| ErrBitWidth               (* "bit width %d exceeds maximum of 8" *)
| ErrBlockHeaderEOF         (* "decoding run-length block header: ..." *)
| ErrBlockHeaderOverflow    (* "overflow after decoding %d/%d bytes ..." *)
| ErrBlockTooLarge          (* "decoded run-length block cannot have more than %d values" *)
| ErrBitPackedEOF           (* "decoding bit-packed block of %d values: ..." *)
| ErrRunLengthEOF           (* "decoding run-length block of %d values: ..." *)
| ErrDeltaInsufficient      (* "insufficient data for delta binary packed" *)
| ErrVarintTooLong          (* "varint too long" *)
| ErrUnsupportedType        (* "unsupported data type: %d" *)
| ErrUnsupportedCodec       (* "unsupported compression codec: %d" *)
| ErrSnappy.                (* any error of snappy.Decode *)

(** [errors.Is(err, io.EOF) || strings.Contains(err.Error(), "EOF")]: the
    two end-of-file errors of package io, and the level decoder's errors that
    wrap [io.ErrUnexpectedEOF]. *)
Definition mentionsEOF (e : error) : bool :=
  match e with
  | EOF | ErrUnexpectedEOF | ErrBlockHeaderEOF | ErrBitPackedEOF
  | ErrRunLengthEOF => true
  | _ => false
  end.

Inductive outcome (A : Type) : Type :=
| Returns (a : A)
| Panics.

Arguments Returns {A} a.
Arguments Panics {A}.

Definition bindO {A B : Type} (m : outcome A) (k : A -> outcome B) : outcome B :=
  match m with
  | Returns a => k a
  | Panics => Panics
  end.

Notation "x <- m ;; k" := (bindO m (fun x => k))
  (at level 61, m at next level, right associativity).
Notation "' p <- m ;; k" := (bindO m (fun p => k))
  (at level 61, p pattern, m at next level, right associativity).

(** [make([]T, 0, n)]: a run-time panic when [n] is negative. *)
Definition makeCap (n : Z) : outcome unit :=
  if n <? 0 then Panics else Returns tt.

(** ** Go's encoding/binary *)

(** [binary.LittleEndian.Uint32] and [Uint64] on a slice that is long
    enough. *)
Fixpoint le_uint (n : nat) (b : list byte) : Z :=
  match n, b with
  | S n', x :: b' => b2z x + 256 * le_uint n' b'
  | _, _ => 0
  end.

Definition Uint32 (b : list byte) : Z := le_uint 4 b.
Definition Uint64 (b : list byte) : Z := le_uint 8 b.

(** [binary.Uvarint]: the value and the number of bytes read; [n = 0] when
    the buffer ends early, [n < 0] on overflow past 64 bits. *)
Fixpoint uvarintLoop (buf : list byte) (i x s : Z) : Z * Z :=
  match buf with
  | [] => (0, 0)
  | b :: buf' =>
      if i =? 10 then (0, - (i + 1))
      else if b2z b <? 128 then
        if (i =? 9) && (1 <? b2z b) then (0, - (i + 1))
        else (Z.lor x (uint64 (Z.shiftl (b2z b) s)), i + 1)
      else uvarintLoop buf' (i + 1)
             (Z.lor x (uint64 (Z.shiftl (Z.land (b2z b) 127) s))) (s + 7)
  end.

Definition Uvarint (buf : list byte) : Z * Z := uvarintLoop buf 0 0 0.

(** ** Decoded column values ([interface{}] in the source) *)

(** Floats are kept as their IEEE-754 bit patterns. *)
Inductive value : Type :=
| VInt32 (v : Z)
| VInt64 (v : Z)
| VFloat32 (bits : Z)
| VFloat64 (bits : Z)
| VString (s : list byte).

(** ** plain_decode.go *)

(** One iteration of the loop of [decodePlainValues]: the new offset and
    values, or the unsupported-type return. *)
Definition plainStep (data : list byte) (dataType : Z) (offset : Z)
    (values : list value) : (Z * list value) + list value :=
  if dataType =? 1 then
    if offset + 4 <=? len data
    then inl (offset + 4, values ++ [VInt32 (int32 (Uint32 (from data offset)))])
    else inl (offset, values)
  else if dataType =? 2 then
    if offset + 8 <=? len data
    then inl (offset + 8, values ++ [VInt64 (int64 (Uint64 (from data offset)))])
    else inl (offset, values)
  else if dataType =? 4 then
    if offset + 4 <=? len data
    then inl (offset + 4, values ++ [VFloat32 (Uint32 (from data offset))])
    else inl (offset, values)
  else if dataType =? 5 then
    if offset + 8 <=? len data
    then inl (offset + 8, values ++ [VFloat64 (Uint64 (from data offset))])
    else inl (offset, values)
  else if dataType =? 6 then
    if offset + 4 <=? len data then
      let length := Uint32 (from data offset) in
      let offset := offset + 4 in
      if offset + length <=? len data
      then inl (offset + length,
                values ++ [VString (slice data offset (offset + length))])
      else inl (offset, values)
    else inl (offset, values)
  else inr values.

(** [for i := 0; i < numValues && offset < len(data); i++]: [n] counts the
    iterations [i] still has to go. *)
Fixpoint plainLoop (data : list byte) (dataType : Z) (n : nat) (offset : Z)
    (values : list value) : list value * option error :=
  match n with
  | O => (values, None)
  | S n' =>
      if offset <? len data then
        match plainStep data dataType offset values with
        | inl (offset', values') => plainLoop data dataType n' offset' values'
        | inr values' => (values', Some ErrUnsupportedType)
        end
      else (values, None)
  end.

Definition decodePlainValues (data : list byte) (dataType : Z) (numValues : Z)
    : list value * option error :=
  plainLoop data dataType (Z.to_nat numValues) 0 [].

(** ** delta_decode.go *)

Record simpleVarintReader : Type := mkReader {
  data : list byte;
  offset : Z
}.

(** The loop shared by [readVarint] and [readVarintUnsigned], run on the
    bytes from [offset] on: the accumulated [result] and the new offset, or
    the error. *)
Fixpoint varintLoop (rest : list byte) (offset result shift : Z)
    : (Z * Z) + error :=
  match rest with
  | [] => inr EOF
  | b :: rest' =>
      let offset := offset + 1 in
      let result := Z.lor result (uint64 (Z.shiftl (Z.land (b2z b) 127) shift)) in
      if Z.land (b2z b) 128 =? 0 then inl (result, offset)
      else
        let shift := shift + 7 in
        if 64 <=? shift then inr ErrVarintTooLong
        else varintLoop rest' offset result shift
  end.

(** A method with a pointer receiver returns the reader too.  On an error
    the reader is returned as it was: the source leaves its offset advanced,
    but no caller looks at the reader again then. *)
Definition readVarintUnsigned (r : simpleVarintReader)
    : Z * option error * simpleVarintReader :=
  match varintLoop (from (data r) (offset r)) (offset r) 0 0 with
  | inl (result, off) => (result, None, mkReader (data r) off)
  | inr e => (0, Some e, r)
  end.

Definition readVarint (r : simpleVarintReader)
    : Z * option error * simpleVarintReader :=
  match varintLoop (from (data r) (offset r)) (offset r) 0 0 with
  | inl (result, off) =>
      let decoded := int64 (Z.shiftr result 1) in
      let decoded := if negb (Z.land result 1 =? 0) then int64 (- decoded)
                     else decoded in
      (decoded, None, mkReader (data r) off)
  | inr e => (0, Some e, r)
  end.

(** The delta loop.  Each round reads at least one byte, so [fuel = len
    data] rounds are never used up ([deltaLoop_enough_fuel]). *)
Fixpoint deltaLoop (fuel : nat) (numValues : Z) (reader : simpleVarintReader)
    (currentValue : Z) (values : list value) : list value :=
  match fuel with
  | O => values
  | S fuel' =>
      if (len values <? numValues)
         && (offset reader <? len (data reader) - 1) then
        match readVarint reader with
        | (delta, None, reader') =>
            let currentValue := int64 (currentValue + delta) in
            deltaLoop fuel' numValues reader' currentValue
              (values ++ [VInt64 currentValue])
        | (_, Some _, _) => values
        end
      else values
  end.

Definition decodeDeltaBinaryPacked (data : list byte) (dataType : Z)
    (numValues : Z) : outcome (list value * option error) :=
  if len data <? 5 then Returns ([], Some ErrDeltaInsufficient)
  else
    let reader := mkReader data 0 in
    match readVarintUnsigned reader with
    | (_, Some e, _) => Returns ([], Some e)
    | (_, None, reader) =>
    match readVarintUnsigned reader with
    | (_, Some e, _) => Returns ([], Some e)
    | (_, None, reader) =>
    match readVarintUnsigned reader with
    | (_, Some e, _) => Returns ([], Some e)
    | (_, None, reader) =>
    match readVarint reader with
    | (_, Some e, _) => Returns ([], Some e)
    | (firstValue, None, reader) =>
        _ <- makeCap numValues ;;
        Returns (deltaLoop (length data) numValues reader firstValue
                   [VInt64 firstValue], None)
    end end end end.

(** ** rle_decoder.go *)

(** [maxSupportedValueCount] *)
Definition maxSupportedValueCount : Z := 16 * 1024 * 1024.

(** The loop of [decodeBitPackedBytes] for a non-zero bit width: [n] counts
    the iterations [i] still has to go. *)
Fixpoint bitPackedLoop (src : list byte) (bitWidth : Z) (n : nat) (i : Z)
    (dst : list byte) : list byte :=
  match n with
  | O => dst
  | S n' =>
      let byteIndex := (i * bitWidth) / 8 in
      let bitIndex := (i * bitWidth) mod 8 in
      if len src <=? byteIndex then dst
      else
        let bitsRemaining := bitWidth in
        let bitsToRead := if 8 - bitIndex <? bitsRemaining then 8 - bitIndex
                          else bitsRemaining in
        let mask := uint8 (Z.shiftl 1 bitsToRead - 1) in
        let value := Z.land (Z.shiftr (b2z (index src byteIndex)) bitIndex) mask in
        let bitsRemaining := bitsRemaining - bitsToRead in
        let value :=
          if (0 <? bitsRemaining) && (byteIndex + 1 <? len src) then
            Z.lor value
              (uint8 (Z.shiftl
                        (Z.land (b2z (index src (byteIndex + 1)))
                                (uint8 (Z.shiftl 1 bitsRemaining - 1)))
                        bitsToRead))
          else value in
        bitPackedLoop src bitWidth n' (i + 1) (dst ++ [z2b value])
  end.

Definition decodeBitPackedBytes (src : list byte) (count bitWidth : Z)
    : list byte :=
  if bitWidth =? 0 then repeat x00 (Z.to_nat count)
  else bitPackedLoop src bitWidth (Z.to_nat count) 0 [].

(** [for k := uint(0); k < count && len(dst) < numValues; k++]: [k] counts
    the iterations still to go. *)
Fixpoint appendRun (word : byte) (numValues : Z) (k : nat) (dst : list byte)
    : list byte :=
  match k with
  | O => dst
  | S k' =>
      if len dst <? numValues then appendRun word numValues k' (dst ++ [word])
      else dst
  end.

(** The block loop of [decodeRLEBytes].  Every round reads a header of at
    least one byte, so [fuel = len src] rounds are never used up
    ([rleLoop_enough_fuel]). *)
Fixpoint rleLoop (fuel : nat) (src : list byte) (numValues bitWidth : Z)
    (i : Z) (dst : list byte) : list byte * option error :=
  match fuel with
  | O => (dst, None)
  | S fuel' =>
      if (i <? len src) && (len dst <? numValues) then
        let '(u, n) := Uvarint (from src i) in
        if n =? 0 then (dst, Some ErrBlockHeaderEOF)
        else if n <? 0 then (dst, Some ErrBlockHeaderOverflow)
        else
          let i := i + n in
          let count := Z.shiftr u 1 in
          let bitpacked := negb (Z.land u 1 =? 0) in
          if maxSupportedValueCount <? count then (dst, Some ErrBlockTooLarge)
          else if bitpacked then
            let count := count * 8 in
            let byteCount := (count * bitWidth + 7) / 8 in
            let j := i + byteCount in
            if len src <? j then (dst, Some ErrBitPackedEOF)
            else
              let decoded := decodeBitPackedBytes (slice src i j) count bitWidth in
              rleLoop fuel' src numValues bitWidth j (dst ++ decoded)
          else
            if negb (bitWidth =? 0) && (len src <? i + 1)
            then (dst, Some ErrRunLengthEOF)
            else
              let word := if negb (bitWidth =? 0) then index src i else x00 in
              let i := if negb (bitWidth =? 0) then i + 1 else i in
              rleLoop fuel' src numValues bitWidth i
                (appendRun word numValues (Z.to_nat count) dst)
      else (dst, None)
  end.

(** [dst[:numValues]] when [len(dst) > numValues]. *)
Definition truncate (dst : list byte) (numValues : Z) : list byte :=
  if numValues <? len dst then firstn (Z.to_nat numValues) dst else dst.

Definition decodeRLEBytes (src : list byte) (numValues bitWidth : Z)
    : outcome (list byte * option error) :=
  if 8 <? bitWidth then Returns ([], Some ErrBitWidth)
  else
    _ <- makeCap numValues ;;
    match rleLoop (length src) src numValues bitWidth 0 [] with
    | (dst, Some e) => Returns (dst, Some e)
    | (dst, None) => Returns (truncate dst numValues, None)
    end.

(** The block loop of [decodeRLEBytesWithOffset]: as [rleLoop], with the
    count of bytes read. *)
Fixpoint rleOffsetLoop (fuel : nat) (src : list byte) (numValues bitWidth : Z)
    (i : Z) (dst : list byte) (bytesRead : Z)
    : list byte * Z * option error :=
  match fuel with
  | O => (dst, bytesRead, None)
  | S fuel' =>
      if (i <? len src) && (len dst <? numValues) then
        let '(u, n) := Uvarint (from src i) in
        if n =? 0 then (dst, bytesRead, Some ErrBlockHeaderEOF)
        else if n <? 0 then (dst, bytesRead, Some ErrBlockHeaderOverflow)
        else
          let i := i + n in
          let bytesRead := bytesRead + n in
          let count := Z.shiftr u 1 in
          let bitpacked := negb (Z.land u 1 =? 0) in
          if maxSupportedValueCount <? count
          then (dst, bytesRead, Some ErrBlockTooLarge)
          else
            let '(i, dst, bytesRead, err) :=
              if bitpacked then
                let count := count * 8 in
                let byteCount := (count * bitWidth + 7) / 8 in
                let j := i + byteCount in
                if len src <? j then (i, dst, bytesRead, Some ErrBitPackedEOF)
                else
                  let decoded :=
                    decodeBitPackedBytes (slice src i j) count bitWidth in
                  (j, dst ++ decoded, bytesRead + byteCount, None)
              else
                if negb (bitWidth =? 0) && (len src <? i + 1)
                then (i, dst, bytesRead, Some ErrRunLengthEOF)
                else
                  let word := if negb (bitWidth =? 0) then index src i else x00 in
                  let i' := if negb (bitWidth =? 0) then i + 1 else i in
                  let bytesRead := if negb (bitWidth =? 0) then bytesRead + 1
                                   else bytesRead in
                  (i', appendRun word numValues (Z.to_nat count) dst,
                   bytesRead, None) in
            match err with
            | Some e => (dst, bytesRead, Some e)
            | None =>
                if numValues <=? len dst then (dst, bytesRead, None)
                else rleOffsetLoop fuel' src numValues bitWidth i dst bytesRead
            end
      else (dst, bytesRead, None)
  end.

Definition decodeRLEBytesWithOffset (src : list byte) (numValues bitWidth : Z)
    : outcome (list byte * Z * option error) :=
  if 8 <? bitWidth then Returns ([], 0, Some ErrBitWidth)
  else
    _ <- makeCap numValues ;;
    match rleOffsetLoop (length src) src numValues bitWidth 0 [] 0 with
    | (dst, bytesRead, Some e) => Returns (dst, bytesRead, Some e)
    | (dst, bytesRead, None) => Returns (truncate dst numValues, bytesRead, None)
    end.

(** [decodeRLELevels]: levels, the bytes after the level section, error. *)
Definition decodeRLELevels (data : list byte) (numValues bitWidth : Z)
    : outcome (list byte * list byte * option error) :=
  if len data <? 4 then Returns ([], data, Some ErrUnexpectedEOF)
  else
    let encodedLength := Uint32 (slice data 0 4) in
    if (encodedLength <? 0) || (len data <? 4 + encodedLength)
    then Returns ([], data, Some ErrInvalidEncodedLength)
    else
      let encodedData := slice data 4 (4 + encodedLength) in
      ' (levels, err) <- decodeRLEBytes encodedData numValues bitWidth ;;
      match err with
      | Some e => Returns ([], data, Some e)
      | None => Returns (levels, from data (4 + encodedLength), None)
      end.

(** ** page_decode.go *)

(** [for _, level := range defLevels { if level > maxDefinitionLevel ... }] *)
Definition levelsValid (defLevels : list byte) (maxDefinitionLevel : Z) : bool :=
  forallb (fun level => negb (maxDefinitionLevel <? b2z level)) defLevels.

(** [repetitionType != nil && *repetitionType == r] *)
Definition repetitionIs (repetitionType : option Z) (r : Z) : bool :=
  match repetitionType with
  | Some t => t =? r
  | None => false
  end.

(** The first half of [parseDataPageWithEncoding]: the bytes left for the
    value decoder once the speculative level sections are stripped. *)
Definition stripRepetition (pageData : list byte) (numValues : Z)
    (repetitionType : option Z) : outcome (list byte) :=
  let hasRepetition := repetitionIs repetitionType 2 in
  if hasRepetition then
    ' (_, remaining, err) <- decodeRLELevels pageData numValues 1 ;;
    match err with
    | None => Returns remaining
    | Some _ => Returns pageData
    end
  else Returns pageData.

Definition stripDefinition (pageData : list byte) (numValues : Z)
    (repetitionType : option Z) (maxDefinitionLevel : Z)
    : outcome (list byte) :=
  if repetitionIs repetitionType 0 then
    ' (defLevels, remaining, err) <- decodeRLELevels pageData numValues 1 ;;
    match err with
    | None => if 0 <? len defLevels then Returns remaining else Returns pageData
    | Some _ => Returns pageData
    end
  else if 0 <? maxDefinitionLevel then
    if 4 <=? len pageData then
      let encodedLength := Uint32 (slice pageData 0 4) in
      if (0 <? encodedLength) && (encodedLength <? len pageData)
         && (encodedLength <? 10000) then
        ' (defLevels, remaining, err) <-
            decodeRLELevels pageData numValues maxDefinitionLevel ;;
        match err with
        | None =>
            if (0 <? len defLevels) && levelsValid defLevels maxDefinitionLevel
            then Returns remaining else Returns pageData
        | Some _ => Returns pageData
        end
      else
        ' (defLevels, bytesRead, err) <-
            decodeRLEBytesWithOffset pageData numValues maxDefinitionLevel ;;
        match err with
        | None =>
            if (0 <? len defLevels)
               && (len defLevels <=? int64 (numValues + 10))
               && levelsValid defLevels maxDefinitionLevel
               && (0 <? bytesRead) && (bytesRead <? len pageData)
            then Returns (from pageData bytesRead) else Returns pageData
        | Some _ => Returns pageData
        end
    else Returns pageData
  else Returns pageData.

Definition stripLevels (data : list byte) (numValues : Z)
    (repetitionType : option Z) (maxDefinitionLevel : Z)
    : outcome (list byte) :=
  pageData <- stripRepetition data numValues repetitionType ;;
  stripDefinition pageData numValues repetitionType maxDefinitionLevel.

(** The [switch encoding] that ends [parseDataPageWithEncoding]. *)
Definition decodeValues (pageData : list byte) (dataType encoding numValues : Z)
    : outcome (list value * option error) :=
  if encoding =? 0 then Returns (decodePlainValues pageData dataType numValues)
  else if encoding =? 5 then decodeDeltaBinaryPacked pageData dataType numValues
  else Returns (decodePlainValues pageData dataType numValues).

Definition parseDataPageWithEncoding (data : list byte)
    (dataType encoding numValues : Z) (repetitionType : option Z)
    (maxDefinitionLevel : Z) : outcome (list value * option error) :=
  pageData <- stripLevels data numValues repetitionType maxDefinitionLevel ;;
  decodeValues pageData dataType encoding numValues.

(** ** thrift_compact.ksy: the syntax tree *)

(** One record per Kaitai type; a [seq] entry under an [if:] is an option,
    as the generated parser leaves it unset. *)
Record VarintU : Type := mkVarintU { vu_bytes : list byte }.
Record VarintZ : Type := mkVarintZ { vz_bytes : list byte }.
Record CompactString : Type := mkCompactString {
  Len : VarintU;
  Value : list byte
}.

Inductive CompactValue : Type :=
  mkCompactValue {
    ValueType : Z;
    ByteValue : option Z;
    I16Value : option VarintZ;
    I32Value : option VarintZ;
    I64Value : option VarintZ;
    DoubleValue : option Z;
    BinaryValue : option CompactString;
    ListValue : option CompactList;
    SetValue : option CompactList;
    MapValue : option CompactMap;
    StructValue : option CompactStruct }
with CompactList : Type :=
  mkCompactList {
    ListHeader : Z;
    ExtendedSize : option VarintU;
    Elements : list CompactValue }
with CompactMap : Type :=
  mkCompactMap {
    Size : VarintU;
    TypeByte : option Z;
    Entries : list MapEntry }
with MapEntry : Type :=
  mkMapEntry {
    Key : CompactValue;
    EntryValue : CompactValue }
with CompactStruct : Type :=
  mkCompactStruct {
    Fields : list CompactField }
with CompactField : Type :=
  mkCompactField {
    FieldHeader : Z;
    ExtendedDelta : option VarintZ;
    FieldValue : option CompactValue }.

(** *** Value instances *)

(** One summand of [value_u]: [(bytes[k] & 0x7f) << 7k] when
    [bytes.size > k], else [0]. *)
Definition group (bytes : list byte) (k : Z) : Z :=
  if k <? len bytes then Z.shiftl (Z.land (b2z (index bytes k)) 127) (7 * k)
  else 0.

(** [value_u] of [varint_u] and of [varint_z]: the ten summands, in the
    64-bit [int] of the generated code. *)
Definition value_u (bytes : list byte) : Z :=
  int64 (group bytes 0 + group bytes 1 + group bytes 2 + group bytes 3
         + group bytes 4 + group bytes 5 + group bytes 6 + group bytes 7
         + group bytes 8 + group bytes 9).

Definition VarintU_ValueU (v : VarintU) : Z := value_u (vu_bytes v).
Definition VarintZ_ValueU (v : VarintZ) : Z := value_u (vz_bytes v).

(** [value] of [varint_z]: [(value_u >> 1) ^ (-(value_u & 1))]. *)
Definition VarintZ_Value (v : VarintZ) : Z :=
  Z.lxor (Z.shiftr (VarintZ_ValueU v) 1) (- (Z.land (VarintZ_ValueU v) 1)).

(** Instances of [compact_field]. *)
Definition IsStop (f : CompactField) : bool := FieldHeader f =? 0.
Definition FieldType (f : CompactField) : Z := Z.land (FieldHeader f) 15.
Definition FieldDeltaShort (f : CompactField) : Z :=
  Z.land (Z.shiftr (FieldHeader f) 4) 15.
Definition HasExtendedDelta (f : CompactField) : bool := FieldDeltaShort f =? 0.

(** Instances of [compact_list]. *)
Definition ListSizeShort (l : CompactList) : Z :=
  Z.land (Z.shiftr (ListHeader l) 4) 15.
Definition ElementType (l : CompactList) : Z := Z.land (ListHeader l) 15.

(** *** The parser *)

(** A parse yields a tree and the unread bytes, or the error of the stream.
    [PDeep] stands for a recursion deeper than the budget. *)
Inductive parsed (A : Type) : Type :=
| POk (a : A) (rest : list byte)
| PErr (e : error)
| PDeep.

Arguments POk {A} a rest.
Arguments PErr {A} e.
Arguments PDeep {A}.

Definition bindP {A B : Type} (m : parsed A)
    (k : A -> list byte -> parsed B) : parsed B :=
  match m with
  | POk a rest => k a rest
  | PErr e => PErr e
  | PDeep => PDeep
  end.

(** [u1] *)
Definition read_u1 (s : list byte) : parsed Z :=
  match s with
  | [] => PErr EOF
  | b :: s' => POk (b2z b) s'
  end.

(** The runtime's [ReadBytes(n)]: [io.ReadFull] gives [io.EOF] when nothing
    could be read and [io.ErrUnexpectedEOF] on a partial read. *)
Definition read_bytes (n : Z) (s : list byte) : parsed (list byte) :=
  if n <? 0 then PErr ErrNegativeRead
  else if len s <? n then
    PErr (match s with [] => EOF | _ => ErrUnexpectedEOF end)
  else POk (firstn (Z.to_nat n) s) (skipn (Z.to_nat n) s).

(** [type: u1, repeat: until, repeat-until: (_ & 0x80) == 0] *)
Fixpoint read_varint_bytes (s : list byte) (acc : list byte)
    : parsed (list byte) :=
  match s with
  | [] => PErr EOF
  | b :: s' =>
      if Z.land (b2z b) 128 =? 0 then POk (acc ++ [b]) s'
      else read_varint_bytes s' (acc ++ [b])
  end.

Definition parse_varint_u (s : list byte) : parsed VarintU :=
  bindP (read_varint_bytes s []) (fun bytes rest => POk (mkVarintU bytes) rest).

Definition parse_varint_z (s : list byte) : parsed VarintZ :=
  bindP (read_varint_bytes s []) (fun bytes rest => POk (mkVarintZ bytes) rest).

Definition parse_compact_string (s : list byte) : parsed CompactString :=
  bindP (parse_varint_u s) (fun l rest =>
  bindP (read_bytes (VarintU_ValueU l) rest) (fun v rest =>
  POk (mkCompactString l v) rest)).

(** [repeat: expr]: [n] items, one after the other. *)
Fixpoint repeatExpr {A : Type} (item : list byte -> parsed A) (n : nat)
    (s : list byte) (acc : list A) : parsed (list A) :=
  match n with
  | O => POk acc s
  | S n' => bindP (item s) (fun a rest => repeatExpr item n' rest (acc ++ [a]))
  end.

(** [repeat: until]: items up to and with the first that satisfies [stop].
    Every item of the one use below reads a byte at least, so a counter [k]
    above the length of the input is never used up
    ([parse_compact_struct_counter]). *)
Fixpoint repeatUntil {A : Type} (item : list byte -> parsed A)
    (stop : A -> bool) (k : nat) (s : list byte) (acc : list A)
    : parsed (list A) :=
  match k with
  | O => PErr EOF
  | S k' =>
      bindP (item s) (fun a rest =>
      if stop a then POk (acc ++ [a]) rest
      else repeatUntil item stop k' rest (acc ++ [a]))
  end.

(** A value with no [seq] entry set. *)
Definition noValue (value_type : Z) : CompactValue :=
  mkCompactValue value_type None None None None None None None None None None.

(** The five recursive types.  [fuel] bounds the depth of the recursion; the
    [repeat] loops run on their own counters: a struct reads at most one
    field per input byte, a list or map as many entries as its size says. *)
Fixpoint parse_compact_value (fuel : nat) (value_type : Z) (s : list byte)
    : parsed CompactValue :=
  match fuel with
  | O => PDeep
  | S fuel' =>
      if value_type =? 3 then
        bindP (read_u1 s) (fun b rest =>
        POk (mkCompactValue value_type (Some (swrap 8 b)) None None None None
               None None None None None) rest)
      else if value_type =? 4 then
        bindP (parse_varint_z s) (fun v rest =>
        POk (mkCompactValue value_type None (Some v) None None None
               None None None None None) rest)
      else if value_type =? 5 then
        bindP (parse_varint_z s) (fun v rest =>
        POk (mkCompactValue value_type None None (Some v) None None
               None None None None None) rest)
      else if value_type =? 6 then
        bindP (parse_varint_z s) (fun v rest =>
        POk (mkCompactValue value_type None None None (Some v) None
               None None None None None) rest)
      else if value_type =? 7 then
        bindP (read_bytes 8 s) (fun bits rest =>
        POk (mkCompactValue value_type None None None None (Some (Uint64 bits))
               None None None None None) rest)
      else if value_type =? 8 then
        bindP (parse_compact_string s) (fun v rest =>
        POk (mkCompactValue value_type None None None None None
               (Some v) None None None None) rest)
      else if value_type =? 9 then
        bindP (parse_compact_list fuel' s) (fun v rest =>
        POk (mkCompactValue value_type None None None None None
               None (Some v) None None None) rest)
      else if value_type =? 10 then
        bindP (parse_compact_list fuel' s) (fun v rest =>
        POk (mkCompactValue value_type None None None None None
               None None (Some v) None None) rest)
      else if value_type =? 11 then
        bindP (parse_compact_map fuel' s) (fun v rest =>
        POk (mkCompactValue value_type None None None None None
               None None None (Some v) None) rest)
      else if value_type =? 12 then
        bindP (parse_compact_struct fuel' s) (fun v rest =>
        POk (mkCompactValue value_type None None None None None
               None None None None (Some v)) rest)
      else POk (noValue value_type) s
  end

with parse_compact_list (fuel : nat) (s : list byte) : parsed CompactList :=
  match fuel with
  | O => PDeep
  | S fuel' =>
      bindP (read_u1 s) (fun list_header rest =>
      let list_size_short := Z.land (Z.shiftr list_header 4) 15 in
      let element_type := Z.land list_header 15 in
      let has_extended_size := list_size_short =? 15 in
      bindP (if has_extended_size
             then bindP (parse_varint_u rest) (fun v rest => POk (Some v) rest)
             else POk None rest) (fun extended_size rest =>
      let list_size :=
        match extended_size with
        | Some v => VarintU_ValueU v
        | None => list_size_short
        end in
      bindP (repeatExpr (parse_compact_value fuel' element_type)
               (Z.to_nat list_size) rest []) (fun elements rest =>
      POk (mkCompactList list_header extended_size elements) rest)))
  end

with parse_compact_map (fuel : nat) (s : list byte) : parsed CompactMap :=
  match fuel with
  | O => PDeep
  | S fuel' =>
      bindP (parse_varint_u s) (fun size rest =>
      let map_size := VarintU_ValueU size in
      bindP (if negb (map_size =? 0)
             then bindP (read_u1 rest) (fun b rest => POk (Some b) rest)
             else POk None rest) (fun type_byte rest =>
      let key_type :=
        match type_byte with
        | Some b => Z.land (Z.shiftr b 4) 15
        | None => 0
        end in
      let value_type :=
        match type_byte with
        | Some b => Z.land b 15
        | None => 0
        end in
      bindP (repeatExpr
               (fun s =>
                  bindP (parse_compact_value fuel' key_type s) (fun k rest =>
                  bindP (parse_compact_value fuel' value_type rest) (fun v rest =>
                  POk (mkMapEntry k v) rest)))
               (Z.to_nat map_size) rest []) (fun entries rest =>
      POk (mkCompactMap size type_byte entries) rest)))
  end

with parse_compact_struct (fuel : nat) (s : list byte) : parsed CompactStruct :=
  match fuel with
  | O => PDeep
  | S fuel' =>
      bindP (repeatUntil (parse_compact_field fuel') IsStop (S (length s)) s [])
        (fun fields rest => POk (mkCompactStruct fields) rest)
  end

with parse_compact_field (fuel : nat) (s : list byte) : parsed CompactField :=
  match fuel with
  | O => PDeep
  | S fuel' =>
      bindP (read_u1 s) (fun field_header rest =>
      let is_stop := field_header =? 0 in
      let field_type := Z.land field_header 15 in
      let field_delta_short := Z.land (Z.shiftr field_header 4) 15 in
      let has_extended_delta := field_delta_short =? 0 in
      bindP (if negb is_stop && has_extended_delta
             then bindP (parse_varint_z rest) (fun v rest => POk (Some v) rest)
             else POk None rest) (fun extended_delta rest =>
      bindP (if negb is_stop
             then bindP (parse_compact_value fuel' field_type rest)
                    (fun v rest => POk (Some v) rest)
             else POk None rest) (fun value rest =>
      POk (mkCompactField field_header extended_delta value) rest)))
  end.

(** ** parquet_types.go *)

(** The fields a decoder writes or the reader consults; a pointer field is
    an option.  The fields no decoder ever sets (sorting columns, statistics,
    index offsets) are left out.  [Type] is [SType] and [CType] here, and a
    name that two structs share keeps the initials of the row group
    ([RGNumRows], [RGFileOffset], [RGTotalCompressedSize]). *)
Record SchemaElement : Type := mkSchemaElement {
  SType : Z;
  TypeLength : option Z;
  RepetitionType : option Z;
  Name : list byte;
  NumChildren : option Z;
  ConvertedType : option Z;
  Scale : option Z;
  Precision : option Z;
  FieldID : option Z
}.

Record ColumnMetaData : Type := mkColumnMetaData {
  CType : Z;
  Encodings : list Z;
  PathInSchema : list (list byte);
  Codec : Z;
  NumValues : Z;
  TotalUncompressedSize : Z;
  TotalCompressedSize : Z;
  DataPageOffset : Z;
  DictionaryPageOffset : option Z
}.

Record ColumnChunk : Type := mkColumnChunk {
  FilePath : list (list byte);
  FileOffset : Z;
  MetaData : option ColumnMetaData
}.

Record RowGroup : Type := mkRowGroup {
  Columns : list ColumnChunk;
  TotalByteSize : Z;
  RGNumRows : Z;
  RGFileOffset : Z;
  RGTotalCompressedSize : Z
}.

Record FileMetadata : Type := mkFileMetadata {
  Version : Z;
  Schema : list SchemaElement;
  NumRows : Z;
  RowGroups : list RowGroup
}.

(** The zero values [SchemaElement{}], [&ColumnMetaData{}], ... *)
Definition zeroSchemaElement : SchemaElement :=
  mkSchemaElement 0 None None [] None None None None None.
Definition zeroColumnMetaData : ColumnMetaData :=
  mkColumnMetaData 0 [] [] 0 0 0 0 0 None.
Definition zeroColumnChunk : ColumnChunk := mkColumnChunk [] 0 None.
Definition zeroRowGroup : RowGroup := mkRowGroup [] 0 0 0 0.
Definition zeroFileMetadata : FileMetadata := mkFileMetadata 0 [] 0 [].

(** ** thrift_compact_decode.go: fields and accessors *)

Record thriftField : Type := mkThriftField {
  ID : Z;
  Type_ : Z;
  Val : option CompactValue
}.

(** The loop of [thriftFields], with the running [prevID]. *)
Fixpoint thriftFieldsLoop (fs : list CompactField) (prevID : Z)
    (out : list thriftField) : list thriftField * option error :=
  match fs with
  | [] => (out, None)
  | f :: fs' =>
      if IsStop f then (out, None)
      else
        let ft := FieldType f in
        if HasExtendedDelta f then
          match ExtendedDelta f with
          | None => ([], Some ErrExtendedDeltaMissing)
          | Some ext =>
              let id := int16 (VarintZ_Value ext) in
              thriftFieldsLoop fs' id
                (out ++ [mkThriftField id (uint8 ft) (FieldValue f)])
          end
        else
          let delta := FieldDeltaShort f in
          let id := int16 (prevID + int16 delta) in
          thriftFieldsLoop fs' id
            (out ++ [mkThriftField id (uint8 ft) (FieldValue f)])
  end.

Definition thriftFields (st : CompactStruct) : list thriftField * option error :=
  thriftFieldsLoop (Fields st) 0 [].

(** [thriftI32] and [thriftI64]: value, [ok], error.  The error is the one
    of the [Value()] instance, which computes and cannot fail. *)
Definition thriftI32 (v : option CompactValue) : Z * bool * option error :=
  match v with
  | None => (0, false, None)
  | Some v =>
      match I32Value v with
      | None => (0, false, None)
      | Some x => (int32 (VarintZ_Value x), true, None)
      end
  end.

Definition thriftI64 (v : option CompactValue) : Z * bool * option error :=
  match v with
  | None => (0, false, None)
  | Some v =>
      match I64Value v with
      | None => (0, false, None)
      | Some x => (int64 (VarintZ_Value x), true, None)
      end
  end.

Definition thriftString (v : option CompactValue) : list byte * bool :=
  match v with
  | None => ([], false)
  | Some v =>
      match BinaryValue v with
      | None => ([], false)
      | Some s => (Value s, true)
      end
  end.

(** [thriftStruct] and [thriftList] return a pointer and [ok], and [ok] holds
    exactly when the pointer is not nil: an option. *)
Definition thriftStruct (v : option CompactValue) : option CompactStruct :=
  match v with
  | None => None
  | Some v => StructValue v
  end.

Definition thriftList (v : option CompactValue) : option CompactList :=
  match v with
  | None => None
  | Some v =>
      match ListValue v with
      | Some l => Some l
      | None => SetValue v
      end
  end.

(** ** thrift_compact_decode.go: the metadata mapper *)

(** [for _, f := range fields { switch f.ID ... }] with its early returns:
    [step] gives the updated result or the error returned. *)
Fixpoint eachField {S : Type} (step : S -> thriftField -> S + error)
    (fields : list thriftField) (out : S) : S + error :=
  match fields with
  | [] => inl out
  | f :: fields' =>
      match step out f with
      | inl out' => eachField step fields' out'
      | inr e => inr e
      end
  end.

(** [if v, ok, err := thriftI32(f.Val); err == nil && ok { set v }
     else if err != nil { return err }], and the same for [thriftI64]. *)
Definition withInt {S : Type} (r : Z * bool * option error) (set : Z -> S)
    (out : S) : S + error :=
  match r with
  | (v, ok, None) => if ok then inl (set v) else inl out
  | (_, _, Some e) => inr e
  end.

(** [for _, elem := range lst.Elements] over the elements that a [decode]
    accepts ([None] is the [continue]). *)
Fixpoint eachElement {A : Type} (decode : CompactValue -> option (A + error))
    (elems : list CompactValue) (acc : list A) : list A + error :=
  match elems with
  | [] => inl acc
  | elem :: elems' =>
      match decode elem with
      | None => eachElement decode elems' acc
      | Some (inl a) => eachElement decode elems' (acc ++ [a])
      | Some (inr e) => inr e
      end
  end.

Definition schemaElementField (out : SchemaElement) (f : thriftField)
    : SchemaElement + error :=
  let '(mkSchemaElement t tl rt nm nc ct sc pr fid) := out in
  if ID f =? 1 then
    withInt (thriftI32 (Val f))
      (fun v => mkSchemaElement v tl rt nm nc ct sc pr fid) out
  else if ID f =? 2 then
    withInt (thriftI32 (Val f))
      (fun v => mkSchemaElement t (Some v) rt nm nc ct sc pr fid) out
  else if ID f =? 3 then
    withInt (thriftI32 (Val f))
      (fun v => mkSchemaElement t tl (Some v) nm nc ct sc pr fid) out
  else if ID f =? 4 then
    match thriftString (Val f) with
    | (s, true) => inl (mkSchemaElement t tl rt s nc ct sc pr fid)
    | (_, false) => inl out
    end
  else if ID f =? 5 then
    withInt (thriftI32 (Val f))
      (fun v => mkSchemaElement t tl rt nm (Some v) ct sc pr fid) out
  else if ID f =? 6 then
    withInt (thriftI32 (Val f))
      (fun v => mkSchemaElement t tl rt nm nc (Some v) sc pr fid) out
  else if ID f =? 7 then
    withInt (thriftI32 (Val f))
      (fun v => mkSchemaElement t tl rt nm nc ct (Some v) pr fid) out
  else if ID f =? 8 then
    withInt (thriftI32 (Val f))
      (fun v => mkSchemaElement t tl rt nm nc ct sc (Some v) fid) out
  else if ID f =? 9 then
    withInt (thriftI32 (Val f))
      (fun v => mkSchemaElement t tl rt nm nc ct sc pr (Some v)) out
  else inl out.

Definition decodeSchemaElement (st : CompactStruct) : SchemaElement + error :=
  match thriftFields st with
  | (_, Some e) => inr e
  | (fields, None) => eachField schemaElementField fields zeroSchemaElement
  end.

Definition columnMetaDataField (out : ColumnMetaData) (f : thriftField)
    : ColumnMetaData + error :=
  let '(mkColumnMetaData t en ps cd nv tus tcs dpo dico) := out in
  if ID f =? 1 then
    withInt (thriftI32 (Val f))
      (fun v => mkColumnMetaData v en ps cd nv tus tcs dpo dico) out
  else if ID f =? 2 then
    match thriftList (Val f) with
    | None => inl out
    | Some lst =>
        match eachElement
                (fun elem =>
                   match thriftI32 (Some elem) with
                   | (v, ok, None) => if ok then Some (inl v) else None
                   | (_, _, Some e) => Some (inr e)
                   end)
                (Elements lst) en with
        | inl en' => inl (mkColumnMetaData t en' ps cd nv tus tcs dpo dico)
        | inr e => inr e
        end
    end
  else if ID f =? 3 then
    match thriftList (Val f) with
    | None => inl out
    | Some lst =>
        match eachElement
                (fun elem =>
                   match thriftString (Some elem) with
                   | (s, true) => Some (inl s)
                   | (_, false) => None
                   end)
                (Elements lst) ps with
        | inl ps' => inl (mkColumnMetaData t en ps' cd nv tus tcs dpo dico)
        | inr e => inr e
        end
    end
  else if ID f =? 4 then
    withInt (thriftI32 (Val f))
      (fun v => mkColumnMetaData t en ps v nv tus tcs dpo dico) out
  else if ID f =? 5 then
    withInt (thriftI64 (Val f))
      (fun v => mkColumnMetaData t en ps cd v tus tcs dpo dico) out
  else if ID f =? 6 then
    withInt (thriftI64 (Val f))
      (fun v => mkColumnMetaData t en ps cd nv v tcs dpo dico) out
  else if ID f =? 7 then
    withInt (thriftI64 (Val f))
      (fun v => mkColumnMetaData t en ps cd nv tus v dpo dico) out
  else if ID f =? 9 then
    withInt (thriftI64 (Val f))
      (fun v => mkColumnMetaData t en ps cd nv tus tcs v dico) out
  else if ID f =? 11 then
    withInt (thriftI64 (Val f))
      (fun v => mkColumnMetaData t en ps cd nv tus tcs dpo (Some v)) out
  else inl out.

Definition decodeColumnMetaData (st : CompactStruct) : ColumnMetaData + error :=
  match thriftFields st with
  | (_, Some e) => inr e
  | (fields, None) => eachField columnMetaDataField fields zeroColumnMetaData
  end.

Definition columnChunkField (out : ColumnChunk) (f : thriftField)
    : ColumnChunk + error :=
  let '(mkColumnChunk fp fo md) := out in
  if ID f =? 1 then
    match thriftString (Val f) with
    | (s, true) =>
        match s with
        | [] => inl out
        | _ => inl (mkColumnChunk [s] fo md)
        end
    | (_, false) => inl out
    end
  else if ID f =? 2 then
    withInt (thriftI64 (Val f)) (fun v => mkColumnChunk fp v md) out
  else if ID f =? 3 then
    match thriftStruct (Val f) with
    | Some sst =>
        match decodeColumnMetaData sst with
        | inl m => inl (mkColumnChunk fp fo (Some m))
        | inr e => inr e
        end
    | None => inl out
    end
  else inl out.

Definition decodeColumnChunk (st : CompactStruct) : ColumnChunk + error :=
  match thriftFields st with
  | (_, Some e) => inr e
  | (fields, None) => eachField columnChunkField fields zeroColumnChunk
  end.

Definition rowGroupField (out : RowGroup) (f : thriftField) : RowGroup + error :=
  let '(mkRowGroup cols tbs nr fo tcs) := out in
  if ID f =? 1 then
    match thriftList (Val f) with
    | None => inl out
    | Some lst =>
        match eachElement
                (fun elem =>
                   match thriftStruct (Some elem) with
                   | None => None
                   | Some cst => Some (decodeColumnChunk cst)
                   end)
                (Elements lst) cols with
        | inl cols' => inl (mkRowGroup cols' tbs nr fo tcs)
        | inr e => inr e
        end
    end
  else if ID f =? 2 then
    withInt (thriftI64 (Val f)) (fun v => mkRowGroup cols v nr fo tcs) out
  else if ID f =? 3 then
    withInt (thriftI64 (Val f)) (fun v => mkRowGroup cols tbs v fo tcs) out
  else if ID f =? 5 then
    withInt (thriftI64 (Val f)) (fun v => mkRowGroup cols tbs nr v tcs) out
  else if ID f =? 6 then
    withInt (thriftI64 (Val f)) (fun v => mkRowGroup cols tbs nr fo v) out
  else inl out.

Definition decodeRowGroup (st : CompactStruct) : RowGroup + error :=
  match thriftFields st with
  | (_, Some e) => inr e
  | (fields, None) => eachField rowGroupField fields zeroRowGroup
  end.

Definition fileMetaDataField (meta : FileMetadata) (f : thriftField)
    : FileMetadata + error :=
  let '(mkFileMetadata ver sch nr rgs) := meta in
  if ID f =? 1 then
    withInt (thriftI32 (Val f)) (fun v => mkFileMetadata v sch nr rgs) meta
  else if ID f =? 2 then
    match thriftList (Val f) with
    | None => inl meta
    | Some lst =>
        match eachElement
                (fun elem =>
                   match thriftStruct (Some elem) with
                   | None => None
                   | Some sst => Some (decodeSchemaElement sst)
                   end)
                (Elements lst) sch with
        | inl sch' => inl (mkFileMetadata ver sch' nr rgs)
        | inr e => inr e
        end
    end
  else if ID f =? 3 then
    withInt (thriftI64 (Val f)) (fun v => mkFileMetadata ver sch v rgs) meta
  else if ID f =? 4 then
    match thriftList (Val f) with
    | None => inl meta
    | Some lst =>
        match eachElement
                (fun elem =>
                   match thriftStruct (Some elem) with
                   | None => None
                   | Some rst => Some (decodeRowGroup rst)
                   end)
                (Elements lst) rgs with
        | inl rgs' => inl (mkFileMetadata ver sch nr rgs')
        | inr e => inr e
        end
    end
  else inl meta.

Definition decodeFileMetaData (st : CompactStruct) : FileMetadata + error :=
  match thriftFields st with
  | (_, Some e) => inr e
  | (fields, None) => eachField fileMetaDataField fields zeroFileMetadata
  end.

(** ** thrift_compact_decode.go: page headers *)

(** The named results of [decodePageHeader]. *)
Record pageHeader : Type := mkPageHeader {
  pageType : Z;
  uncompressedSize : Z;
  compressedSize : Z;
  numValues : Z;
  encoding : Z
}.

Definition zeroPageHeader : pageHeader := mkPageHeader 0 0 0 0 0.

(** [if e != nil { return e }; if ok { set v }] *)
Definition whenInt {S : Type} (r : Z * bool * option error) (set : Z -> S)
    (out : S) : S + error :=
  match r with
  | (_, _, Some e) => inr e
  | (v, ok, None) => if ok then inl (set v) else inl out
  end.

(** The inner [switch df.ID] over the fields of the data page header. *)
Definition dataPageHeaderField (h : pageHeader) (df : thriftField)
    : pageHeader + error :=
  let '(mkPageHeader pt us cs nv en) := h in
  if ID df =? 1 then
    whenInt (thriftI32 (Val df)) (fun v => mkPageHeader pt us cs (int64 v) en) h
  else if ID df =? 2 then
    whenInt (thriftI32 (Val df)) (fun v => mkPageHeader pt us cs nv v) h
  else inl h.

Definition pageHeaderField (h : pageHeader) (f : thriftField)
    : pageHeader + error :=
  let '(mkPageHeader pt us cs nv en) := h in
  if ID f =? 1 then
    whenInt (thriftI32 (Val f)) (fun v => mkPageHeader v us cs nv en) h
  else if ID f =? 2 then
    whenInt (thriftI32 (Val f)) (fun v => mkPageHeader pt v cs nv en) h
  else if ID f =? 3 then
    whenInt (thriftI32 (Val f)) (fun v => mkPageHeader pt us v nv en) h
  else if ID f =? 5 then
    match thriftStruct (Val f) with
    | None => inl h
    | Some dphSt =>
        match thriftFields dphSt with
        | (_, Some e) => inr e
        | (dFields, None) => eachField dataPageHeaderField dFields h
        end
    end
  else inl h.

Definition decodePageHeader (st : CompactStruct) : pageHeader + error :=
  match thriftFields st with
  | (_, Some e) => inr e
  | (fields, None) => eachField pageHeaderField fields zeroPageHeader
  end.

(** ** thrift_compact_decode.go: reading a struct off the stream *)

(** [parseCompactStructFromBytes]: the struct, the bytes consumed and the
    error.  The depth budget [3 * len(b) + 3] is out of reach
    ([parseCompactStructFromBytes_returns]): each level of nesting costs
    three calls and at least one byte of input. *)
Definition parseCompactStructFromBytes (b : list byte)
    : outcome (option CompactStruct * Z * option error) :=
  match parse_compact_struct (3 * length b + 3) b with
  | POk st rest => Returns (Some st, len b - len rest, None)
  | PErr e => Returns (None, 0, Some e)
  | PDeep => Panics
  end.

(** The buffered reader over the column's section is the list of the bytes
    not yet consumed: [Peek(n)] is [firstn n] (short at the end of the
    section, with [io.EOF]), [Discard(n)] is [from _ n]. *)
Definition bufio := list byte.

(** The loop of [parseCompactStructFromBufio]: [peekN] doubles from 256 up
    to [maxPeek], so [fuel] rounds, one more than the bits of [maxPeek], are
    never used up ([parseCompactStructFromBufio_enough_fuel]).  [maxPeek]
    does not exceed the size of the buffer, 64 KiB. *)
Fixpoint peekLoop (fuel : nat) (r : bufio) (maxPeek peekN : Z)
    : outcome (option CompactStruct * Z * option error * bufio) :=
  match fuel with
  | O => Returns (None, 0, Some EOF, r)
  | S fuel' =>
      let peekN := if maxPeek <? peekN then maxPeek else peekN in
      let b := firstn (Z.to_nat peekN) r in
      if len b =? 0 then Returns (None, 0, Some EOF, r)
      else
        ' (st, consumed, perr) <- parseCompactStructFromBytes b ;;
        match perr with
        | None =>
            if consumed <=? 0 then Returns (None, 0, Some ErrConsumedZero, r)
            else Returns (st, consumed, None, from r consumed)
        | Some e =>
            if mentionsEOF e then
              if maxPeek <=? peekN then Returns (None, 0, Some e, r)
              else peekLoop fuel' r maxPeek (peekN * 2)
            else Returns (None, 0, Some e, r)
        end
  end.

Definition parseCompactStructFromBufio (r : bufio) (maxPeek : Z)
    : outcome (option CompactStruct * Z * option error * bufio) :=
  let maxPeek := if maxPeek <=? 0 then 64 * 1024 else maxPeek in
  peekLoop (S (Z.to_nat (Z.log2 maxPeek))) r maxPeek 256.

(** ** thrift_compact_decode.go: the column page reader *)

Section ColumnPageReader.

(** [snappy.Decode(nil, data)] of the compression library: the decoded
    bytes, or [None] for its error. *)
Variable snappyDecode : list byte -> option (list byte).

(** [decompressData] of [compress.go]. *)
Definition decompressData (data : list byte) (codec : Z) (_ : Z)
    : list byte * option error :=
  if codec =? 0 then (data, None)
  else if codec =? 1 then
    match snappyDecode data with
    | Some d => (d, None)
    | None => ([], Some ErrSnappy)
    end
  else ([], Some ErrUnsupportedCodec).

(** [io.NewSectionReader(file, off, n)]: the bytes of the section.  A
    negative offset makes every read fail, which ends the page loop as an
    empty section does. *)
Definition sectionBytes (file : list byte) (off n : Z) : list byte :=
  if off <? 0 then [] else firstn (Z.to_nat n) (from file off).

(** What one round of the page loop does with its state. *)
Inductive pageStep : Type :=
| Break
| Next (rbuf : bufio) (values : list value) (totalValuesRead : Z).

(** Lines 586 to 591: the count and the encoding a page is read under. *)
Definition pageNumValues (md : ColumnMetaData) (h : pageHeader) : Z :=
  if numValues h =? 0 then NumValues md else numValues h.

Definition pageEncoding (md : ColumnMetaData) (h : pageHeader) : Z :=
  if (encoding h =? 0) && (0 <? len (Encodings md))
  then hd 0 (Encodings md) else encoding h.

(** Lines 609 to 612: the decompressed body, or the body as read when
    decompression fails. *)
Definition pageBytes (md : ColumnMetaData) (h : pageHeader)
    (compressedData : list byte) : list byte :=
  match decompressData compressedData (Codec md) (uncompressedSize h) with
  | (d, None) => d
  | (_, Some _) => compressedData
  end.

(** Lines 614 to 619. *)
Definition maxDefinitionLevelOf (schema : SchemaElement) : Z :=
  if repetitionIs (RepetitionType schema) 0 then 1
  else if repetitionIs (RepetitionType schema) 1 then 1
  else 0.

(** The round from the decoded header on (lines 586 to 626). *)
Definition readPage (md : ColumnMetaData) (schema : SchemaElement)
    (h : pageHeader) (rbuf : bufio) (values : list value)
    (totalValuesRead : Z) : outcome pageStep :=
  let numValues := pageNumValues md h in
  let encoding := pageEncoding md h in
  let actualCompressedSize := compressedSize h in
  if actualCompressedSize <=? 0 then Returns Break
  else
    let compressedData := firstn (Z.to_nat actualCompressedSize) rbuf in
    let rbuf := skipn (Z.to_nat actualCompressedSize) rbuf in
    if pageType h =? 0 then
      let pageData := pageBytes md h compressedData in
      let maxDefinitionLevel := maxDefinitionLevelOf schema in
      ' (pageValues, err) <-
          parseDataPageWithEncoding pageData (SType schema) encoding numValues
            (RepetitionType schema) maxDefinitionLevel ;;
      match err with
      | None =>
          if 0 <? len pageValues
          then Returns (Next rbuf (values ++ pageValues)
                          (totalValuesRead + len pageValues))
          else Returns (Next rbuf values totalValuesRead)
      | Some _ => Returns (Next rbuf values totalValuesRead)
      end
    else Returns (Next rbuf values totalValuesRead).

(** One round: discover the header, interpret it, read the page. *)
Definition readRound (md : ColumnMetaData) (schema : SchemaElement)
    (rbuf : bufio) (values : list value) (totalValuesRead : Z)
    : outcome pageStep :=
  ' (headerStruct, _, err, rbuf) <- parseCompactStructFromBufio rbuf (64 * 1024) ;;
  match err, headerStruct with
  | None, Some headerStruct =>
      match decodePageHeader headerStruct with
      | inr _ => Returns Break
      | inl h => readPage md schema h rbuf values totalValuesRead
      end
  | _, _ => Returns Break
  end.

(** [for pagesRead < maxPages && totalValuesRead < int(NumValues)]:
    [pagesLeft] is [maxPages - pagesRead]. *)
Fixpoint pageLoop (pagesLeft : nat) (md : ColumnMetaData)
    (schema : SchemaElement) (rbuf : bufio) (values : list value)
    (totalValuesRead : Z) : outcome (list value) :=
  match pagesLeft with
  | O => Returns values
  | S pagesLeft' =>
      if totalValuesRead <? NumValues md then
        step <- readRound md schema rbuf values totalValuesRead ;;
        match step with
        | Break => Returns values
        | Next rbuf values totalValuesRead =>
            if NumValues md <=? totalValuesRead then Returns values
            else pageLoop pagesLeft' md schema rbuf values totalValuesRead
        end
      else Returns values
  end.

Definition maxPages : nat := 100.

Definition readColumnValues (file : list byte) (chunk : ColumnChunk)
    (schema : SchemaElement) : outcome (list value * option error) :=
  match MetaData chunk with
  | None => Returns ([], Some ErrNoMetadata)
  | Some md =>
      let pageStartOffset :=
        match DictionaryPageOffset md with
        | Some d => if negb (d =? 0) then d else DataPageOffset md
        | None => DataPageOffset md
        end in
      let section := sectionBytes file pageStartOffset (TotalCompressedSize md) in
      values <- pageLoop maxPages md schema section [] 0 ;;
      Returns (values, None)
  end.

End ColumnPageReader.

(** ** Notions of the specification, to compare the code with *)

(** Zigzag decoding in the words of the specification:
    [(u >> 1) XOR -(u & 1)]. *)
Definition zigzag (u : Z) : Z := Z.lxor (Z.shiftr u 1) (- (Z.land u 1)).

(** Zigzag encoding of a 64-bit signed value, as an unsigned one. *)
Definition zigzag_encode (v : Z) : Z :=
  uint64 (Z.lxor (Z.shiftl v 1) (Z.shiftr v 63)).

(** A varint byte with bit 7 set is followed by another. *)
Definition continues (b : byte) : bool := negb (Z.land (b2z b) 128 =? 0).

(** The number a base-128 little-endian varint writes, with no bound on its
    size: group [k] weighs [2 ^ (7 k)]. *)
Fixpoint varint_value_from (k : Z) (bytes : list byte) : Z :=
  match bytes with
  | [] => 0
  | b :: bytes' =>
      Z.shiftl (Z.land (b2z b) 127) (7 * k) + varint_value_from (k + 1) bytes'
  end.

Definition varint_value (bytes : list byte) : Z := varint_value_from 0 bytes.

(** The wire types under which each mapper reads a field id, after the
    accessor its [case] calls ([thriftI32]: 5, [thriftI64]: 6,
    [thriftString]: 8, [thriftList]: 9 or 10, [thriftStruct]: 12); no entry
    for an id the [switch] does not list. *)
Definition expectedFileMetaData (id : Z) : list Z :=
  match id with
  | 1 => [5]
  | 2 | 4 => [9; 10]
  | 3 => [6]
  | _ => []
  end.

Definition expectedSchemaElement (id : Z) : list Z :=
  match id with
  | 1 | 2 | 3 | 5 | 6 | 7 | 8 | 9 => [5]
  | 4 => [8]
  | _ => []
  end.

Definition expectedRowGroup (id : Z) : list Z :=
  match id with
  | 1 => [9; 10]
  | 2 | 3 | 5 | 6 => [6]
  | _ => []
  end.

Definition expectedColumnChunk (id : Z) : list Z :=
  match id with
  | 1 => [8]
  | 2 => [6]
  | 3 => [12]
  | _ => []
  end.

Definition expectedColumnMetaData (id : Z) : list Z :=
  match id with
  | 1 | 4 => [5]
  | 2 | 3 => [9; 10]
  | 5 | 6 | 7 | 9 | 11 => [6]
  | _ => []
  end.

(** What the parser sets in a value of wire type [t]: nothing outside the
    entry of [t]. *)
Definition payloadOf (t : Z) (v : CompactValue) : Prop :=
  (t <> 5 -> I32Value v = None)
  /\ (t <> 6 -> I64Value v = None)
  /\ (t <> 8 -> BinaryValue v = None)
  /\ (t <> 9 -> ListValue v = None)
  /\ (t <> 10 -> SetValue v = None)
  /\ (t <> 12 -> StructValue v = None).

(** The data page header (field 5) of a page header struct has no field of
    id [k]. *)
Definition dataPageHeaderLacks (st : CompactStruct) (k : Z) : Prop :=
  forall fields f dphSt dFields df,
    thriftFields st = (fields, None) -> In f fields -> ID f = 5 ->
    thriftStruct (Val f) = Some dphSt ->
    thriftFields dphSt = (dFields, None) -> In df dFields ->
    ID df <> k.

(** A header's [numValues] is a 32-bit count. *)
Definition declaresInt32 (h : pageHeader) : Prop :=
  - 2 ^ 31 <= numValues h < 2 ^ 31.

(** The most a page can add: its own declared count, the chunk's when it
    declares none, one value at the least. *)
Definition pageBound (md : ColumnMetaData) : Z := Z.max (NumValues md) (2 ^ 31 - 1).

(** The shape the loop keeps: all but the values of the last page that
    added any are fewer than the chunk declares. *)
Definition lastPageOnly (md : ColumnMetaData) (values : list value) : Prop :=
  exists before last,
    values = before ++ last
    /\ len before < Z.max 1 (NumValues md)
    /\ len last <= pageBound md.

(** A parser [keeps] the input when what it leaves is no longer than what it
    got, and [shrinks] it when it reads a byte at least. *)
Definition keeps {A : Type} (item : list byte -> parsed A) : Prop :=
  forall s a rest, item s = POk a rest -> (length rest <= length s)%nat.

Definition shrinks {A : Type} (item : list byte -> parsed A) : Prop :=
  forall s a rest, item s = POk a rest -> (length rest < length s)%nat.

(** What the five recursive parsers do to the length of the input, and the
    budget under which each stays clear of [PDeep]. *)
Definition parserLengths (fuel : nat) : Prop :=
  (forall t, keeps (parse_compact_value fuel t))
  /\ shrinks (parse_compact_list fuel)
  /\ shrinks (parse_compact_map fuel)
  /\ shrinks (parse_compact_struct fuel)
  /\ shrinks (parse_compact_field fuel).

Definition parserDepth (fuel : nat) : Prop :=
  (forall t s, (3 * length s + 3 <= fuel)%nat ->
               parse_compact_value fuel t s <> PDeep)
  /\ (forall s, (3 * length s + 1 <= fuel)%nat -> parse_compact_list fuel s <> PDeep)
  /\ (forall s, (3 * length s + 1 <= fuel)%nat -> parse_compact_map fuel s <> PDeep)
  /\ (forall s, (3 * length s + 2 <= fuel)%nat ->
                parse_compact_struct fuel s <> PDeep)
  /\ (forall s, (3 * length s + 1 <= fuel)%nat ->
                parse_compact_field fuel s <> PDeep).

(** Defaults for positions past the end of a list, and the struct and the
    field a byte string parses to, for the examples. *)
Definition stopField : CompactField := mkCompactField 0 None None.
Definition zeroField : thriftField := mkThriftField 0 0 None.

Definition parsedStruct (b : list byte) : CompactStruct :=
  match parseCompactStructFromBytes b with
  | Returns (Some st, _, _) => st
  | _ => mkCompactStruct []
  end.

(** A build without the Snappy codec, for the examples. *)
Definition noSnappy (_ : list byte) : option (list byte) := None.

(** Pages for the examples: a header, then the body it announces.
    [header3]: DATA_PAGE, 12 bytes, 3 values, PLAIN.  [header2]: DATA_PAGE,
    8 bytes, 2 values, PLAIN.  [headerBare]: DATA_PAGE, 12 bytes, an empty
    data page header.  [headerMinus]: DATA_PAGE, 8 bytes, -1 values, PLAIN.
    [headerDelta]: DATA_PAGE, 3 bytes, 2 values, DELTA_BINARY_PACKED, a body
    too short for that decoder. *)
Definition header3 : list byte :=
  [x15; x00; x15; x18; x15; x18; x2c; x15; x06; x15; x00; x00; x00].
Definition body3 : list byte :=
  [x01; x00; x00; x00; x02; x00; x00; x00; x03; x00; x00; x00].
Definition header2 : list byte :=
  [x15; x00; x15; x10; x15; x10; x2c; x15; x04; x15; x00; x00; x00].
Definition body2 : list byte := [x07; x00; x00; x00; x09; x00; x00; x00].
Definition headerBare : list byte :=
  [x15; x00; x15; x18; x15; x18; x2c; x00; x00].
Definition headerMinus : list byte :=
  [x15; x00; x15; x10; x15; x10; x2c; x15; x01; x15; x00; x00; x00].
Definition headerDelta : list byte :=
  [x15; x00; x15; x06; x15; x06; x2c; x15; x04; x15; x0a; x00; x00].
Definition bodyDelta : list byte := [x00; x00; x00].

(** An INT32 column with no repetition type, and a chunk of it at offset 0. *)
Definition int32Column : SchemaElement :=
  mkSchemaElement 1 None None [] None None None None None.

Definition int32Meta (codec numValues size : Z) : ColumnMetaData :=
  mkColumnMetaData 1 [] [] codec numValues size size 0 None.

Definition int32Chunk (codec numValues size : Z) : ColumnChunk :=
  mkColumnChunk [] 0 (Some (int32Meta codec numValues size)).

Definition parsedField (b : list byte) : CompactField :=
  match parse_compact_field (S (length b)) b with
  | POk cf _ => cf
  | _ => stopField
  end.

(** ** Encoders, the inverses the round trips are stated with *)

(** What Go's [binary.PutUvarint] writes: seven bits a byte, the low groups
    first, bit 7 set on every byte but the last.  Nine continuation bytes are
    enough below [2 ^ 64]. *)
Fixpoint putUvarintLoop (fuel : nat) (x : Z) : list byte :=
  match fuel with
  | O => [z2b x]
  | S fuel' =>
      if x <? 128 then [z2b x]
      else z2b (x mod 128 + 128) :: putUvarintLoop fuel' (x / 128)
  end.

Definition putUvarint (x : Z) : list byte := putUvarintLoop 9 x.

(** A signed value as Thrift and Parquet write it: the varint of its zigzag
    encoding. *)
Definition putVarint (v : Z) : list byte := putUvarint (zigzag_encode v).

(** What [binary.LittleEndian.PutUint32] and [PutUint64] write: [n] bytes,
    the low byte first. *)
Fixpoint putLE (n : nat) (z : Z) : list byte :=
  match n with
  | O => []
  | S n' => z2b z :: putLE n' (z / 256)
  end.

(** The PLAIN encoding of a value, and the type id it is stored under. *)
Definition putPlain (v : value) : list byte :=
  match v with
  | VInt32 v => putLE 4 (wrap 32 v)
  | VInt64 v => putLE 8 (wrap 64 v)
  | VFloat32 bits => putLE 4 bits
  | VFloat64 bits => putLE 8 bits
  | VString s => putLE 4 (len s) ++ s
  end.

Definition plainType (v : value) : Z :=
  match v with
  | VInt32 _ => 1
  | VInt64 _ => 2
  | VFloat32 _ => 4
  | VFloat64 _ => 5
  | VString _ => 6
  end.

(** The values a column of type id [t] can hold. *)
Definition storable (t : Z) (v : value) : Prop :=
  plainType v = t
  /\ match v with
     | VInt32 v => - 2 ^ 31 <= v < 2 ^ 31
     | VInt64 v => - 2 ^ 63 <= v < 2 ^ 63
     | VFloat32 bits => 0 <= bits < 2 ^ 32
     | VFloat64 bits => 0 <= bits < 2 ^ 64
     | VString s => len s < 2 ^ 32
     end.

Definition putPlainValues (vs : list value) : list byte :=
  concat (map putPlain vs).

(** The type ids the [switch] of the PLAIN decoder lists. *)
Definition plainSupported (t : Z) : bool :=
  (t =? 1) || (t =? 2) || (t =? 4) || (t =? 5) || (t =? 6).

(** The width of a value of a fixed-width type id. *)
Definition plainWidth (t : Z) : Z := if (t =? 1) || (t =? 4) then 4 else 8.

(** A run of the RLE/bit-packed hybrid at a bit width from 1 to 8: the
    varint of the count shifted left once, then the value. *)
Definition putRun (run : Z * byte) : list byte :=
  putUvarint (2 * fst run) ++ [snd run].

Definition putRuns (runs : list (Z * byte)) : list byte :=
  concat (map putRun runs).

(** The values the runs stand for. *)
Definition expandRuns (runs : list (Z * byte)) : list byte :=
  concat (map (fun run => repeat (snd run) (Z.to_nat (fst run))) runs).

(** The level section of a page: the length of the encoded levels in four
    bytes, then the levels. *)
Definition putLevels (encoded : list byte) : list byte :=
  putLE 4 (len encoded) ++ encoded.

(** The value one round of [decodeBitPackedBytes] extracts at position [i]. *)
Definition bitPackedValue (src : list byte) (bitWidth i : Z) : Z :=
  let byteIndex := (i * bitWidth) / 8 in
  let bitIndex := (i * bitWidth) mod 8 in
  let bitsRemaining := bitWidth in
  let bitsToRead := if 8 - bitIndex <? bitsRemaining then 8 - bitIndex
                    else bitsRemaining in
  let mask := uint8 (Z.shiftl 1 bitsToRead - 1) in
  let value := Z.land (Z.shiftr (b2z (index src byteIndex)) bitIndex) mask in
  let bitsRemaining := bitsRemaining - bitsToRead in
  if (0 <? bitsRemaining) && (byteIndex + 1 <? len src) then
    Z.lor value
      (uint8 (Z.shiftl
                (Z.land (b2z (index src (byteIndex + 1)))
                        (uint8 (Z.shiftl 1 bitsRemaining - 1)))
                bitsToRead))
  else value.

(** The bytes of a block as one number, the first byte lowest. *)
Definition streamValue (src : list byte) : Z := le_uint (length src) src.





(** What the parser can give: a value, a field or a struct is [produced]
    when some input parses to it. *)
Definition producedValue (v : CompactValue) : Prop :=
  exists fuel t s rest, parse_compact_value fuel t s = POk v rest.

Definition producedField (f : CompactField) : Prop :=
  exists fuel s rest, parse_compact_field fuel s = POk f rest.

Definition producedStruct (st : CompactStruct) : Prop :=
  exists fuel s rest, parse_compact_struct fuel s = POk st rest.

(** A footer for the examples: version 1, a schema of the root and one
    INT32 column [c], 3 rows, no row group. *)
Definition footerExample : list byte :=
  [x15; x02; x19; x2c; x48; x01; x72; x00; x15; x02; x38; x01; x63; x00;
   x16; x06; x19; x0c; x00].

(** A logical field whose value, if any, is one the parser gave. *)
Definition producedThriftField (f : thriftField) : Prop :=
  forall v, Val f = Some v -> producedValue v.

(** [item'] gives what [item] gives wherever [item] stays within its depth
    budget. *)
Definition refines {A : Type} (item item' : list byte -> parsed A) : Prop :=
  forall s, item s <> PDeep -> item' s = item s.

(** A larger budget changes no result. *)
Definition parserMono (fuel : nat) : Prop :=
  forall fuel', (fuel <= fuel')%nat ->
    (forall t, refines (parse_compact_value fuel t) (parse_compact_value fuel' t))
    /\ refines (parse_compact_list fuel) (parse_compact_list fuel')
    /\ refines (parse_compact_map fuel) (parse_compact_map fuel')
    /\ refines (parse_compact_struct fuel) (parse_compact_struct fuel')
    /\ refines (parse_compact_field fuel) (parse_compact_field fuel').

(** A parser [extends] when bytes added behind the input change nothing in
    what it reads. *)
Definition extends {A : Type} (item : list byte -> parsed A) : Prop :=
  forall s a rest more,
    item s = POk a rest -> item (s ++ more) = POk a (rest ++ more).

Definition parserExtends (fuel : nat) : Prop :=
  (forall t, extends (parse_compact_value fuel t))
  /\ extends (parse_compact_list fuel)
  /\ extends (parse_compact_map fuel)
  /\ extends (parse_compact_struct fuel)
  /\ extends (parse_compact_field fuel).

(** The values and fields of a struct of [i32] fields and one struct. *)
Definition i32Value (z : VarintZ) : CompactValue :=
  mkCompactValue 5 None None (Some z) None None None None None None None.

Definition structValue (st : CompactStruct) : CompactValue :=
  mkCompactValue 12 None None None None None None None None None (Some st).

Definition shortField (header : Z) (v : CompactValue) : CompactField :=
  mkCompactField header None (Some v).

(** A page header as a Parquet writer lays it out: the Thrift struct with
    fields 1 to 3 and, as field 5, the data page header with fields 1 and
    2, every field in the short form. *)
Definition putDataPageHeader (numValues encoding : Z) : list byte :=
  x15 :: putVarint numValues ++ x15 :: putVarint encoding ++ [x00].

Definition putPageHeader (h : pageHeader) : list byte :=
  x15 :: putVarint (pageType h)
  ++ x15 :: putVarint (uncompressedSize h)
  ++ x15 :: putVarint (compressedSize h)
  ++ x2c :: putDataPageHeader (numValues h) (encoding h) ++ [x00].

(** The tree such a header parses to. *)
Definition dataPageHeaderTree (numValues encoding : Z) : CompactStruct :=
  mkCompactStruct
    [shortField 21 (i32Value (mkVarintZ (putVarint numValues)));
     shortField 21 (i32Value (mkVarintZ (putVarint encoding)));
     stopField].

Definition pageHeaderTree (h : pageHeader) : CompactStruct :=
  mkCompactStruct
    [shortField 21 (i32Value (mkVarintZ (putVarint (pageType h))));
     shortField 21 (i32Value (mkVarintZ (putVarint (uncompressedSize h))));
     shortField 21 (i32Value (mkVarintZ (putVarint (compressedSize h))));
     shortField 44 (structValue
                      (dataPageHeaderTree (numValues h) (encoding h)));
     stopField].

(** A header whose five numbers are 32-bit. *)
Definition int32Header (h : pageHeader) : Prop :=
  - 2 ^ 31 <= pageType h < 2 ^ 31
  /\ - 2 ^ 31 <= uncompressedSize h < 2 ^ 31
  /\ - 2 ^ 31 <= compressedSize h < 2 ^ 31
  /\ - 2 ^ 31 <= numValues h < 2 ^ 31
  /\ - 2 ^ 31 <= encoding h < 2 ^ 31.

(** A data page of PLAIN values with no levels: the header, then the
    values. *)
Definition plainPageHeader (vs : list value) : pageHeader :=
  mkPageHeader 0 (len (putPlainValues vs)) (len (putPlainValues vs)) (len vs) 0.

Definition plainPage (vs : list value) : list byte :=
  putPageHeader (plainPageHeader vs) ++ putPlainValues vs.

(** An uncompressed chunk of [numValues] values of type [t] in [size] bytes
    at [offset], and a column of type [t] with no repetition type. *)
Definition plainChunk (t numValues size offset : Z) : ColumnChunk :=
  mkColumnChunk [] 0
    (Some (mkColumnMetaData t [] [] 0 numValues size size offset None)).

Definition plainColumn (t : Z) : SchemaElement :=
  mkSchemaElement t None None [] None None None None None.

(** The pages a chunk is made of: each holds a value at least, of the type
    of the column, in fewer than [2 ^ 31] bytes. *)
Definition plainPages (t : Z) (vss : list (list value)) : Prop :=
  Forall (fun vs => Forall (storable t) vs /\ vs <> []
                    /\ len (putPlainValues vs) < 2 ^ 31) vss.

(** A data page of an OPTIONAL column: the definition levels as RLE runs,
    then the values that are present. *)
Definition putOptionalPage (runs : list (Z * byte)) (vs : list value)
    : list byte :=
  putLevels (putRuns runs) ++ putPlainValues vs.

(** Runs of definition levels 0 and 1. *)
Definition levelRuns (runs : list (Z * byte)) : Prop :=
  Forall (fun run => 0 <= fst run <= maxSupportedValueCount
                     /\ b2z (snd run) <= 1) runs.

(* ================================================================== *)
(** * Part II.  Properties                                             *)
(* ================================================================== *)

(** ** Small facts about slices and outcomes *)

Lemma len_nonneg : forall (A : Type) (l : list A), 0 <= len l.
Proof. intros A l. unfold len. lia. Qed.

Lemma len_app : forall (A : Type) (l l' : list A), len (l ++ l') = len l + len l'.
Proof. intros A l l'. unfold len. rewrite length_app. lia. Qed.

Lemma len_nil : forall (A : Type), len (@nil A) = 0.
Proof. reflexivity. Qed.

Lemma len_one : forall (A : Type) (a : A), len [a] = 1.
Proof. reflexivity. Qed.

Lemma bindO_returns :
  forall (A B : Type) (m : outcome A) (k : A -> outcome B) (b : B),
    bindO m k = Returns b -> exists a, m = Returns a /\ k a = Returns b.
Proof.
  intros A B m k b H. destruct m as [a|]; simpl in H.
  - exists a. split; [reflexivity | exact H].
  - discriminate H.
Qed.

(** ** The PLAIN decoder *)

(** A round of the PLAIN loop adds at most one value. *)
Lemma plainStep_grows :
  forall data dataType offset values offset' values',
    plainStep data dataType offset values = inl (offset', values') ->
    len values' <= len values + 1.
Proof.
  intros data dataType offset values offset' values' H.
  unfold plainStep in H.
  repeat match type of H with
         | (if ?c then _ else _) = _ => destruct c
         end;
    inversion H; subst; rewrite ?len_app, ?len_one; lia.
Qed.

Lemma plainLoop_length :
  forall data dataType n offset values,
    len (fst (plainLoop data dataType n offset values))
    <= len values + Z.of_nat n.
Proof.
  intros data dataType n. induction n as [|n IH]; intros offset values.
  - simpl. lia.
  - cbn [plainLoop]. destruct (offset <? len data); [|simpl; lia].
    destruct (plainStep data dataType offset values) as [[offset' values']|values'] eqn:Hs.
    + apply plainStep_grows in Hs. specialize (IH offset' values'). lia.
    + unfold plainStep in Hs.
      repeat match type of Hs with
             | (if ?c then _ else _) = _ => destruct c
             end; inversion Hs; subst; simpl; lia.
Qed.

(** The PLAIN decoder knows one error. *)
Lemma plainLoop_error :
  forall data dataType n offset values vs e,
    plainLoop data dataType n offset values = (vs, Some e) ->
    e = ErrUnsupportedType.
Proof.
  intros data dataType n. induction n as [|n IH]; intros offset values vs e H.
  - discriminate H.
  - cbn [plainLoop] in H. destruct (offset <? len data); [|discriminate H].
    destruct (plainStep data dataType offset values) as [[offset' values']|values'].
    + eapply IH. exact H.
    + inversion H. reflexivity.
Qed.

Lemma decodePlainValues_length :
  forall data dataType numValues,
    len (fst (decodePlainValues data dataType numValues)) <= Z.max 0 numValues.
Proof.
  intros data dataType numValues. unfold decodePlainValues.
  pose proof (plainLoop_length data dataType (Z.to_nat numValues) 0 []) as H.
  rewrite len_nil in H. lia.
Qed.

(** ** C1: encodings other than DELTA_BINARY_PACKED *)

Lemma decodeValues_default :
  forall pageData dataType encoding numValues,
    encoding <> 5 ->
    decodeValues pageData dataType encoding numValues
    = Returns (decodePlainValues pageData dataType numValues).
Proof.
  intros pageData dataType encoding numValues H. unfold decodeValues.
  destruct (encoding =? 0); [reflexivity|].
  destruct (encoding =? 5) eqn:E; [|reflexivity].
  apply Z.eqb_eq in E. contradiction.
Qed.

(** C1, as stated, fails: a page marked BYTE_STREAM_SPLIT (8), or
    RLE_DICTIONARY (7), holding one little-endian INT32 decodes to that value
    with no error. *)
Lemma C1_unsupported_encoding_yields_values :
  8 <> 0 /\ 8 <> 5 /\
  parseDataPageWithEncoding [x01; x00; x00; x00] 1 8 1 None 0
  = Returns ([VInt32 1], None) /\
  parseDataPageWithEncoding [x2a; x00; x00; x00] 1 7 1 None 0
  = Returns ([VInt32 42], None).
Proof.
  split; [discriminate|]. split; [discriminate|].
  split; vm_compute; reflexivity.
Qed.

(** C1, amended: a data page whose encoding is not DELTA_BINARY_PACKED (5)
    is decoded exactly as a PLAIN page is, whatever the encoding says; such a
    page fails only with the PLAIN decoder's unsupported-type error. *)
Theorem C1_other_encodings_decode_as_plain :
  forall data dataType encoding numValues repetitionType maxDefinitionLevel,
    encoding <> 5 ->
    parseDataPageWithEncoding data dataType encoding numValues
      repetitionType maxDefinitionLevel
    = parseDataPageWithEncoding data dataType 0 numValues
        repetitionType maxDefinitionLevel
    /\ (forall vs e,
          parseDataPageWithEncoding data dataType encoding numValues
            repetitionType maxDefinitionLevel = Returns (vs, Some e) ->
          e = ErrUnsupportedType).
Proof.
  intros data dataType encoding numValues repetitionType maxDefinitionLevel Henc.
  unfold parseDataPageWithEncoding.
  split.
  - destruct (stripLevels data numValues repetitionType maxDefinitionLevel)
      as [pageData|]; simpl; [|reflexivity].
    rewrite decodeValues_default by exact Henc.
    rewrite decodeValues_default by discriminate. reflexivity.
  - intros vs e H. apply bindO_returns in H. destruct H as [pageData [_ H]].
    rewrite decodeValues_default in H by exact Henc.
    inversion H as [H']. unfold decodePlainValues in H'.
    eapply plainLoop_error. exact H'.
Qed.

Lemma C1_other_encodings_decode_as_plain_witness :
  parseDataPageWithEncoding [x01; x00; x00; x00] 1 8 1 None 0
  = parseDataPageWithEncoding [x01; x00; x00; x00] 1 0 1 None 0
  /\ (forall vs e,
        parseDataPageWithEncoding [x01; x00; x00; x00] 1 8 1 None 0
        = Returns (vs, Some e) ->
        e = ErrUnsupportedType).
Proof.
  apply (C1_other_encodings_decode_as_plain [x01; x00; x00; x00] 1 8 1 None 0).
  discriminate.
Defined.

(** ** Machine integers *)

Lemma swrap_small :
  forall w z, 0 < w -> - 2 ^ (w - 1) <= z < 2 ^ (w - 1) -> swrap w z = z.
Proof.
  intros w z Hw Hz. unfold swrap.
  assert (E : 2 ^ w = 2 * 2 ^ (w - 1)).
  { replace w with (Z.succ (w - 1)) at 1 by lia. apply Z.pow_succ_r. lia. }
  rewrite Z.mod_small by lia. lia.
Qed.

Lemma int64_small : forall z, - 2 ^ 63 <= z < 2 ^ 63 -> int64 z = z.
Proof. intros z H. apply swrap_small; [lia | exact H]. Qed.

Lemma int16_small : forall z, - 2 ^ 15 <= z < 2 ^ 15 -> int16 z = z.
Proof. intros z H. apply swrap_small; [lia | exact H]. Qed.

Lemma swrap_range :
  forall w z, 0 < w -> - 2 ^ (w - 1) <= swrap w z < 2 ^ (w - 1).
Proof.
  intros w z Hw. unfold swrap.
  assert (E : 2 ^ w = 2 * 2 ^ (w - 1)).
  { replace w with (Z.succ (w - 1)) at 1 by lia. apply Z.pow_succ_r. lia. }
  assert (P : 0 < 2 ^ (w - 1)) by (apply Z.pow_pos_nonneg; lia).
  pose proof (Z.mod_pos_bound (z + 2 ^ (w - 1)) (2 ^ w)) as B. lia.
Qed.

Lemma uint64_range : forall z, 0 <= uint64 z < 2 ^ 64.
Proof. intros z. unfold uint64, wrap. apply Z.mod_pos_bound. lia. Qed.

Lemma lor_range :
  forall n a b, 0 <= n -> 0 <= a < 2 ^ n -> 0 <= b < 2 ^ n ->
    0 <= Z.lor a b < 2 ^ n.
Proof.
  intros n a b Hn Ha Hb. split.
  - apply Z.lor_nonneg. lia.
  - destruct (Z.eq_dec (Z.lor a b) 0) as [E|E].
    + rewrite E. apply Z.pow_pos_nonneg; lia.
    + assert (Hpos : 0 < Z.lor a b).
      { assert (0 <= Z.lor a b) by (apply Z.lor_nonneg; lia). lia. }
      apply Z.log2_lt_pow2; [exact Hpos|].
      rewrite Z.log2_lor by lia.
      destruct (Z.eq_dec a 0) as [Ea|Ea]; destruct (Z.eq_dec b 0) as [Eb|Eb];
        subst; try (rewrite Z.lor_0_l in E || rewrite Z.lor_0_r in E);
        try contradiction.
      * simpl (Z.log2 0). rewrite Z.max_r by apply Z.log2_nonneg.
        apply Z.log2_lt_pow2; lia.
      * simpl (Z.log2 0). rewrite Z.max_l by apply Z.log2_nonneg.
        apply Z.log2_lt_pow2; lia.
      * apply Z.max_lub_lt; apply Z.log2_lt_pow2; lia.
Qed.

(** ** Zigzag *)

(** The specification's formula, case by case on the low bit. *)
Lemma zigzag_cases :
  forall u, zigzag u = if Z.odd u then - (u / 2) - 1 else u / 2.
Proof.
  intros u. unfold zigzag.
  rewrite Z.shiftr_div_pow2 by lia. change (2 ^ 1) with 2.
  change 1 with (Z.ones 1) at 1. rewrite Z.land_ones by lia.
  change (2 ^ 1) with 2. rewrite Zmod_odd.
  destruct (Z.odd u).
  - change (- 1) with (-1). rewrite Z.lxor_m1_r. unfold Z.lnot. lia.
  - apply Z.lxor_0_r.
Qed.

(** The formula inverts the encoding on every 64-bit value, and a value
    that is not negative is encoded as an even number. *)
Lemma zigzag_encode_cases :
  forall v, - 2 ^ 63 <= v < 2 ^ 63 ->
    zigzag_encode v = if v <? 0 then - 2 * v - 1 else 2 * v.
Proof.
  intros v Hv. unfold zigzag_encode, uint64, wrap.
  rewrite Z.shiftl_mul_pow2 by lia. rewrite Z.shiftr_div_pow2 by lia.
  change (2 ^ 1) with 2.
  destruct (v <? 0) eqn:E.
  - apply Z.ltb_lt in E.
    assert (Hd : v / 2 ^ 63 = -1).
    { symmetry. apply (Z.div_unique v (2 ^ 63) (-1) (v + 2 ^ 63)); lia. }
    rewrite Hd. rewrite Z.lxor_m1_r. unfold Z.lnot.
    rewrite Z.mod_small by lia. lia.
  - apply Z.ltb_ge in E. rewrite Z.div_small by lia.
    rewrite Z.lxor_0_r. rewrite Z.mod_small by lia. lia.
Qed.

Lemma zigzag_round_trip :
  forall v, - 2 ^ 63 <= v < 2 ^ 63 -> zigzag (zigzag_encode v) = v.
Proof.
  intros v Hv. rewrite zigzag_encode_cases by exact Hv. rewrite zigzag_cases.
  destruct (v <? 0) eqn:E.
  - apply Z.ltb_lt in E.
    replace (- 2 * v - 1) with (1 + 2 * (- v - 1)) by lia.
    rewrite Z.odd_add_mul_2. cbn [Z.odd].
    replace (1 + 2 * (- v - 1)) with ((- v - 1) * 2 + 1) by lia.
    rewrite Z.div_add_l by lia. change (1 / 2) with 0. lia.
  - replace (2 * v) with (0 + 2 * v) by lia.
    rewrite Z.odd_add_mul_2. cbn [Z.odd].
    replace (0 + 2 * v) with (v * 2) by lia.
    apply Z.div_mul. lia.
Qed.

Lemma zigzag_encode_even :
  forall v, 0 <= v < 2 ^ 63 -> Z.even (zigzag_encode v) = true.
Proof.
  intros v Hv. rewrite zigzag_encode_cases by lia.
  assert (E : (v <? 0) = false) by (apply Z.ltb_ge; lia).
  rewrite E. apply Z.even_mul.
Qed.

(** [varint_z]'s [value] instance is that formula, on [value_u]. *)
Lemma VarintZ_Value_zigzag :
  forall v, VarintZ_Value v = zigzag (VarintZ_ValueU v).
Proof. intros v. unfold VarintZ_Value, zigzag. reflexivity. Qed.

Lemma varintLoop_range :
  forall rest offset result shift u off,
    0 <= result < 2 ^ 64 ->
    varintLoop rest offset result shift = inl (u, off) ->
    0 <= u < 2 ^ 64.
Proof.
  induction rest as [|b rest IH]; intros offset result shift u off Hr H.
  - discriminate H.
  - cbn [varintLoop] in H.
    assert (Hr' : 0 <= Z.lor result (uint64 (Z.shiftl (Z.land (b2z b) 127) shift))
                  < 2 ^ 64).
    { apply lor_range; [lia | exact Hr | apply uint64_range]. }
    destruct (Z.land (b2z b) 128 =? 0).
    + inversion H; subst. exact Hr'.
    + destruct (64 <=? shift + 7); [discriminate H|].
      eapply IH; [exact Hr' | exact H].
Qed.

(** What [readVarint] makes of the unsigned value [u] it has read: the
    magnitude [u / 2], negated when [u] is odd. *)
Lemma readVarint_value :
  forall r u off,
    varintLoop (from (data r) (offset r)) (offset r) 0 0 = inl (u, off) ->
    readVarint r
    = (if Z.odd u then - (u / 2) else u / 2, None, mkReader (data r) off).
Proof.
  intros r u off H. unfold readVarint. rewrite H.
  assert (Hu : 0 <= u < 2 ^ 64).
  { eapply varintLoop_range; [|exact H]. lia. }
  rewrite Z.shiftr_div_pow2 by lia. change (2 ^ 1) with 2.
  assert (Hh : 0 <= u / 2 < 2 ^ 63).
  { split; [apply Z.div_pos; lia|].
    apply Z.div_lt_upper_bound; [lia|]. change (2 * 2 ^ 63) with (2 ^ 64). lia. }
  rewrite (int64_small (u / 2)) by lia.
  change 1 with (Z.ones 1). rewrite Z.land_ones by lia.
  change (2 ^ 1) with 2. rewrite Zmod_odd.
  destruct (Z.odd u); simpl.
  - rewrite int64_small by lia. reflexivity.
  - reflexivity.
Qed.

(** So on every odd [u] the delta decoder is one above the zigzag value. *)
Lemma readVarint_odd_off_by_one :
  forall r u off,
    varintLoop (from (data r) (offset r)) (offset r) 0 0 = inl (u, off) ->
    Z.odd u = true ->
    fst (fst (readVarint r)) = zigzag u + 1.
Proof.
  intros r u off H Hodd. rewrite (readVarint_value r u off H).
  rewrite zigzag_cases, Hodd. simpl. lia.
Qed.

Lemma readVarint_even_zigzag :
  forall r u off,
    varintLoop (from (data r) (offset r)) (offset r) 0 0 = inl (u, off) ->
    Z.odd u = false ->
    fst (fst (readVarint r)) = zigzag u.
Proof.
  intros r u off H Hodd. rewrite (readVarint_value r u off H).
  rewrite zigzag_cases, Hodd. reflexivity.
Qed.

(** ** C5: zigzag in the two decoders *)

(** C5 at its failing input.  The byte [0x01] is the zigzag varint of [-1]
    ([u = 1]): [varint_z] of the compact decoder gives [-1], as the formula
    does, and [readVarint] of the delta decoder gives [0].  A delta page of
    first value [-1] and delta [-2] comes out as [0; -1] for [-1; -3]. *)
Theorem C5_readVarint_misses_zigzag :
  zigzag 1 = -1
  /\ zigzag_encode (-1) = 1
  /\ VarintZ_Value (mkVarintZ [x01]) = -1
  /\ readVarint (mkReader [x01] 0) = (0, None, mkReader [x01] 1)
  /\ decodeDeltaBinaryPacked [x00; x00; x01; x01; x03; x00] 2 2
     = Returns ([VInt64 0; VInt64 (-1)], None).
Proof.
  split; [reflexivity|]. split; [reflexivity|]. split; [reflexivity|].
  split.
  - rewrite (readVarint_value (mkReader [x01] 0) 1 1) by reflexivity.
    reflexivity.
  - vm_compute. reflexivity.
Qed.

(** ** C6: varints that overflow 64 bits *)

Lemma read_varint_bytes_accepts :
  forall pre last rest acc,
    Forall (fun b => continues b = true) pre ->
    continues last = false ->
    read_varint_bytes (pre ++ last :: rest) acc = POk (acc ++ pre ++ [last]) rest.
Proof.
  induction pre as [|b pre IH]; intros last rest acc Hpre Hlast.
  - simpl. unfold continues in Hlast. apply negb_false_iff in Hlast.
    rewrite Hlast. reflexivity.
  - inversion Hpre as [|b' pre' Hb Hpre']; subst.
    cbn [app read_varint_bytes]. unfold continues in Hb.
    apply negb_true_iff in Hb. rewrite Hb.
    rewrite IH by assumption. rewrite <- app_assoc. reflexivity.
Qed.

Lemma varintLoop_continue :
  forall b rest offset result shift,
    continues b = true ->
    varintLoop (b :: rest) offset result shift
    = if 64 <=? shift + 7 then inr ErrVarintTooLong
      else varintLoop rest (offset + 1)
             (Z.lor result (uint64 (Z.shiftl (Z.land (b2z b) 127) shift)))
             (shift + 7).
Proof.
  intros b rest offset result shift H. cbn [varintLoop].
  unfold continues in H. apply negb_true_iff in H. rewrite H. reflexivity.
Qed.

(** Ten bytes that all announce a successor are one too many. *)
Lemma varintLoop_too_long :
  forall ten tail offset,
    length ten = 10%nat ->
    Forall (fun b => continues b = true) ten ->
    varintLoop (ten ++ tail) offset 0 0 = inr ErrVarintTooLong.
Proof.
  intros ten tail offset Hlen Hall.
  do 10 (destruct ten as [|? ten]; [discriminate Hlen|]).
  destruct ten; [|discriminate Hlen].
  repeat match goal with
         | H : Forall _ (_ :: _) |- _ => inversion H; subst; clear H
         end.
  cbn [app].
  repeat (rewrite varintLoop_continue by assumption;
          match goal with
          | |- context [64 <=? ?s + 7] =>
              let v := eval vm_compute in (64 <=? s + 7) in
              change (64 <=? s + 7) with v; cbv iota
          end;
          repeat match goal with
                 | |- context [varintLoop _ _ _ (?s + 7)] =>
                     let v := eval vm_compute in (s + 7) in
                     change (s + 7) with v
                 end).
  reflexivity.
Qed.

Lemma group_inside :
  forall bytes k, 0 <= k < len bytes ->
    group bytes k
    = Z.shiftl (Z.land (b2z (nth (Z.to_nat k) bytes x00)) 127) (7 * k).
Proof.
  intros bytes k H. unfold group, index.
  destruct (k <? len bytes) eqn:E; [reflexivity|].
  apply Z.ltb_ge in E. lia.
Qed.

Lemma group_outside : forall bytes k, len bytes <= k -> group bytes k = 0.
Proof.
  intros bytes k H. unfold group.
  destruct (k <? len bytes) eqn:E; [|reflexivity].
  apply Z.ltb_lt in E. lia.
Qed.

(** [value_u] is the number written by the first ten bytes, cut to 64
    bits. *)
Lemma value_u_first_ten :
  forall bytes, value_u bytes = int64 (varint_value (firstn 10 bytes)).
Proof.
  intros bytes. unfold value_u, varint_value.
  do 10 (destruct bytes as [|? bytes];
         [ repeat first
             [ rewrite group_inside by (unfold len; cbn [length]; lia)
             | rewrite group_outside by (unfold len; cbn [length]; lia) ];
           simpl (nth _ _ _); cbn [firstn varint_value_from];
           repeat simpl (_ + 1); f_equal; lia | ]).
  repeat rewrite group_inside by (unfold len; cbn [length]; lia).
  simpl (nth _ _ _). cbn [firstn varint_value_from].
  repeat simpl (_ + 1). f_equal. lia.
Qed.

(** C6, as stated, fails.  Eleven bytes whose groups add up to more than
    64 bits parse as a [varint_u], with a [value_u] cut to 64 bits; and the
    ten bytes that write [2 ^ 64] make [readVarintUnsigned] return [0] with
    no error. *)
Lemma C6_overflow_goes_unreported :
  parse_varint_u [xff; xff; xff; xff; xff; xff; xff; xff; xff; xff; x01]
  = POk (mkVarintU [xff; xff; xff; xff; xff; xff; xff; xff; xff; xff; x01]) []
  /\ 2 ^ 64 <= varint_value [xff; xff; xff; xff; xff; xff; xff; xff; xff; xff; x01]
  /\ VarintU_ValueU
       (mkVarintU [xff; xff; xff; xff; xff; xff; xff; xff; xff; xff; x01]) = -1
  /\ varint_value [x80; x80; x80; x80; x80; x80; x80; x80; x80; x02] = 2 ^ 64
  /\ readVarintUnsigned
       (mkReader [x80; x80; x80; x80; x80; x80; x80; x80; x80; x02] 0)
     = (0, None, mkReader [x80; x80; x80; x80; x80; x80; x80; x80; x80; x02] 10).
Proof.
  split; [reflexivity|].
  split; [vm_compute; discriminate|].
  split; [vm_compute; reflexivity|].
  split; vm_compute; reflexivity.
Qed.

(** C6, amended.  In the delta decoder a varint whose tenth byte still
    announces a successor fails with "varint too long", in the header reads
    and in the value reads alike.  The compact decoder's [varint_u] has no
    such check: any run of continuation bytes closed by a final byte parses,
    and its [value_u] is the number written by the first ten bytes cut to 64
    bits. *)
Theorem C6_varint_length_is_checked_not_value :
  forall (d : list byte) (off : Z) (ten tail pre rest : list byte) (last : byte),
    from d off = ten ++ tail ->
    length ten = 10%nat ->
    Forall (fun b => continues b = true) ten ->
    Forall (fun b => continues b = true) pre ->
    continues last = false ->
    readVarintUnsigned (mkReader d off)
    = (0, Some ErrVarintTooLong, mkReader d off)
    /\ readVarint (mkReader d off) = (0, Some ErrVarintTooLong, mkReader d off)
    /\ parse_varint_u (pre ++ last :: rest) = POk (mkVarintU (pre ++ [last])) rest
    /\ VarintU_ValueU (mkVarintU (pre ++ [last]))
       = int64 (varint_value (firstn 10 (pre ++ [last]))).
Proof.
  intros d off ten tail pre rest last Hfrom Hlen Hten Hpre Hlast.
  assert (Hloop : varintLoop (from d off) off 0 0 = inr ErrVarintTooLong).
  { rewrite Hfrom. apply varintLoop_too_long; assumption. }
  split; [|split; [|split]].
  - unfold readVarintUnsigned. cbn [data offset]. rewrite Hloop. reflexivity.
  - unfold readVarint. cbn [data offset]. rewrite Hloop. reflexivity.
  - unfold parse_varint_u.
    rewrite read_varint_bytes_accepts by assumption. reflexivity.
  - unfold VarintU_ValueU. cbn [vu_bytes]. apply value_u_first_ten.
Qed.

Lemma C6_varint_length_is_checked_not_value_witness :
  readVarintUnsigned
    (mkReader [x80; x80; x80; x80; x80; x80; x80; x80; x80; x80; x01] 0)
  = (0, Some ErrVarintTooLong,
     mkReader [x80; x80; x80; x80; x80; x80; x80; x80; x80; x80; x01] 0)
  /\ readVarint
       (mkReader [x80; x80; x80; x80; x80; x80; x80; x80; x80; x80; x01] 0)
     = (0, Some ErrVarintTooLong,
        mkReader [x80; x80; x80; x80; x80; x80; x80; x80; x80; x80; x01] 0)
  /\ parse_varint_u ([xac] ++ x02 :: [x07])
     = POk (mkVarintU ([xac] ++ [x02])) [x07]
  /\ VarintU_ValueU (mkVarintU ([xac] ++ [x02]))
     = int64 (varint_value (firstn 10 ([xac] ++ [x02]))).
Proof.
  apply (C6_varint_length_is_checked_not_value
           [x80; x80; x80; x80; x80; x80; x80; x80; x80; x80; x01] 0
           [x80; x80; x80; x80; x80; x80; x80; x80; x80; x80] [x01]
           [xac] [x07] x02).
  - reflexivity.
  - reflexivity.
  - repeat constructor.
  - repeat constructor.
  - reflexivity.
Defined.

(** ** C7: field ids *)

Lemma nibble_range : forall x, 0 <= Z.land x 15 <= 15.
Proof.
  intros x. change 15 with (Z.ones 4) at 1 2.
  rewrite Z.land_ones by lia.
  pose proof (Z.mod_pos_bound x (2 ^ 4)) as H. change (2 ^ 4) with 16 in *. lia.
Qed.

Lemma FieldDeltaShort_range : forall f, 0 <= FieldDeltaShort f <= 15.
Proof. intros f. unfold FieldDeltaShort. apply nibble_range. Qed.

Lemma int16_range : forall z, - 2 ^ 15 <= int16 z < 2 ^ 15.
Proof. intros z. apply (swrap_range 16 z). lia. Qed.

(** The fields the loop adds, one by one: the [i]-th new field comes from
    the [i]-th header, and its id from the id before it. *)
Lemma thriftFieldsLoop_ids :
  forall fs prev out fields,
    thriftFieldsLoop fs prev out = (fields, None) ->
    exists new,
      fields = out ++ new /\
      forall i, (i < length new)%nat ->
        let cf := nth i fs stopField in
        let p := match i with O => prev | S j => ID (nth j new zeroField) end in
        let id := ID (nth i new zeroField) in
        IsStop cf = false
        /\ (FieldDeltaShort cf <> 0 -> id = int16 (p + FieldDeltaShort cf))
        /\ (FieldDeltaShort cf = 0 ->
            exists ext, ExtendedDelta cf = Some ext
                        /\ id = int16 (VarintZ_Value ext)).
Proof.
  induction fs as [|f fs IH]; intros prev out fields H.
  - inversion H; subst. exists []. split; [symmetry; apply app_nil_r|].
    intros i Hi. inversion Hi.
  - cbn [thriftFieldsLoop] in H. destruct (IsStop f) eqn:Hstop.
    + inversion H; subst. exists []. split; [symmetry; apply app_nil_r|].
      intros i Hi. inversion Hi.
    + destruct (HasExtendedDelta f) eqn:Hext.
      * destruct (ExtendedDelta f) as [ext|] eqn:Hdelta; [|discriminate H].
        apply IH in H. destruct H as [new [Hfields Hnew]].
        exists (mkThriftField (int16 (VarintZ_Value ext)) (uint8 (FieldType f))
                  (FieldValue f) :: new).
        split; [rewrite Hfields, <- app_assoc; reflexivity|].
        intros i Hi. destruct i as [|i].
        -- cbn [nth ID]. split; [exact Hstop|]. split.
           ++ intros Hne. unfold HasExtendedDelta in Hext.
              apply Z.eqb_eq in Hext. contradiction.
           ++ intros _. exists ext. split; [exact Hdelta | reflexivity].
        -- cbn [length] in Hi. apply PeanoNat.lt_S_n in Hi.
           specialize (Hnew i Hi). cbn [nth].
           destruct i as [|i]; exact Hnew.
      * apply IH in H. destruct H as [new [Hfields Hnew]].
        exists (mkThriftField (int16 (prev + int16 (FieldDeltaShort f)))
                  (uint8 (FieldType f)) (FieldValue f) :: new).
        split; [rewrite Hfields, <- app_assoc; reflexivity|].
        intros i Hi. destruct i as [|i].
        -- cbn [nth ID]. split; [exact Hstop|]. split.
           ++ intros _. pose proof (FieldDeltaShort_range f) as R.
              rewrite (int16_small (FieldDeltaShort f)) by lia. reflexivity.
           ++ intros He. unfold HasExtendedDelta in Hext.
              apply Z.eqb_neq in Hext. contradiction.
        -- cbn [length] in Hi. apply PeanoNat.lt_S_n in Hi.
           specialize (Hnew i Hi). cbn [nth].
           destruct i as [|i]; exact Hnew.
Qed.

(** C7.  In the fields [thriftFields] returns, field [i] comes from header
    [i], which is no STOP.  With a nonzero high nibble its id is the previous
    id (0 before the first field) plus the nibble, in 16 bits: the very sum
    whenever that fits.  With a zero high nibble the id is the 16-bit value
    of the zigzag varint that follows; the next field counts from it. *)
Theorem C7_field_ids :
  forall st fields i,
    thriftFields st = (fields, None) ->
    (i < length fields)%nat ->
    let cf := nth i (Fields st) stopField in
    let prev := match i with O => 0 | S j => ID (nth j fields zeroField) end in
    let id := ID (nth i fields zeroField) in
    IsStop cf = false
    /\ (FieldDeltaShort cf <> 0 ->
        id = int16 (prev + FieldDeltaShort cf)
        /\ (prev + FieldDeltaShort cf < 2 ^ 15 -> id = prev + FieldDeltaShort cf))
    /\ (FieldDeltaShort cf = 0 ->
        exists ext, ExtendedDelta cf = Some ext
                    /\ id = int16 (VarintZ_Value ext)).
Proof.
  intros st fields i H Hi. unfold thriftFields in H.
  apply thriftFieldsLoop_ids in H. destruct H as [new [Hfields Hnew]].
  cbn [app] in Hfields. subst new.
  pose proof (Hnew i Hi) as Hith. cbv zeta in Hith.
  destruct Hith as [Hstop [Hshort Hlong]].
  cbv zeta. split; [exact Hstop|]. split; [|exact Hlong].
  intros Hne. split; [apply Hshort; exact Hne|].
  intros Hfit. rewrite (Hshort Hne). apply int16_small.
  pose proof (FieldDeltaShort_range (nth i (Fields st) stopField)) as R.
  destruct i as [|j]; [lia|].
  assert (Hj : (j < length fields)%nat) by lia.
  destruct (Hnew j Hj) as [_ [Hs Hl]].
  assert (Hprev : - 2 ^ 15 <= ID (nth j fields zeroField) < 2 ^ 15).
  { destruct (Z.eq_dec (FieldDeltaShort (nth j (Fields st) stopField)) 0) as [E|E].
    - destruct (Hl E) as [ext [_ Hid]]. rewrite Hid. apply int16_range.
    - rewrite (Hs E). apply int16_range. }
  lia.
Qed.

(** The examples of the claim, from the bytes on.  Headers [0x35] and
    [0x55] (short deltas 3 and 5) give ids 3 and 8; header [0x05] with the
    zigzag varint [0x28] (20), then [0x25] (short delta 2), gives 20 and
    22. *)
Example thriftFields_short_deltas :
  map ID (fst (thriftFields (parsedStruct [x35; x02; x55; x04; x00]))) = [3; 8].
Proof. vm_compute. reflexivity. Qed.

Example thriftFields_extended_then_short :
  map ID (fst (thriftFields (parsedStruct [x05; x28; x02; x25; x04; x00])))
  = [20; 22].
Proof. vm_compute. reflexivity. Qed.

Lemma C7_field_ids_witness :
  ID (nth 1 (fst (thriftFields (parsedStruct [x05; x28; x02; x25; x04; x00])))
        zeroField)
  = 20 + 2.
Proof.
  pose proof (C7_field_ids
                (parsedStruct [x05; x28; x02; x25; x04; x00])
                (fst (thriftFields (parsedStruct [x05; x28; x02; x25; x04; x00])))
                1%nat eq_refl (le_n 2)) as H.
  cbv zeta in H. destruct H as [_ [Hshort _]].
  assert (Hne : FieldDeltaShort
                  (nth 1 (Fields (parsedStruct [x05; x28; x02; x25; x04; x00]))
                     stopField) <> 0)
    by (vm_compute; discriminate).
  destruct (Hshort Hne) as [_ Hsum].
  rewrite Hsum by (vm_compute; reflexivity).
  vm_compute. reflexivity.
Defined.

(** ** The level decoder *)

Lemma len_repeat : forall (A : Type) (a : A) (n : nat), len (repeat a n) = Z.of_nat n.
Proof. intros A a n. unfold len. rewrite repeat_length. reflexivity. Qed.

Lemma len_slice :
  forall (A : Type) (l : list A) i j,
    0 <= i -> i <= j -> j <= len l -> len (slice l i j) = j - i.
Proof.
  intros A l i j Hi Hij Hj. unfold slice, len in *.
  rewrite length_firstn, length_skipn. lia.
Qed.

(** The loop is over as soon as its condition fails, whatever the fuel. *)
Lemma rleLoop_exit :
  forall fuel src numValues bitWidth i dst,
    len src <= i \/ numValues <= len dst ->
    rleLoop fuel src numValues bitWidth i dst = (dst, None).
Proof.
  intros fuel src numValues bitWidth i dst H.
  destruct fuel as [|fuel]; [reflexivity|]. cbn [rleLoop].
  destruct H as [H|H].
  - apply Z.ltb_ge in H. rewrite H. reflexivity.
  - apply Z.ltb_ge in H. rewrite H. rewrite andb_false_r. reflexivity.
Qed.

(** A bit-packed block whose group count passes the check and whose bytes are
    all there is decoded whole, and the loop goes on behind it. *)
Lemma rleLoop_bit_packed :
  forall fuel src numValues bitWidth i dst u n,
    i < len src -> len dst < numValues ->
    Uvarint (from src i) = (u, n) -> 0 < n ->
    Z.shiftr u 1 <= maxSupportedValueCount ->
    Z.land u 1 <> 0 ->
    i + n + (Z.shiftr u 1 * 8 * bitWidth + 7) / 8 <= len src ->
    rleLoop (S fuel) src numValues bitWidth i dst
    = rleLoop fuel src numValues bitWidth
        (i + n + (Z.shiftr u 1 * 8 * bitWidth + 7) / 8)
        (dst ++ decodeBitPackedBytes
                  (slice src (i + n)
                     (i + n + (Z.shiftr u 1 * 8 * bitWidth + 7) / 8))
                  (Z.shiftr u 1 * 8) bitWidth).
Proof.
  intros fuel src numValues bitWidth i dst u n Hi Hd Hu Hn Hcap Hbit Hfits.
  cbn [rleLoop]. rewrite Hu.
  apply Z.ltb_lt in Hi, Hd. rewrite Hi, Hd. cbn [andb].
  assert (E0 : (n =? 0) = false) by (apply Z.eqb_neq; lia).
  assert (E1 : (n <? 0) = false) by (apply Z.ltb_ge; lia).
  rewrite E0, E1.
  assert (E2 : (maxSupportedValueCount <? Z.shiftr u 1) = false)
    by (apply Z.ltb_ge; exact Hcap).
  rewrite E2.
  apply Z.eqb_neq in Hbit. rewrite Hbit. cbn [negb].
  assert (E3 : (len src <? i + n + (Z.shiftr u 1 * 8 * bitWidth + 7) / 8) = false)
    by (apply Z.ltb_ge; exact Hfits).
  rewrite E3. reflexivity.
Qed.

(** With enough bytes the bit-packed loop yields one value per round. *)
Lemma bitPackedLoop_length :
  forall src bitWidth n i dst,
    0 < bitWidth -> 0 <= i ->
    (i + Z.of_nat n) * bitWidth <= 8 * len src ->
    len (bitPackedLoop src bitWidth n i dst) = len dst + Z.of_nat n.
Proof.
  intros src bitWidth n. induction n as [|n IH]; intros i dst Hbw Hi Hfit.
  - cbn [bitPackedLoop]. lia.
  - cbn [bitPackedLoop].
    assert (Hidx : (i * bitWidth) / 8 < len src).
    { apply Z.div_lt_upper_bound; [lia|]. nia. }
    apply Z.leb_gt in Hidx. rewrite Hidx.
    rewrite IH; [rewrite len_app, len_one; lia | exact Hbw | lia | ].
    replace (i + 1 + Z.of_nat n) with (i + Z.of_nat (S n)) by lia. exact Hfit.
Qed.

Lemma decodeBitPackedBytes_length :
  forall src count bitWidth,
    0 <= bitWidth -> 0 <= count -> count * bitWidth <= 8 * len src ->
    len (decodeBitPackedBytes src count bitWidth) = count.
Proof.
  intros src count bitWidth Hbw Hc Hfit. unfold decodeBitPackedBytes.
  destruct (bitWidth =? 0) eqn:E.
  - rewrite len_repeat. lia.
  - apply Z.eqb_neq in E.
    rewrite bitPackedLoop_length; [rewrite len_nil; lia | lia | lia | ].
    rewrite Z2Nat.id by lia. lia.
Qed.

(** A run adds at most its count. *)
Lemma appendRun_length :
  forall word numValues k dst,
    len (appendRun word numValues k dst) <= len dst + Z.of_nat k.
Proof.
  intros word numValues k. induction k as [|k IH]; intros dst.
  - cbn [appendRun]. lia.
  - cbn [appendRun]. destruct (len dst <? numValues); [|lia].
    specialize (IH (dst ++ [word])). rewrite len_app, len_one in IH. lia.
Qed.

(** ** C8: the cap on a block's count *)

(** The header [0x83 0x80 0x80 0x02] is the varint 4194307: bit-packed, with
    2097153 groups of eight values. *)
Lemma Uvarint_group_header :
  forall body, Uvarint ([x83; x80; x80; x02] ++ body) = (4194307, 4).
Proof. intros body. reflexivity. Qed.

(** C8, as stated, fails.  A bit-packed block header claiming 16,777,224
    values (2,097,153 groups, which is under the cap), followed by its
    2,097,153 bytes of one-bit values, is decoded with no error into
    16,777,224 values. *)
Lemma C8_bit_packed_block_passes_the_cap :
  exists dst,
    decodeRLEBytes ([x83; x80; x80; x02] ++ repeat x00 (Z.to_nat 2097153))
      16777224 1
    = Returns (dst, None)
    /\ len dst = 16777224
    /\ maxSupportedValueCount < 16777224.
Proof.
  set (body := repeat x00 (Z.to_nat 2097153)).
  assert (Hbody : len body = 2097153).
  { unfold body. rewrite len_repeat. apply Z2Nat.id. lia. }
  assert (Hsrc : len ([x83; x80; x80; x02] ++ body) = 2097157).
  { rewrite len_app, Hbody. reflexivity. }
  set (src := [x83; x80; x80; x02] ++ body) in *.
  assert (Hfuel : exists fuel, length src = S (S fuel)).
  { unfold src. cbn [app length]. eexists. reflexivity. }
  destruct Hfuel as [fuel Hfuel].
  assert (Hcount : Z.shiftr 4194307 1 = 2097153) by reflexivity.
  assert (Hbytes : (Z.shiftr 4194307 1 * 8 * 1 + 7) / 8 = 2097153) by reflexivity.
  set (decoded := decodeBitPackedBytes (slice src 4 2097157) 16777224 1).
  assert (Hdec : len decoded = 16777224).
  { unfold decoded. apply decodeBitPackedBytes_length; [lia | lia |].
    rewrite len_slice by lia. lia. }
  exists decoded. split; [|split; [exact Hdec | reflexivity]].
  unfold decodeRLEBytes. change (8 <? 1) with false. cbv iota.
  change (makeCap 16777224) with (Returns tt). cbn [bindO].
  rewrite Hfuel.
  rewrite (rleLoop_bit_packed (S fuel) src 16777224 1 0 [] 4194307 4);
    [ | lia | rewrite len_nil; lia | apply Uvarint_group_header | lia
      | rewrite Hcount; unfold maxSupportedValueCount; lia
      | discriminate
      | rewrite Hbytes, Hsrc; lia ].
  rewrite Hbytes, Hcount.
  change (0 + 4 + 2097153) with 2097157. change (0 + 4) with 4.
  change (2097153 * 8) with 16777224. fold decoded. cbn [app].
  rewrite rleLoop_exit by (left; lia).
  unfold truncate. rewrite Hdec. reflexivity.
Qed.

(** The guard on the count, in either loop. *)
Lemma rleLoop_block_too_large :
  forall fuel src numValues bitWidth i dst u n,
    i < len src -> len dst < numValues ->
    Uvarint (from src i) = (u, n) -> 0 < n ->
    maxSupportedValueCount < Z.shiftr u 1 ->
    rleLoop (S fuel) src numValues bitWidth i dst = (dst, Some ErrBlockTooLarge).
Proof.
  intros fuel src numValues bitWidth i dst u n Hi Hd Hu Hn Hcap.
  apply Z.ltb_lt in Hi, Hd, Hcap.
  assert (E0 : (n =? 0) = false) by (apply Z.eqb_neq; lia).
  assert (E1 : (n <? 0) = false) by (apply Z.ltb_ge; lia).
  cbn [rleLoop]. rewrite Hu, Hi, Hd. cbn [andb].
  rewrite E0, E1, Hcap. reflexivity.
Qed.

Lemma rleOffsetLoop_block_too_large :
  forall fuel src numValues bitWidth i dst bytesRead u n,
    i < len src -> len dst < numValues ->
    Uvarint (from src i) = (u, n) -> 0 < n ->
    maxSupportedValueCount < Z.shiftr u 1 ->
    rleOffsetLoop (S fuel) src numValues bitWidth i dst bytesRead
    = (dst, bytesRead + n, Some ErrBlockTooLarge).
Proof.
  intros fuel src numValues bitWidth i dst bytesRead u n Hi Hd Hu Hn Hcap.
  apply Z.ltb_lt in Hi, Hd, Hcap.
  assert (E0 : (n =? 0) = false) by (apply Z.eqb_neq; lia).
  assert (E1 : (n <? 0) = false) by (apply Z.ltb_ge; lia).
  cbn [rleOffsetLoop]. rewrite Hu, Hi, Hd. cbn [andb].
  rewrite E0, E1, Hcap. reflexivity.
Qed.

(** The same at the first block of a call. *)
Lemma decodeRLEBytes_first_block_too_large :
  forall src numValues bitWidth u n,
    Uvarint src = (u, n) -> 0 < n -> 0 < numValues -> bitWidth <= 8 ->
    maxSupportedValueCount < Z.shiftr u 1 ->
    decodeRLEBytes src numValues bitWidth = Returns ([], Some ErrBlockTooLarge)
    /\ decodeRLEBytesWithOffset src numValues bitWidth
       = Returns ([], n, Some ErrBlockTooLarge).
Proof.
  intros src numValues bitWidth u n Hu Hn Hnv Hbw Hcap.
  destruct src as [|b src]; [inversion Hu; subst; lia|].
  assert (Hlen : 0 < len (b :: src)) by (unfold len; cbn [length]; lia).
  pose proof (rleLoop_block_too_large (length src) (b :: src) numValues bitWidth
                0 [] u n Hlen Hnv Hu Hn Hcap) as H1.
  pose proof (rleOffsetLoop_block_too_large (length src) (b :: src) numValues
                bitWidth 0 [] 0 u n Hlen Hnv Hu Hn Hcap) as H2.
  unfold decodeRLEBytes, decodeRLEBytesWithOffset, makeCap.
  assert (E : (8 <? bitWidth) = false) by (apply Z.ltb_ge; lia).
  assert (E' : (numValues <? 0) = false) by (apply Z.ltb_ge; lia).
  rewrite E, E'. cbn [bindO length]. rewrite H1, H2. split; reflexivity.
Qed.

(** C8, amended.  At any block of either decoder, a header whose count
    field (the run length of an RLE block, the number of eight-value groups
    of a bit-packed block) exceeds 16,777,216 ends the call with the
    block-too-large error and the values decoded before that block; so it
    does for the first block of a call that asks for a value.  A run-length
    block under the cap adds no more values than its count. *)
Theorem C8_block_count_is_capped :
  forall fuel src numValues bitWidth i dst bytesRead u n,
    i < len src -> len dst < numValues ->
    Uvarint (from src i) = (u, n) -> 0 < n ->
    maxSupportedValueCount < Z.shiftr u 1 ->
    rleLoop (S fuel) src numValues bitWidth i dst
    = (dst, Some ErrBlockTooLarge)
    /\ rleOffsetLoop (S fuel) src numValues bitWidth i dst bytesRead
       = (dst, bytesRead + n, Some ErrBlockTooLarge)
    /\ (i = 0 -> dst = [] -> bitWidth <= 8 ->
        decodeRLEBytes src numValues bitWidth
        = Returns ([], Some ErrBlockTooLarge)
        /\ decodeRLEBytesWithOffset src numValues bitWidth
           = Returns ([], n, Some ErrBlockTooLarge))
    /\ (forall word count,
          0 <= count <= maxSupportedValueCount ->
          len (appendRun word numValues (Z.to_nat count) dst)
          <= len dst + maxSupportedValueCount).
Proof.
  intros fuel src numValues bitWidth i dst bytesRead u n Hi Hd Hu Hn Hcap.
  split; [|split; [|split]].
  - eapply rleLoop_block_too_large; eassumption.
  - eapply rleOffsetLoop_block_too_large; eassumption.
  - intros -> -> Hbw. rewrite len_nil in Hd.
    apply (decodeRLEBytes_first_block_too_large src numValues bitWidth u n);
      assumption.
  - intros word count Hcount.
    pose proof (appendRun_length word numValues (Z.to_nat count) dst) as L.
    rewrite Z2Nat.id in L by lia. lia.
Qed.

Lemma C8_block_count_is_capped_witness :
  rleLoop 5 [x82; x80; x80; x10; x01] 5 1 0 [] = ([], Some ErrBlockTooLarge)
  /\ rleOffsetLoop 5 [x82; x80; x80; x10; x01] 5 1 0 [] 0
     = ([], 0 + 4, Some ErrBlockTooLarge)
  /\ decodeRLEBytes [x82; x80; x80; x10; x01] 5 1
     = Returns ([], Some ErrBlockTooLarge).
Proof.
  destruct (C8_block_count_is_capped 4 [x82; x80; x80; x10; x01] 5 1 0 [] 0
              33554434 4 eq_refl eq_refl eq_refl eq_refl eq_refl)
    as [Hloop [Hoffset [Hcall _]]].
  split; [exact Hloop|]. split; [exact Hoffset|].
  destruct (Hcall eq_refl eq_refl) as [Hbytes _]; [discriminate | exact Hbytes].
Defined.

(** ** C9: rejected level attempts *)

(** C9, as stated, fails.  For a REPEATED column the repetition attempt on
    an empty level section (length prefix 0) produces no level, yet the four
    prefix bytes are stripped.  For a REQUIRED column a run of the level 5,
    above the maximum definition level 1, is accepted and stripped. *)
Lemma C9_buffer_advances_on_listed_rejections :
  decodeRLELevels [x00; x00; x00; x00; x2a; x00; x00; x00] 1 1
  = Returns ([], [x2a; x00; x00; x00], None)
  /\ stripLevels [x00; x00; x00; x00; x2a; x00; x00; x00] 1 (Some 2) 0
     = Returns [x2a; x00; x00; x00]
  /\ decodeRLELevels [x02; x00; x00; x00; x02; x05; x2a; x00; x00; x00] 1 1
     = Returns ([x05], [x2a; x00; x00; x00], None)
  /\ levelsValid [x05] 1 = false
  /\ stripLevels [x02; x00; x00; x00; x02; x05; x2a; x00; x00; x00] 1 (Some 0) 1
     = Returns [x2a; x00; x00; x00].
Proof.
  repeat split; vm_compute; reflexivity.
Qed.

Lemma len_zero_nil : forall (A : Type) (l : list A), l = [] -> (0 <? len l) = false.
Proof. intros A l H. subst. reflexivity. Qed.

(** C9, amended.  A rejected attempt hands on the buffer it was given.
    A decode error rejects every attempt.  An empty level output rejects a
    definition-level attempt.  For a column that is not REQUIRED, with a
    nonzero maximum definition level, a level above that maximum rejects
    either kind of attempt, and the attempt without length prefix is also
    rejected when the count of bytes read is zero or not below the length of
    the buffer. *)
Theorem C9_rejected_attempt_keeps_buffer :
  forall pageData numValues repetitionType maxDefinitionLevel
         levels remaining bytesRead err,
    (* the repetition attempt *)
    (decodeRLELevels pageData numValues 1 = Returns (levels, remaining, err) ->
     err <> None ->
     stripRepetition pageData numValues repetitionType = Returns pageData)
    (* the definition attempt of a REQUIRED column *)
    /\ (repetitionIs repetitionType 0 = true ->
        decodeRLELevels pageData numValues 1 = Returns (levels, remaining, err) ->
        err <> None \/ levels = [] ->
        stripDefinition pageData numValues repetitionType maxDefinitionLevel
        = Returns pageData)
    (* the length-prefixed definition attempt of another column *)
    /\ (repetitionIs repetitionType 0 = false ->
        decodeRLELevels pageData numValues maxDefinitionLevel
        = Returns (levels, remaining, err) ->
        0 < Uint32 (slice pageData 0 4) ->
        Uint32 (slice pageData 0 4) < len pageData ->
        Uint32 (slice pageData 0 4) < 10000 ->
        err <> None \/ levels = [] \/ levelsValid levels maxDefinitionLevel = false ->
        stripDefinition pageData numValues repetitionType maxDefinitionLevel
        = Returns pageData)
    (* the definition attempt without length prefix *)
    /\ (repetitionIs repetitionType 0 = false ->
        decodeRLEBytesWithOffset pageData numValues maxDefinitionLevel
        = Returns (levels, bytesRead, err) ->
        Uint32 (slice pageData 0 4) <= 0
        \/ len pageData <= Uint32 (slice pageData 0 4)
        \/ 10000 <= Uint32 (slice pageData 0 4) ->
        err <> None \/ levels = [] \/ levelsValid levels maxDefinitionLevel = false
        \/ bytesRead <= 0 \/ len pageData <= bytesRead ->
        stripDefinition pageData numValues repetitionType maxDefinitionLevel
        = Returns pageData)
    (* a successful repetition attempt is accepted as it is *)
    /\ (repetitionIs repetitionType 2 = true ->
        decodeRLELevels pageData numValues 1 = Returns (levels, remaining, None) ->
        stripRepetition pageData numValues repetitionType = Returns remaining)
    (* with both attempts rejected the value decoder gets the page as it came *)
    /\ (stripRepetition pageData numValues repetitionType = Returns pageData ->
        stripDefinition pageData numValues repetitionType maxDefinitionLevel
        = Returns pageData ->
        stripLevels pageData numValues repetitionType maxDefinitionLevel
        = Returns pageData).
Proof.
  intros pageData numValues repetitionType maxDefinitionLevel
         levels remaining bytesRead err.
  split; [|split; [|split; [|split; [|split]]]].
  - intros Hdec Herr. unfold stripRepetition.
    destruct (repetitionIs repetitionType 2); [|reflexivity].
    rewrite Hdec. cbn [bindO].
    destruct err; [reflexivity | contradiction].
  - intros Hreq Hdec Hrej. unfold stripDefinition. rewrite Hreq, Hdec.
    cbn [bindO]. destruct err as [e|]; [reflexivity|].
    destruct Hrej as [Hrej|Hrej]; [contradiction|].
    rewrite (len_zero_nil _ _ Hrej). reflexivity.
  - intros Hreq Hdec H0 H1 H2 Hrej. unfold stripDefinition. rewrite Hreq.
    destruct (0 <? maxDefinitionLevel); [|reflexivity].
    destruct (4 <=? len pageData); [|reflexivity].
    apply Z.ltb_lt in H0, H1, H2. rewrite H0, H1, H2. cbn [andb].
    rewrite Hdec. cbn [bindO]. destruct err as [e|]; [reflexivity|].
    destruct Hrej as [Hrej|[Hrej|Hrej]].
    + contradiction.
    + rewrite (len_zero_nil _ _ Hrej). reflexivity.
    + rewrite Hrej. rewrite andb_false_r. reflexivity.
  - intros Hreq Hdec Himp Hrej. unfold stripDefinition. rewrite Hreq.
    destruct (0 <? maxDefinitionLevel); [|reflexivity].
    destruct (4 <=? len pageData); [|reflexivity].
    assert (E : (0 <? Uint32 (slice pageData 0 4))
                && (Uint32 (slice pageData 0 4) <? len pageData)
                && (Uint32 (slice pageData 0 4) <? 10000) = false).
    { destruct Himp as [H|[H|H]].
      - apply Z.ltb_ge in H. rewrite H. reflexivity.
      - apply Z.ltb_ge in H. rewrite H. rewrite andb_false_r. reflexivity.
      - apply Z.ltb_ge in H. rewrite H. apply andb_false_r. }
    rewrite E. rewrite Hdec. cbn [bindO]. destruct err as [e|]; [reflexivity|].
    destruct Hrej as [Hrej|[Hrej|[Hrej|[Hrej|Hrej]]]].
    + contradiction.
    + rewrite (len_zero_nil _ _ Hrej). reflexivity.
    + rewrite Hrej. rewrite !andb_false_r. reflexivity.
    + apply Z.ltb_ge in Hrej. rewrite Hrej. rewrite !andb_false_r. reflexivity.
    + apply Z.ltb_ge in Hrej. rewrite Hrej. rewrite !andb_false_r. reflexivity.
  - intros Hrep Hdec. unfold stripRepetition. rewrite Hrep, Hdec. reflexivity.
  - intros Hrep Hdef. unfold stripLevels. rewrite Hrep. cbn [bindO]. exact Hdef.
Qed.

(** The witness: an OPTIONAL column whose page starts with the plausible
    length 2 and a run of the level 5, above the maximum 1. *)
Lemma C9_rejected_attempt_keeps_buffer_witness :
  stripDefinition [x02; x00; x00; x00; x02; x05; x2a; x00; x00; x00] 1 (Some 1) 1
  = Returns [x02; x00; x00; x00; x02; x05; x2a; x00; x00; x00]
  /\ stripRepetition [x09; x00; x00; x00; x2a] 1 (Some 2) = Returns [x09; x00; x00; x00; x2a].
Proof.
  split.
  - destruct (C9_rejected_attempt_keeps_buffer
                [x02; x00; x00; x00; x02; x05; x2a; x00; x00; x00] 1 (Some 1) 1
                [x05] [x2a; x00; x00; x00] 0 None) as [_ [_ [Hprefixed _]]].
    apply Hprefixed.
    + reflexivity.
    + reflexivity.
    + reflexivity.
    + reflexivity.
    + reflexivity.
    + right. right. reflexivity.
  - destruct (C9_rejected_attempt_keeps_buffer
                [x09; x00; x00; x00; x2a] 1 (Some 2) 0
                [] [x09; x00; x00; x00; x2a] 0 (Some ErrInvalidEncodedLength))
      as [Hrepetition _].
    apply Hrepetition.
    + reflexivity.
    + discriminate.
Defined.

(** ** C2: fields of an unexpected wire type *)

Ltac payload_case :=
  match goal with
  | H : bindP ?m _ = POk _ _ |- _ =>
      destruct m; cbn [bindP] in H; [|discriminate H|discriminate H];
      inversion H; subst; clear H;
      unfold payloadOf; cbn;
      repeat split; intros; try reflexivity; exfalso; lia
  end.

Lemma parse_compact_value_payload :
  forall fuel t s v rest,
    parse_compact_value fuel t s = POk v rest -> payloadOf t v.
Proof.
  intros fuel t s v rest H. destruct fuel as [|fuel]; [discriminate H|].
  cbn [parse_compact_value] in H.
  repeat match type of H with
         | (if ?t =? ?k then _ else _) = _ =>
             let E := fresh "E" in
             destruct (t =? k) eqn:E;
             [ apply Z.eqb_eq in E; payload_case | apply Z.eqb_neq in E ]
         end.
  inversion H; subst. unfold payloadOf. cbn. repeat split; reflexivity.
Qed.

Lemma parse_compact_field_payload :
  forall fuel s cf rest,
    parse_compact_field fuel s = POk cf rest ->
    match FieldValue cf with
    | Some v => payloadOf (FieldType cf) v
    | None => True
    end.
Proof.
  intros fuel s cf rest H. destruct fuel as [|fuel]; [discriminate H|].
  cbn [parse_compact_field] in H.
  destruct s as [|b s]; [discriminate H|]. cbn [read_u1 bindP] in H.
  destruct (negb (b2z b =? 0) && (Z.land (Z.shiftr (b2z b) 4) 15 =? 0)).
  - destruct (parse_varint_z s) as [ext s'| |]; cbn [bindP] in H;
      try discriminate H.
    destruct (negb (b2z b =? 0)).
    + destruct (parse_compact_value fuel (Z.land (b2z b) 15) s')
        as [v s''| |] eqn:Hv; cbn [bindP] in H; try discriminate H.
      inversion H; subst. cbn [FieldValue]. unfold FieldType. cbn [FieldHeader].
      eapply parse_compact_value_payload. exact Hv.
    + cbn [bindP] in H. inversion H; subst. exact I.
  - cbn [bindP] in H. destruct (negb (b2z b =? 0)).
    + destruct (parse_compact_value fuel (Z.land (b2z b) 15) s)
        as [v s''| |] eqn:Hv; cbn [bindP] in H; try discriminate H.
      inversion H; subst. cbn [FieldValue]. unfold FieldType. cbn [FieldHeader].
      eapply parse_compact_value_payload. exact Hv.
    + cbn [bindP] in H. inversion H; subst. exact I.
Qed.

(** The accessors on a value that lacks their entry. *)
Section Accessors.

Variables (t : Z) (val : option CompactValue).
Hypothesis Hval : match val with Some v => payloadOf t v | None => True end.

Lemma thriftI32_absent : t <> 5 -> thriftI32 val = (0, false, None).
Proof.
  intros H. unfold thriftI32. destruct val as [v|]; [|reflexivity].
  destruct Hval as [H5 _]. rewrite (H5 H). reflexivity.
Qed.

Lemma thriftI64_absent : t <> 6 -> thriftI64 val = (0, false, None).
Proof.
  intros H. unfold thriftI64. destruct val as [v|]; [|reflexivity].
  destruct Hval as [_ [H6 _]]. rewrite (H6 H). reflexivity.
Qed.

Lemma thriftString_absent : t <> 8 -> thriftString val = ([], false).
Proof.
  intros H. unfold thriftString. destruct val as [v|]; [|reflexivity].
  destruct Hval as [_ [_ [H8 _]]]. rewrite (H8 H). reflexivity.
Qed.

Lemma thriftList_absent : t <> 9 -> t <> 10 -> thriftList val = None.
Proof.
  intros H H'. unfold thriftList. destruct val as [v|]; [|reflexivity].
  destruct Hval as [_ [_ [_ [H9 [H10 _]]]]]. rewrite (H9 H), (H10 H').
  reflexivity.
Qed.

Lemma thriftStruct_absent : t <> 12 -> thriftStruct val = None.
Proof.
  intros H. unfold thriftStruct. destruct val as [v|]; [|reflexivity].
  destruct Hval as [_ [_ [_ [_ [_ H12]]]]]. exact (H12 H).
Qed.

End Accessors.

(** In each [case]: the id is known, so the expectation is; the accessor
    finds nothing, so the result is left as it was. *)
Ltac skip_cases Hpay Hexp :=
  repeat match goal with
         | |- (if ?id =? ?k then _ else _) = _ =>
             let E := fresh "E" in
             destruct (id =? k) eqn:E;
             [ apply Z.eqb_eq in E; subst id;
               cbn in Hexp;
               first
                 [ rewrite (thriftI32_absent _ _ Hpay) by (intro; apply Hexp; auto)
                 | rewrite (thriftI64_absent _ _ Hpay) by (intro; apply Hexp; auto)
                 | rewrite (thriftString_absent _ _ Hpay) by (intro; apply Hexp; auto)
                 | rewrite (thriftStruct_absent _ _ Hpay) by (intro; apply Hexp; auto)
                 | rewrite (thriftList_absent _ _ Hpay)
                     by (intro; apply Hexp; auto) ];
               reflexivity
             | clear E ]
         end;
  try reflexivity.

Section Skipping.

Variables (t id : Z) (val : option CompactValue).
Hypothesis Hval : match val with Some v => payloadOf t v | None => True end.

Let f : thriftField := mkThriftField id (uint8 t) val.

Lemma schemaElementField_skips :
  forall out, ~ In t (expectedSchemaElement id) -> schemaElementField out f = inl out.
Proof.
  intros out Hexp. unfold schemaElementField. destruct out. unfold f. cbn [ID Val].
  skip_cases Hval Hexp.
Qed.

Lemma columnMetaDataField_skips :
  forall out, ~ In t (expectedColumnMetaData id) -> columnMetaDataField out f = inl out.
Proof.
  intros out Hexp. unfold columnMetaDataField. destruct out. unfold f. cbn [ID Val].
  skip_cases Hval Hexp.
Qed.

Lemma columnChunkField_skips :
  forall out, ~ In t (expectedColumnChunk id) -> columnChunkField out f = inl out.
Proof.
  intros out Hexp. unfold columnChunkField. destruct out. unfold f. cbn [ID Val].
  skip_cases Hval Hexp.
Qed.

Lemma rowGroupField_skips :
  forall out, ~ In t (expectedRowGroup id) -> rowGroupField out f = inl out.
Proof.
  intros out Hexp. unfold rowGroupField. destruct out. unfold f. cbn [ID Val].
  skip_cases Hval Hexp.
Qed.

Lemma fileMetaDataField_skips :
  forall out, ~ In t (expectedFileMetaData id) -> fileMetaDataField out f = inl out.
Proof.
  intros out Hexp. unfold fileMetaDataField. destruct out. unfold f. cbn [ID Val].
  skip_cases Hval Hexp.
Qed.

End Skipping.

(** The mapper's accessors never fail, so a [case] never returns an
    error of its own. *)
Lemma thriftFieldsLoop_error :
  forall fs prev out fields e,
    thriftFieldsLoop fs prev out = (fields, Some e) ->
    e = ErrExtendedDeltaMissing.
Proof.
  induction fs as [|f fs IH]; intros prev out fields e H.
  - discriminate H.
  - cbn [thriftFieldsLoop] in H. destruct (IsStop f); [discriminate H|].
    destruct (HasExtendedDelta f).
    + destruct (ExtendedDelta f) as [ext|].
      * eapply IH. exact H.
      * inversion H. reflexivity.
    + eapply IH. exact H.
Qed.

Lemma eachField_error :
  forall (S : Type) (step : S -> thriftField -> S + error) (P : error -> Prop),
    (forall out f e, step out f = inr e -> P e) ->
    forall fields out e, eachField step fields out = inr e -> P e.
Proof.
  intros S step P Hstep. induction fields as [|f fields IH]; intros out e H.
  - discriminate H.
  - cbn [eachField] in H. destruct (step out f) as [out'|e'] eqn:E.
    + eapply IH. exact H.
    + inversion H; subst. eapply Hstep. exact E.
Qed.

Lemma eachElement_error :
  forall (A : Type) (decode : CompactValue -> option (A + error))
         (P : error -> Prop),
    (forall elem e, decode elem = Some (inr e) -> P e) ->
    forall elems acc e, eachElement decode elems acc = inr e -> P e.
Proof.
  intros A decode P Hdec. induction elems as [|elem elems IH]; intros acc e H.
  - discriminate H.
  - cbn [eachElement] in H. destruct (decode elem) as [[a|e']|] eqn:E.
    + eapply IH. exact H.
    + inversion H; subst. eapply Hdec. exact E.
    + eapply IH. exact H.
Qed.

Lemma withInt_thriftI32 :
  forall (S : Type) v (set : Z -> S) out e,
    withInt (thriftI32 v) set out = inr e -> False.
Proof.
  intros S v set out e H. unfold withInt, thriftI32 in H.
  destruct v as [v|]; [destruct (I32Value v)|]; discriminate H.
Qed.

Lemma withInt_thriftI64 :
  forall (S : Type) v (set : Z -> S) out e,
    withInt (thriftI64 v) set out = inr e -> False.
Proof.
  intros S v set out e H. unfold withInt, thriftI64 in H.
  destruct v as [v|]; [destruct (I64Value v)|]; discriminate H.
Qed.

(** Case analysis on the [switch]: each branch is an accessor that cannot
    fail, or a loop over elements whose only errors are those of [P]. *)
Ltac no_case_error H :=
  repeat match type of H with
         | (if ?c then _ else _) = inr _ => destruct c
         end;
  try (exfalso; eapply withInt_thriftI32; exact H);
  try (exfalso; eapply withInt_thriftI64; exact H);
  try discriminate H.

Lemma schemaElementField_error :
  forall out f e, schemaElementField out f = inr e -> False.
Proof.
  intros out f e H. unfold schemaElementField in H. destruct out.
  no_case_error H.
  destruct (thriftString (Val f)) as [s [|]]; discriminate H.
Qed.

Lemma decodeSchemaElement_error :
  forall st e, decodeSchemaElement st = inr e -> e = ErrExtendedDeltaMissing.
Proof.
  intros st e H. unfold decodeSchemaElement, thriftFields in H.
  destruct (thriftFieldsLoop (Fields st) 0 []) as [fields [e'|]] eqn:E.
  - inversion H; subst. eapply thriftFieldsLoop_error. exact E.
  - exfalso.
    apply (eachField_error _ schemaElementField (fun _ => False)
             schemaElementField_error fields zeroSchemaElement e H).
Qed.

Lemma columnMetaDataField_error :
  forall out f e, columnMetaDataField out f = inr e -> False.
Proof.
  intros out f e H. unfold columnMetaDataField in H. destruct out.
  no_case_error H.
  - destruct (thriftList (Val f)) as [lst|]; [|discriminate H].
    match type of H with
    | match ?m with _ => _ end = _ => destruct m as [a|e'] eqn:E
    end; [discriminate H|].
    eapply (eachElement_error _ _ (fun _ => False)); [|exact E].
    intros elem e0 He. unfold thriftI32 in He.
    destruct (I32Value elem); discriminate He.
  - destruct (thriftList (Val f)) as [lst|]; [|discriminate H].
    match type of H with
    | match ?m with _ => _ end = _ => destruct m as [a|e'] eqn:E
    end; [discriminate H|].
    eapply (eachElement_error _ _ (fun _ => False)); [|exact E].
    intros elem e0 He. cbv beta in He.
    destruct (thriftString (Some elem)) as [s [|]];
      discriminate He.
Qed.

Lemma decodeColumnMetaData_error :
  forall st e, decodeColumnMetaData st = inr e -> e = ErrExtendedDeltaMissing.
Proof.
  intros st e H. unfold decodeColumnMetaData, thriftFields in H.
  destruct (thriftFieldsLoop (Fields st) 0 []) as [fields [e'|]] eqn:E.
  - inversion H; subst. eapply thriftFieldsLoop_error. exact E.
  - exfalso.
    apply (eachField_error _ columnMetaDataField (fun _ => False)
             columnMetaDataField_error fields zeroColumnMetaData e H).
Qed.

Lemma columnChunkField_error :
  forall out f e, columnChunkField out f = inr e -> e = ErrExtendedDeltaMissing.
Proof.
  intros out f e H. unfold columnChunkField in H. destruct out.
  no_case_error H.
  - destruct (thriftString (Val f)) as [s [|]]; [destruct s|]; discriminate H.
  - destruct (thriftStruct (Val f)) as [sst|]; [|discriminate H].
    destruct (decodeColumnMetaData sst) as [m|e'] eqn:E; [discriminate H|].
    inversion H; subst. eapply decodeColumnMetaData_error. exact E.
Qed.

Lemma decodeColumnChunk_error :
  forall st e, decodeColumnChunk st = inr e -> e = ErrExtendedDeltaMissing.
Proof.
  intros st e H. unfold decodeColumnChunk, thriftFields in H.
  destruct (thriftFieldsLoop (Fields st) 0 []) as [fields [e'|]] eqn:E.
  - inversion H; subst. eapply thriftFieldsLoop_error. exact E.
  - apply (eachField_error _ columnChunkField
             (fun e => e = ErrExtendedDeltaMissing)
             columnChunkField_error fields zeroColumnChunk e H).
Qed.

Lemma rowGroupField_error :
  forall out f e, rowGroupField out f = inr e -> e = ErrExtendedDeltaMissing.
Proof.
  intros out f e H. unfold rowGroupField in H. destruct out.
  no_case_error H.
  destruct (thriftList (Val f)) as [lst|]; [|discriminate H].
  match type of H with
  | match ?m with _ => _ end = _ => destruct m as [a|e'] eqn:E
  end; [discriminate H|].
  inversion H; subst.
  eapply (eachElement_error _ _ (fun e => e = ErrExtendedDeltaMissing)); [|exact E].
  intros elem e0 He. cbv beta in He.
  destruct (thriftStruct (Some elem)) as [cst|];
    [|discriminate He].
  inversion He as [He']. eapply decodeColumnChunk_error. exact He'.
Qed.

Lemma decodeRowGroup_error :
  forall st e, decodeRowGroup st = inr e -> e = ErrExtendedDeltaMissing.
Proof.
  intros st e H. unfold decodeRowGroup, thriftFields in H.
  destruct (thriftFieldsLoop (Fields st) 0 []) as [fields [e'|]] eqn:E.
  - inversion H; subst. eapply thriftFieldsLoop_error. exact E.
  - apply (eachField_error _ rowGroupField
             (fun e => e = ErrExtendedDeltaMissing)
             rowGroupField_error fields zeroRowGroup e H).
Qed.

Lemma fileMetaDataField_error :
  forall out f e, fileMetaDataField out f = inr e -> e = ErrExtendedDeltaMissing.
Proof.
  intros out f e H. unfold fileMetaDataField in H. destruct out.
  no_case_error H.
  - destruct (thriftList (Val f)) as [lst|]; [|discriminate H].
    match type of H with
    | match ?m with _ => _ end = _ => destruct m as [a|e'] eqn:E
    end; [discriminate H|].
    inversion H; subst.
    eapply (eachElement_error _ _ (fun e => e = ErrExtendedDeltaMissing));
      [|exact E].
    intros elem e0 He. cbv beta in He.
    destruct (thriftStruct (Some elem)) as [sst|];
      [|discriminate He].
    inversion He as [He']. eapply decodeSchemaElement_error. exact He'.
  - destruct (thriftList (Val f)) as [lst|]; [|discriminate H].
    match type of H with
    | match ?m with _ => _ end = _ => destruct m as [a|e'] eqn:E
    end; [discriminate H|].
    inversion H; subst.
    eapply (eachElement_error _ _ (fun e => e = ErrExtendedDeltaMissing));
      [|exact E].
    intros elem e0 He. cbv beta in He.
    destruct (thriftStruct (Some elem)) as [rst|];
      [|discriminate He].
    inversion He as [He']. eapply decodeRowGroup_error. exact He'.
Qed.

Lemma decodeFileMetaData_error :
  forall st e, decodeFileMetaData st = inr e -> e = ErrExtendedDeltaMissing.
Proof.
  intros st e H. unfold decodeFileMetaData, thriftFields in H.
  destruct (thriftFieldsLoop (Fields st) 0 []) as [fields [e'|]] eqn:E.
  - inversion H; subst. eapply thriftFieldsLoop_error. exact E.
  - apply (eachField_error _ fileMetaDataField
             (fun e => e = ErrExtendedDeltaMissing)
             fileMetaDataField_error fields zeroFileMetadata e H).
Qed.

(** C2, as stated, fails.  The struct [0x18 0x01 0x41 0x00] has one field,
    id 1 of wire type 8 (binary), where the file metadata, a schema element
    and the column metadata expect an i32 and a row group a list; and
    [0x28 0x01 0x41 0x00] has id 2 of wire type 8 where a column chunk expects
    an i64.  Each mapper returns its zero value and no error. *)
Lemma C2_wrong_wire_type_is_swallowed :
  map (fun f => (ID f, Type_ f))
      (fst (thriftFields (parsedStruct [x18; x01; x41; x00]))) = [(1, 8)]
  /\ decodeFileMetaData (parsedStruct [x18; x01; x41; x00]) = inl zeroFileMetadata
  /\ decodeSchemaElement (parsedStruct [x18; x01; x41; x00]) = inl zeroSchemaElement
  /\ decodeRowGroup (parsedStruct [x18; x01; x41; x00]) = inl zeroRowGroup
  /\ decodeColumnMetaData (parsedStruct [x18; x01; x41; x00])
     = inl zeroColumnMetaData
  /\ map (fun f => (ID f, Type_ f))
         (fst (thriftFields (parsedStruct [x28; x01; x41; x00]))) = [(2, 8)]
  /\ decodeColumnChunk (parsedStruct [x28; x01; x41; x00]) = inl zeroColumnChunk.
Proof.
  repeat split; vm_compute; reflexivity.
Qed.

(** C2, amended.  A field as the parser builds it, of a wire type other
    than those its id is read under (or of an id the mapper does not know),
    is skipped by each of the five mappers: the result so far is kept and
    the next field is looked at.  No mapper has a type-mismatch error; the
    only error one returns, its own or a nested struct's passed on, is
    [thriftFields]'s "extended delta missing". *)
Theorem C2_mismatched_field_is_skipped :
  forall fuel s cf rest id,
    parse_compact_field fuel s = POk cf rest ->
    let f := mkThriftField id (uint8 (FieldType cf)) (FieldValue cf) in
    (forall out, ~ In (FieldType cf) (expectedFileMetaData id) ->
                 fileMetaDataField out f = inl out)
    /\ (forall out, ~ In (FieldType cf) (expectedSchemaElement id) ->
                    schemaElementField out f = inl out)
    /\ (forall out, ~ In (FieldType cf) (expectedRowGroup id) ->
                    rowGroupField out f = inl out)
    /\ (forall out, ~ In (FieldType cf) (expectedColumnChunk id) ->
                    columnChunkField out f = inl out)
    /\ (forall out, ~ In (FieldType cf) (expectedColumnMetaData id) ->
                    columnMetaDataField out f = inl out)
    /\ (forall st e,
          decodeFileMetaData st = inr e \/ decodeSchemaElement st = inr e
          \/ decodeRowGroup st = inr e \/ decodeColumnChunk st = inr e
          \/ decodeColumnMetaData st = inr e ->
          e = ErrExtendedDeltaMissing).
Proof.
  intros fuel s cf rest id H. cbv zeta.
  apply parse_compact_field_payload in H.
  split; [|split; [|split; [|split; [|split]]]].
  - intros out. apply fileMetaDataField_skips. exact H.
  - intros out. apply schemaElementField_skips. exact H.
  - intros out. apply rowGroupField_skips. exact H.
  - intros out. apply columnChunkField_skips. exact H.
  - intros out. apply columnMetaDataField_skips. exact H.
  - intros st e [He|[He|[He|[He|He]]]].
    + eapply decodeFileMetaData_error. exact He.
    + eapply decodeSchemaElement_error. exact He.
    + eapply decodeRowGroup_error. exact He.
    + eapply decodeColumnChunk_error. exact He.
    + eapply decodeColumnMetaData_error. exact He.
Qed.

Lemma C2_mismatched_field_is_skipped_witness :
  schemaElementField zeroSchemaElement
    (mkThriftField 1 (uint8 (FieldType (parsedField [x18; x01; x41; x00])))
       (FieldValue (parsedField [x18; x01; x41; x00])))
  = inl zeroSchemaElement.
Proof.
  destruct (C2_mismatched_field_is_skipped 5 [x18; x01; x41; x00]
              (parsedField [x18; x01; x41; x00]) [x00] 1 eq_refl)
    as [_ [Hschema _]].
  apply Hschema. vm_compute. intros [H|H]; [discriminate H | exact H].
Defined.

(** ** C10: what a page header leaves open *)

Lemma eachField_invariant :
  forall (S : Type) (step : S -> thriftField -> S + error) (P : S -> Prop)
         (fields : list thriftField),
    (forall out f out', In f fields -> P out -> step out f = inl out' -> P out') ->
    forall out res, P out -> eachField step fields out = inl res -> P res.
Proof.
  intros S step P fields. induction fields as [|f fields IH]; intros Hstep out res HP H.
  - inversion H; subst. exact HP.
  - cbn [eachField] in H. destruct (step out f) as [out'|e] eqn:E; [|discriminate H].
    eapply IH; [| |exact H].
    + intros o g o' Hin. apply Hstep. right. exact Hin.
    + eapply Hstep; [left; reflexivity | exact HP | exact E].
Qed.

Lemma whenInt_keeps :
  forall (S : Type) (P : S -> Prop) r (set : Z -> S) out out',
    (forall v, P (set v)) -> P out -> whenInt r set out = inl out' -> P out'.
Proof.
  intros S P [[v ok] [e|]] set out out' Hset HP H; cbn [whenInt] in H.
  - discriminate H.
  - destruct ok; inversion H; subst; [apply Hset | exact HP].
Qed.

(** A header struct that lacks the field keeps the zero of the named
    result. *)
Lemma decodePageHeader_lacks :
  forall st h (proj : pageHeader -> Z) (k : Z),
    (k = 1 /\ proj = numValues) \/ (k = 2 /\ proj = encoding) ->
    decodePageHeader st = inl h ->
    dataPageHeaderLacks st k ->
    proj h = 0.
Proof.
  intros st h proj k Hk H Hlack. unfold decodePageHeader in H.
  destruct (thriftFields st) as [fields [e|]] eqn:Efields; [discriminate H|].
  eapply (eachField_invariant _ pageHeaderField (fun h => proj h = 0) fields);
    [ | | exact H]; [|destruct Hk as [[_ ->]|[_ ->]]; reflexivity].
  clear H h. intros out f out' Hin HP Hstep. cbv beta in HP |- *. unfold pageHeaderField in Hstep.
  destruct out as [pt us cs nv en].
  repeat match type of Hstep with
         | (if ID f =? ?c then _ else _) = _ =>
             let E := fresh "E" in destruct (ID f =? c) eqn:E
         end;
    try (eapply (whenInt_keeps _ (fun h => proj h = 0)); [| exact HP | exact Hstep];
         intros v; cbv beta; destruct Hk as [[_ ->]|[_ ->]]; exact HP).
  - destruct (thriftStruct (Val f)) as [dphSt|] eqn:Est;
      [|inversion Hstep; subst; exact HP].
    destruct (thriftFields dphSt) as [dFields [e|]] eqn:Ed; [discriminate Hstep|].
    eapply (eachField_invariant _ dataPageHeaderField (fun h => proj h = 0)
              dFields); [ | exact HP | exact Hstep].
    clear Hstep. intros o df o' Hdin HPo Hd. cbv beta in HPo |- *.
    unfold dataPageHeaderField in Hd.
    destruct o as [pt' us' cs' nv' en'].
    apply Z.eqb_eq in E2.
    pose proof (Hlack fields f dphSt dFields df Efields Hin E2 Est Ed Hdin) as Hne.
    destruct (ID df =? 1) eqn:D1.
    + apply Z.eqb_eq in D1.
      destruct Hk as [[-> ->]|[-> ->]]; [contradiction|].
      eapply (whenInt_keeps _ (fun h => encoding h = 0)); [| exact HPo | exact Hd].
      intros v. exact HPo.
    + destruct (ID df =? 2) eqn:D2.
      * apply Z.eqb_eq in D2.
        destruct Hk as [[-> ->]|[-> ->]]; [|contradiction].
        eapply (whenInt_keeps _ (fun h => numValues h = 0));
          [| exact HPo | exact Hd].
        intros v. exact HPo.
      * inversion Hd; subst. exact HPo.
  - inversion Hstep; subst. exact HP.
Qed.

Section PageReaderProperties.

Variable snappyDecode : list byte -> option (list byte).

(** C10.  A page header whose [num_values] is zero is read under the
    chunk's [num_values], exactly as a header declaring that count is; one
    whose encoding is zero is read under the first encoding of the chunk's
    list, when there is one, exactly as a header declaring that encoding is.
    A header struct whose data page header lacks the field gives that
    zero. *)
Theorem C10_header_defaults :
  forall md schema h rbuf values totalValuesRead,
    (numValues h = 0 ->
     pageNumValues md h = NumValues md
     /\ readPage snappyDecode md schema h rbuf values totalValuesRead
        = readPage snappyDecode md schema
            (mkPageHeader (pageType h) (uncompressedSize h) (compressedSize h)
               (NumValues md) (encoding h))
            rbuf values totalValuesRead)
    /\ (encoding h = 0 ->
        forall first others, Encodings md = first :: others ->
        pageEncoding md h = first
        /\ readPage snappyDecode md schema h rbuf values totalValuesRead
           = readPage snappyDecode md schema
               (mkPageHeader (pageType h) (uncompressedSize h) (compressedSize h)
                  (numValues h) first)
               rbuf values totalValuesRead)
    /\ (forall st, decodePageHeader st = inl h ->
                   (dataPageHeaderLacks st 1 -> numValues h = 0)
                   /\ (dataPageHeaderLacks st 2 -> encoding h = 0)).
Proof.
  intros md schema h rbuf values totalValuesRead.
  split; [|split].
  - intros H.
    assert (Hnum : pageNumValues md h = NumValues md).
    { unfold pageNumValues. rewrite H. reflexivity. }
    split; [exact Hnum|].
    unfold readPage. rewrite Hnum.
    unfold pageNumValues, pageEncoding, pageBytes.
    cbn [numValues encoding compressedSize pageType uncompressedSize].
    destruct (NumValues md =? 0); reflexivity.
  - intros H first others Henc.
    assert (Hlen : (0 <? len (Encodings md)) = true).
    { rewrite Henc. apply Z.ltb_lt. unfold len. cbn [length]. lia. }
    assert (Hfirst : pageEncoding md h = first).
    { unfold pageEncoding. rewrite H, Hlen, Henc. reflexivity. }
    split; [exact Hfirst|].
    unfold readPage. rewrite Hfirst.
    unfold pageNumValues, pageEncoding, pageBytes.
    cbn [numValues encoding compressedSize pageType uncompressedSize].
    rewrite Hlen, Henc. cbn [hd]. rewrite andb_true_r.
    destruct (first =? 0); reflexivity.
  - intros st Hst. split; intros Hlack.
    + apply (decodePageHeader_lacks st h numValues 1); auto.
    + apply (decodePageHeader_lacks st h encoding 2); auto.
Qed.

End PageReaderProperties.

(** [headerBare] declares a data page of 12 bytes and an empty data page
    header.  In a chunk of three values the page is read under the count 3;
    in a chunk that lists DELTA_BINARY_PACKED first, a page of six bytes is
    read by the delta decoder. *)
Example readColumnValues_header_without_count :
  decodePageHeader (parsedStruct headerBare) = inl (mkPageHeader 0 12 12 0 0)
  /\ readColumnValues noSnappy (headerBare ++ body3) (int32Chunk 0 3 21) int32Column
     = Returns ([VInt32 1; VInt32 2; VInt32 3], None).
Proof. split; vm_compute; reflexivity. Qed.

Example readColumnValues_header_without_encoding :
  readColumnValues noSnappy
    ([x15; x00; x15; x0c; x15; x0c; x2c; x00; x00]
       ++ [x00; x00; x02; x02; x02; x00])
    (mkColumnChunk [] 0 (Some (mkColumnMetaData 2 [5; 0] [] 0 2 15 15 0 None)))
    int32Column
  = Returns ([VInt64 1; VInt64 2], None).
Proof. vm_compute. reflexivity. Qed.

Lemma C10_header_defaults_witness :
  pageNumValues (int32Meta 0 3 21) (mkPageHeader 0 12 12 0 0) = 3
  /\ readPage noSnappy (int32Meta 0 3 21) int32Column (mkPageHeader 0 12 12 0 0)
       body3 [] 0
     = readPage noSnappy (int32Meta 0 3 21) int32Column (mkPageHeader 0 12 12 3 0)
         body3 [] 0.
Proof.
  destruct (C10_header_defaults noSnappy (int32Meta 0 3 21) int32Column
              (mkPageHeader 0 12 12 0 0) body3 [] 0) as [Hnum _].
  apply Hnum. reflexivity.
Defined.


(** ** The value decoders never return more than they are asked for *)

Lemma deltaLoop_length :
  forall fuel numValues reader currentValue values,
    len (deltaLoop fuel numValues reader currentValue values)
    <= Z.max (len values) numValues.
Proof.
  induction fuel as [|fuel IH]; intros numValues reader currentValue values.
  - cbn [deltaLoop]. lia.
  - cbn [deltaLoop].
    destruct (len values <? numValues) eqn:E; cbn [andb]; [|lia].
    apply Z.ltb_lt in E.
    destruct (offset reader <? len (data reader) - 1); [|lia].
    destruct (readVarint reader) as [[delta [e|]] reader']; [lia|].
    match goal with
    | |- len (deltaLoop _ _ _ ?c ?v) <= _ =>
        specialize (IH numValues reader' c v)
    end.
    rewrite len_app, len_one in IH. lia.
Qed.

Lemma decodeDeltaBinaryPacked_length :
  forall data dataType numValues vs err,
    decodeDeltaBinaryPacked data dataType numValues = Returns (vs, err) ->
    len vs <= Z.max 1 numValues.
Proof.
  intros d dataType numValues vs err H. unfold decodeDeltaBinaryPacked in H.
  destruct (len d <? 5); [inversion H; subst; rewrite len_nil; lia|].
  repeat match type of H with
         | match ?r with _ => _ end = _ =>
             destruct r as [[? [?|]] ?];
             [inversion H; subst; rewrite len_nil; lia|]
         end.
  apply bindO_returns in H. destruct H as [_ [_ H]]. inversion H; subst.
  match goal with
  | |- len (deltaLoop ?f ?n ?r ?c ?v) <= _ =>
      pose proof (deltaLoop_length f n r c v) as L
  end.
  rewrite len_one in L. lia.
Qed.

Lemma parseDataPageWithEncoding_length :
  forall data dataType encoding numValues repetitionType maxDefinitionLevel vs err,
    parseDataPageWithEncoding data dataType encoding numValues repetitionType
      maxDefinitionLevel = Returns (vs, err) ->
    len vs <= Z.max 1 numValues.
Proof.
  intros d dataType enc nv rt mdl vs err H.
  unfold parseDataPageWithEncoding in H.
  apply bindO_returns in H. destruct H as [pageData [_ H]].
  unfold decodeValues in H.
  assert (Hplain : forall r, Returns (decodePlainValues pageData dataType nv)
                             = Returns r -> len (fst r) <= Z.max 1 nv).
  { intros r Hr. inversion Hr; subst.
    pose proof (decodePlainValues_length pageData dataType nv). lia. }
  destruct (enc =? 0); [apply (Hplain _ H)|].
  destruct (enc =? 5); [|apply (Hplain _ H)].
  eapply decodeDeltaBinaryPacked_length. exact H.
Qed.

(** ** The count a page header can declare *)

Lemma int32_range : forall z, - 2 ^ 31 <= int32 z < 2 ^ 31.
Proof. intros z. apply (swrap_range 32 z). lia. Qed.

Lemma whenInt_thriftI32_range :
  forall (S : Type) val (set : Z -> S) out out',
    whenInt (thriftI32 val) set out = inl out' ->
    out' = out \/ exists v, - 2 ^ 31 <= v < 2 ^ 31 /\ out' = set v.
Proof.
  intros S val set out out' H. unfold thriftI32 in H.
  destruct val as [v|]; [destruct (I32Value v) as [x|]|]; cbn [whenInt] in H;
    inversion H; subst; [right|left; reflexivity|left; reflexivity].
  exists (int32 (VarintZ_Value x)). split; [apply int32_range | reflexivity].
Qed.

Lemma decodePageHeader_numValues :
  forall st h, decodePageHeader st = inl h -> declaresInt32 h.
Proof.
  intros st h H. unfold decodePageHeader in H.
  destruct (thriftFields st) as [fields [e|]]; [discriminate H|].
  eapply (eachField_invariant _ pageHeaderField declaresInt32 fields);
    [ | | exact H]; [|unfold declaresInt32; cbn; lia].
  clear H h. intros out f out' _ HP Hstep. unfold pageHeaderField in Hstep.
  destruct out as [pt us cs nv en].
  repeat match type of Hstep with
         | (if ?c then _ else _) = _ => destruct c
         end;
    try (apply whenInt_thriftI32_range in Hstep;
         destruct Hstep as [->|[v [_ ->]]]; exact HP).
  - destruct (thriftStruct (Val f)) as [dphSt|];
      [|inversion Hstep; subst; exact HP].
    destruct (thriftFields dphSt) as [dFields [e|]]; [discriminate Hstep|].
    eapply (eachField_invariant _ dataPageHeaderField declaresInt32 dFields);
      [ | exact HP | exact Hstep].
    clear Hstep. intros o df o' _ HPo Hd. unfold dataPageHeaderField in Hd.
    destruct o as [pt' us' cs' nv' en'].
    repeat match type of Hd with
           | (if ?c then _ else _) = _ => destruct c
           end.
    + apply whenInt_thriftI32_range in Hd.
      destruct Hd as [->|[v [Hv ->]]]; [exact HPo|].
      unfold declaresInt32. cbn [numValues].
      rewrite int64_small by lia. exact Hv.
    + apply whenInt_thriftI32_range in Hd.
      destruct Hd as [->|[v [_ ->]]]; exact HPo.
    + inversion Hd; subst. exact HPo.
  - inversion Hstep; subst. exact HP.
Qed.

Section ColumnReadProperties.

Variable snappyDecode : list byte -> option (list byte).

(** ** One round of the page loop *)

Lemma pageNumValues_bound :
  forall md h, declaresInt32 h -> Z.max 1 (pageNumValues md h) <= pageBound md.
Proof.
  intros md h Hh. unfold pageNumValues, pageBound, declaresInt32 in *.
  destruct (numValues h =? 0); lia.
Qed.

(** A round keeps the values it was given, and adds those of one page at
    most. *)
Lemma readPage_next :
  forall md schema h rbuf values totalValuesRead rbuf' values' total',
    declaresInt32 h ->
    totalValuesRead = len values ->
    readPage snappyDecode md schema h rbuf values totalValuesRead
    = Returns (Next rbuf' values' total') ->
    exists pageValues,
      values' = values ++ pageValues
      /\ total' = len values'
      /\ len pageValues <= pageBound md.
Proof.
  intros md schema h rbuf values total rbuf' values' total' Hh Htotal H.
  assert (Hkeep : exists pageValues : list value,
             values = values ++ pageValues /\ total = len values
             /\ len pageValues <= pageBound md).
  { exists []. rewrite app_nil_r, len_nil. unfold pageBound. repeat split; [exact Htotal | lia]. }
  unfold readPage in H.
  destruct (compressedSize h <=? 0); [discriminate H|].
  destruct (pageType h =? 0).
  - apply bindO_returns in H. destruct H as [[pageValues err] [Hparse H]].
    destruct err as [e|].
    + inversion H; subst. exact Hkeep.
    + destruct (0 <? len pageValues).
      * inversion H; subst. exists pageValues.
        split; [reflexivity|]. split; [rewrite len_app; reflexivity|].
        apply parseDataPageWithEncoding_length in Hparse.
        pose proof (pageNumValues_bound md h Hh). lia.
      * inversion H; subst. exact Hkeep.
  - inversion H; subst. exact Hkeep.
Qed.

Lemma readRound_next :
  forall md schema rbuf values totalValuesRead rbuf' values' total',
    totalValuesRead = len values ->
    readRound snappyDecode md schema rbuf values totalValuesRead
    = Returns (Next rbuf' values' total') ->
    exists pageValues,
      values' = values ++ pageValues
      /\ total' = len values'
      /\ len pageValues <= pageBound md.
Proof.
  intros md schema rbuf values total rbuf' values' total' Htotal H.
  unfold readRound in H. apply bindO_returns in H.
  destruct H as [[[[headerStruct consumed] err] rbuf0] [_ H]].
  destruct err as [e|]; [discriminate H|].
  destruct headerStruct as [headerStruct|]; [|discriminate H].
  destruct (decodePageHeader headerStruct) as [h|e] eqn:Eh; [|discriminate H].
  eapply readPage_next; [|exact Htotal|exact H].
  eapply decodePageHeader_numValues. exact Eh.
Qed.

Lemma pageLoop_lastPageOnly :
  forall pagesLeft md schema rbuf values vs,
    lastPageOnly md values ->
    pageLoop snappyDecode pagesLeft md schema rbuf values (len values)
    = Returns vs ->
    lastPageOnly md vs.
Proof.
  induction pagesLeft as [|pagesLeft IH]; intros md schema rbuf values vs Hinv H.
  - inversion H; subst. exact Hinv.
  - cbn [pageLoop] in H.
    destruct (len values <? NumValues md) eqn:Elt;
      [|inversion H; subst; exact Hinv].
    apply Z.ltb_lt in Elt.
    apply bindO_returns in H. destruct H as [step [Hround H]].
    destruct step as [|rbuf' values' total']; [inversion H; subst; exact Hinv|].
    apply readRound_next in Hround; [|reflexivity].
    destruct Hround as [pageValues [Hvalues [Htotal Hbound]]].
    assert (Hinv' : lastPageOnly md values').
    { exists values, pageValues. split; [exact Hvalues|]. split; [lia | exact Hbound]. }
    destruct (NumValues md <=? total'); [inversion H; subst; exact Hinv'|].
    rewrite Htotal in H. eapply IH; [exact Hinv' | exact H].
Qed.

Lemma pageLoop_nothing_to_read :
  forall pagesLeft md schema rbuf values totalValuesRead,
    NumValues md <= totalValuesRead ->
    pageLoop snappyDecode pagesLeft md schema rbuf values totalValuesRead
    = Returns values.
Proof.
  intros pagesLeft md schema rbuf values total H.
  destruct pagesLeft as [|pagesLeft]; [reflexivity|]. cbn [pageLoop].
  apply Z.ltb_ge in H. rewrite H. reflexivity.
Qed.

(** ** C3: the number of values returned *)

(** C3, amended.  For a column chunk with metadata, whatever
    [readColumnValues] returns splits into the values gathered before the
    last page that added any, fewer than the chunk's [num_values], and the
    values of that page, at most its declared count: a 32-bit count of its
    own, or the chunk's.  Nothing is returned when [num_values] is not
    positive. *)
Theorem C3_only_last_page_may_overshoot :
  forall file chunk schema md vs err,
    MetaData chunk = Some md ->
    readColumnValues snappyDecode file chunk schema = Returns (vs, err) ->
    (exists before last,
        vs = before ++ last
        /\ len before < Z.max 1 (NumValues md)
        /\ len last <= Z.max (NumValues md) (2 ^ 31 - 1))
    /\ (NumValues md <= 0 -> vs = []).
Proof.
  intros file chunk schema md vs err Hmd H.
  unfold readColumnValues in H. rewrite Hmd in H.
  apply bindO_returns in H. destruct H as [values [Hloop H]].
  inversion H; subst. split.
  - change 0 with (len (@nil value)) in Hloop.
    apply pageLoop_lastPageOnly in Hloop; [exact Hloop|].
    exists [], []. rewrite len_nil. unfold pageBound. repeat split; lia.
  - intros Hnone. rewrite pageLoop_nothing_to_read in Hloop by lia.
    inversion Hloop. reflexivity.
Qed.

(** ** C4: what a failing page does to the loop *)

Lemma pageLoop_break :
  forall pagesLeft md schema rbuf values totalValuesRead,
    readRound snappyDecode md schema rbuf values totalValuesRead = Returns Break ->
    pageLoop snappyDecode (S pagesLeft) md schema rbuf values totalValuesRead
    = Returns values.
Proof.
  intros pagesLeft md schema rbuf values total H. cbn [pageLoop].
  destruct (total <? NumValues md); [|reflexivity].
  rewrite H. reflexivity.
Qed.

(** C4, amended.  While values are still missing: a page header that
    cannot be parsed, or cannot be interpreted, ends the loop, and the values
    gathered so far are returned.  A body that fails to decompress is decoded
    as it was read.  A data page whose values fail to decode adds nothing, and
    the loop goes on behind its body.  Whatever the pages do, a chunk with
    metadata never gets an error back. *)
Theorem C4_page_failures :
  forall pagesLeft md schema rbuf values totalValuesRead,
    totalValuesRead < NumValues md ->
    (forall st consumed e rbuf',
        parseCompactStructFromBufio rbuf (64 * 1024)
        = Returns (st, consumed, Some e, rbuf') ->
        pageLoop snappyDecode (S pagesLeft) md schema rbuf values totalValuesRead
        = Returns values)
    /\ (forall st consumed rbuf' e,
           parseCompactStructFromBufio rbuf (64 * 1024)
           = Returns (Some st, consumed, None, rbuf') ->
           decodePageHeader st = inr e ->
           pageLoop snappyDecode (S pagesLeft) md schema rbuf values totalValuesRead
           = Returns values)
    /\ (forall h compressedData d e,
           decompressData snappyDecode compressedData (Codec md) (uncompressedSize h)
           = (d, Some e) ->
           pageBytes snappyDecode md h compressedData = compressedData)
    /\ (forall st consumed rbuf' h pageValues e,
           parseCompactStructFromBufio rbuf (64 * 1024)
           = Returns (Some st, consumed, None, rbuf') ->
           decodePageHeader st = inl h ->
           0 < compressedSize h -> pageType h = 0 ->
           parseDataPageWithEncoding
             (pageBytes snappyDecode md h
                (firstn (Z.to_nat (compressedSize h)) rbuf'))
             (SType schema) (pageEncoding md h) (pageNumValues md h)
             (RepetitionType schema) (maxDefinitionLevelOf schema)
           = Returns (pageValues, Some e) ->
           pageLoop snappyDecode (S pagesLeft) md schema rbuf values totalValuesRead
           = pageLoop snappyDecode pagesLeft md schema
               (skipn (Z.to_nat (compressedSize h)) rbuf') values totalValuesRead)
    /\ (forall file chunk vs err,
           MetaData chunk = Some md ->
           readColumnValues snappyDecode file chunk schema = Returns (vs, err) ->
           err = None).
Proof.
  intros pagesLeft md schema rbuf values total Hmissing.
  assert (Hlt : (total <? NumValues md) = true) by (apply Z.ltb_lt; exact Hmissing).
  split; [|split; [|split; [|split]]].
  - intros st consumed e rbuf' Hparse. apply pageLoop_break.
    unfold readRound. rewrite Hparse. reflexivity.
  - intros st consumed rbuf' e Hparse Hheader. apply pageLoop_break.
    unfold readRound. rewrite Hparse. cbn [bindO]. rewrite Hheader. reflexivity.
  - intros h compressedData d e Hdec. unfold pageBytes. rewrite Hdec. reflexivity.
  - intros st consumed rbuf' h pageValues e Hparse Hheader Hsize Htype Hvalues.
    cbn [pageLoop]. rewrite Hlt. unfold readRound. rewrite Hparse.
    cbn [bindO]. rewrite Hheader. unfold readPage.
    assert (Hs : (compressedSize h <=? 0) = false) by (apply Z.leb_gt; exact Hsize).
    rewrite Hs, Htype. change (0 =? 0) with true. cbv iota.
    rewrite Hvalues. cbn [bindO].
    assert (Hge : (NumValues md <=? total) = false) by (apply Z.leb_gt; exact Hmissing).
    rewrite Hge. reflexivity.
  - intros file chunk vs err Hmd H. unfold readColumnValues in H.
    rewrite Hmd in H. apply bindO_returns in H. destruct H as [v [_ H]].
    inversion H. reflexivity.
Qed.

End ColumnReadProperties.

(** ** C3 and C4 on concrete chunks *)

(** C3, as stated, fails.  The chunk declares one value; its only page
    declares three and holds three; three are returned. *)
Lemma C3_page_declares_more_than_chunk :
  NumValues (int32Meta 0 1 25) = 1
  /\ readColumnValues noSnappy (header3 ++ body3) (int32Chunk 0 1 25) int32Column
     = Returns ([VInt32 1; VInt32 2; VInt32 3], None)
  /\ 1 < len [VInt32 1; VInt32 2; VInt32 3].
Proof.
  split; [reflexivity|]. split; [vm_compute; reflexivity | reflexivity].
Qed.

Lemma C3_only_last_page_may_overshoot_witness :
  (exists before last,
      [VInt32 1; VInt32 2; VInt32 3] = before ++ last
      /\ len before < Z.max 1 (NumValues (int32Meta 0 1 25))
      /\ len last <= Z.max (NumValues (int32Meta 0 1 25)) (2 ^ 31 - 1))
  /\ (NumValues (int32Meta 0 1 25) <= 0 -> [VInt32 1; VInt32 2; VInt32 3] = []).
Proof.
  apply (C3_only_last_page_may_overshoot noSnappy (header3 ++ body3)
           (int32Chunk 0 1 25) int32Column (int32Meta 0 1 25)
           [VInt32 1; VInt32 2; VInt32 3] None).
  - reflexivity.
  - vm_compute. reflexivity.
Defined.

(** C4, as stated, fails.  The first page of the chunk fails to decode (a
    delta page of three bytes); the loop goes on, and the two values of the
    second page are returned, not the none gathered before the failure.  And
    under a codec that cannot be decompressed (GZIP, 2) the page is decoded
    from the bytes as read. *)
Lemma C4_loop_survives_page_failures :
  parseDataPageWithEncoding bodyDelta 1 5 2 None 0
  = Returns ([], Some ErrDeltaInsufficient)
  /\ readColumnValues noSnappy (headerDelta ++ bodyDelta ++ header2 ++ body2)
       (int32Chunk 0 2 37) int32Column
     = Returns ([VInt32 7; VInt32 9], None)
  /\ decompressData noSnappy body3 2 12 = ([], Some ErrUnsupportedCodec)
  /\ readColumnValues noSnappy (header3 ++ body3) (int32Chunk 2 3 25) int32Column
     = Returns ([VInt32 1; VInt32 2; VInt32 3], None).
Proof.
  repeat split; vm_compute; reflexivity.
Qed.

(** The witness: an exhausted stream ends the loop with what was gathered;
    the failing delta page is passed over. *)
Lemma C4_page_failures_witness :
  pageLoop noSnappy 100 (int32Meta 0 2 37) int32Column [] [VInt32 5] 1
  = Returns [VInt32 5]
  /\ pageLoop noSnappy 100 (int32Meta 0 2 37) int32Column
       (headerDelta ++ bodyDelta ++ header2 ++ body2) [] 0
     = pageLoop noSnappy 99 (int32Meta 0 2 37) int32Column
         (skipn (Z.to_nat 3) (bodyDelta ++ header2 ++ body2)) [] 0.
Proof.
  split.
  - destruct (C4_page_failures noSnappy 99 (int32Meta 0 2 37) int32Column
                [] [VInt32 5] 1 eq_refl) as [Hparse _].
    apply (Hparse None 0 EOF []). reflexivity.
  - destruct (C4_page_failures noSnappy 99 (int32Meta 0 2 37) int32Column
                (headerDelta ++ bodyDelta ++ header2 ++ body2) [] 0 eq_refl)
      as [_ [_ [_ [Hvalues _]]]].
    apply (Hvalues (parsedStruct headerDelta) 13 (bodyDelta ++ header2 ++ body2)
             (mkPageHeader 0 3 3 2 5) [] ErrDeltaInsufficient).
    + vm_compute. reflexivity.
    + vm_compute. reflexivity.
    + reflexivity.
    + reflexivity.
    + vm_compute. reflexivity.
Defined.

(** ** The loop bounds are never reached *)

(** Each loop of the model that runs on a counter of its own gives the same
    result under any counter large enough: the counter does not cut the loop
    of the source short. *)

Lemma uvarintLoop_nonneg :
  forall buf i x s u n,
    0 <= x -> uvarintLoop buf i x s = (u, n) -> 0 <= u.
Proof.
  induction buf as [|b buf IH]; intros i x s u n Hx H.
  - inversion H. lia.
  - cbn [uvarintLoop] in H.
    destruct (i =? 10); [inversion H; lia|].
    destruct (b2z b <? 128).
    + destruct ((i =? 9) && (1 <? b2z b)); inversion H; subst; [lia|].
      apply Z.lor_nonneg. split; [exact Hx | apply uint64_range].
    + eapply IH; [|exact H].
      apply Z.lor_nonneg. split; [exact Hx | apply uint64_range].
Qed.

Lemma Uvarint_nonneg : forall buf u n, Uvarint buf = (u, n) -> 0 <= u.
Proof.
  intros buf u n H. unfold Uvarint in H.
  eapply uvarintLoop_nonneg; [|exact H]. lia.
Qed.

Lemma byteCount_nonneg :
  forall count bitWidth, 0 <= count -> 0 <= bitWidth ->
    0 <= (count * 8 * bitWidth + 7) / 8.
Proof. intros count bitWidth Hc Hb. apply Z.div_pos; nia. Qed.

Lemma rleLoop_enough_fuel :
  forall fuel fuel' src numValues bitWidth i dst,
    0 <= bitWidth ->
    len src <= i + Z.of_nat fuel -> len src <= i + Z.of_nat fuel' ->
    rleLoop fuel src numValues bitWidth i dst
    = rleLoop fuel' src numValues bitWidth i dst.
Proof.
  induction fuel as [|fuel IH]; intros fuel' src numValues bitWidth i dst Hbw Hf Hf'.
  - cbn [rleLoop]. symmetry. apply rleLoop_exit. left. lia.
  - destruct fuel' as [|fuel'].
    + transitivity (dst, @None error); [|reflexivity].
      apply rleLoop_exit. left. lia.
    + cbn [rleLoop].
      destruct ((i <? len src) && (len dst <? numValues)); [|reflexivity].
      destruct (Uvarint (from src i)) as [u n] eqn:Eu.
      pose proof (Uvarint_nonneg _ _ _ Eu) as Hu.
      destruct (n =? 0) eqn:E0; [reflexivity|].
      destruct (n <? 0) eqn:E1; [reflexivity|].
      apply Z.eqb_neq in E0. apply Z.ltb_ge in E1.
      destruct (maxSupportedValueCount <? Z.shiftr u 1); [reflexivity|].
      assert (Hcount : 0 <= Z.shiftr u 1) by (apply Z.shiftr_nonneg; exact Hu).
      destruct (negb (Z.land u 1 =? 0)).
      * pose proof (byteCount_nonneg _ _ Hcount Hbw) as Hbytes.
        destruct (len src <? i + n + (Z.shiftr u 1 * 8 * bitWidth + 7) / 8);
          [reflexivity|].
        apply IH; [exact Hbw | lia | lia].
      * destruct (negb (bitWidth =? 0) && (len src <? i + n + 1)); [reflexivity|].
        destruct (negb (bitWidth =? 0)); apply IH; solve [exact Hbw | lia].
Qed.

Lemma rleOffsetLoop_exit :
  forall fuel src numValues bitWidth i dst bytesRead,
    len src <= i \/ numValues <= len dst ->
    rleOffsetLoop fuel src numValues bitWidth i dst bytesRead
    = (dst, bytesRead, None).
Proof.
  intros fuel src numValues bitWidth i dst bytesRead H.
  destruct fuel as [|fuel]; [reflexivity|]. cbn [rleOffsetLoop].
  destruct H as [H|H].
  - apply Z.ltb_ge in H. rewrite H. reflexivity.
  - apply Z.ltb_ge in H. rewrite H. rewrite andb_false_r. reflexivity.
Qed.

Lemma rleOffsetLoop_enough_fuel :
  forall fuel fuel' src numValues bitWidth i dst bytesRead,
    0 <= bitWidth ->
    len src <= i + Z.of_nat fuel -> len src <= i + Z.of_nat fuel' ->
    rleOffsetLoop fuel src numValues bitWidth i dst bytesRead
    = rleOffsetLoop fuel' src numValues bitWidth i dst bytesRead.
Proof.
  induction fuel as [|fuel IH];
    intros fuel' src numValues bitWidth i dst bytesRead Hbw Hf Hf'.
  - cbn [rleOffsetLoop]. symmetry. apply rleOffsetLoop_exit. left. lia.
  - destruct fuel' as [|fuel'].
    + transitivity (dst, bytesRead, @None error); [|reflexivity].
      apply rleOffsetLoop_exit. left. lia.
    + cbn [rleOffsetLoop].
      destruct ((i <? len src) && (len dst <? numValues)); [|reflexivity].
      destruct (Uvarint (from src i)) as [u n] eqn:Eu.
      pose proof (Uvarint_nonneg _ _ _ Eu) as Hu.
      destruct (n =? 0) eqn:E0; [reflexivity|].
      destruct (n <? 0) eqn:E1; [reflexivity|].
      apply Z.eqb_neq in E0. apply Z.ltb_ge in E1.
      destruct (maxSupportedValueCount <? Z.shiftr u 1); [reflexivity|].
      assert (Hcount : 0 <= Z.shiftr u 1) by (apply Z.shiftr_nonneg; exact Hu).
      destruct (negb (Z.land u 1 =? 0)).
      * pose proof (byteCount_nonneg _ _ Hcount Hbw) as Hbytes.
        destruct (len src <? i + n + (Z.shiftr u 1 * 8 * bitWidth + 7) / 8);
          [reflexivity|].
        match goal with
        | |- (if ?c then _ else _) = _ => destruct c; [reflexivity|]
        end.
        apply IH; [exact Hbw | lia | lia].
      * destruct (negb (bitWidth =? 0) && (len src <? i + n + 1)); [reflexivity|].
        match goal with
        | |- (if ?c then _ else _) = _ => destruct c; [reflexivity|]
        end.
        destruct (negb (bitWidth =? 0)); apply IH; solve [exact Hbw | lia].
Qed.

(** A varint read moves the offset on. *)
Lemma varintLoop_advances :
  forall rest offset result shift u off,
    varintLoop rest offset result shift = inl (u, off) -> offset < off.
Proof.
  induction rest as [|b rest IH]; intros offset result shift u off H.
  - discriminate H.
  - cbn [varintLoop] in H. destruct (Z.land (b2z b) 128 =? 0).
    + inversion H; subst. lia.
    + destruct (64 <=? shift + 7); [discriminate H|].
      apply IH in H. lia.
Qed.

Lemma deltaLoop_exit :
  forall fuel numValues reader currentValue values,
    len (data reader) - 1 <= offset reader ->
    deltaLoop fuel numValues reader currentValue values = values.
Proof.
  intros fuel numValues reader currentValue values H.
  destruct fuel as [|fuel]; [reflexivity|]. cbn [deltaLoop].
  apply Z.ltb_ge in H. rewrite H. rewrite andb_false_r. reflexivity.
Qed.

Lemma deltaLoop_enough_fuel :
  forall fuel fuel' numValues reader currentValue values,
    len (data reader) <= offset reader + Z.of_nat fuel ->
    len (data reader) <= offset reader + Z.of_nat fuel' ->
    deltaLoop fuel numValues reader currentValue values
    = deltaLoop fuel' numValues reader currentValue values.
Proof.
  induction fuel as [|fuel IH];
    intros fuel' numValues reader currentValue values Hf Hf'.
  - cbn [deltaLoop]. symmetry. apply deltaLoop_exit. lia.
  - destruct fuel' as [|fuel'].
    + transitivity values; [|reflexivity].
      apply deltaLoop_exit. lia.
    + cbn [deltaLoop].
      destruct ((len values <? numValues)
                && (offset reader <? len (data reader) - 1)); [|reflexivity].
      unfold readVarint.
      destruct (varintLoop (from (data reader) (offset reader)) (offset reader) 0 0)
        as [[u off]|e] eqn:E; [|reflexivity].
      apply varintLoop_advances in E.
      apply IH; cbn [data offset]; lia.
Qed.

(** ** The parser's depth budget is never reached *)

Lemma bindP_ok :
  forall (A B : Type) (m : parsed A) (k : A -> list byte -> parsed B) b rest,
    bindP m k = POk b rest ->
    exists a rest', m = POk a rest' /\ k a rest' = POk b rest.
Proof.
  intros A B m k b rest H. destruct m as [a rest'| |]; try discriminate H.
  exists a, rest'. split; [reflexivity | exact H].
Qed.

Lemma bindP_deep :
  forall (A B : Type) (m : parsed A) (k : A -> list byte -> parsed B),
    bindP m k = PDeep ->
    m = PDeep \/ exists a rest', m = POk a rest' /\ k a rest' = PDeep.
Proof.
  intros A B m k H. destruct m as [a rest'| |]; try discriminate H.
  - right. exists a, rest'. split; [reflexivity | exact H].
  - left. reflexivity.
Qed.

Section Lengths.

Context {A : Type}.

Lemma shrinks_keeps :
  forall item : list byte -> parsed A, shrinks item -> keeps item.
Proof. intros item H s a rest E. apply H in E. lia. Qed.

Lemma repeatExpr_keeps :
  forall (item : list byte -> parsed A) n s acc l rest,
    keeps item ->
    repeatExpr item n s acc = POk l rest -> (length rest <= length s)%nat.
Proof.
  intros item n. induction n as [|n IH]; intros s acc l rest Hitem H.
  - inversion H; subst. lia.
  - cbn [repeatExpr] in H. apply bindP_ok in H.
    destruct H as [a [rest' [Ha H]]]. apply Hitem in Ha.
    apply IH in H; [lia | exact Hitem].
Qed.

Lemma repeatExpr_not_deep :
  forall (item : list byte -> parsed A) n s acc,
    keeps item ->
    (forall s', (length s' <= length s)%nat -> item s' <> PDeep) ->
    repeatExpr item n s acc <> PDeep.
Proof.
  intros item n. induction n as [|n IH]; intros s acc Hkeeps Hitem H.
  - discriminate H.
  - cbn [repeatExpr] in H. apply bindP_deep in H.
    destruct H as [H|[a [rest' [Ha H]]]].
    + apply (Hitem s); [lia | exact H].
    + apply Hkeeps in Ha. revert H. apply IH; [exact Hkeeps|].
      intros s' Hs'. apply Hitem. lia.
Qed.

Lemma repeatUntil_shrinks :
  forall (item : list byte -> parsed A) stop k s acc l rest,
    shrinks item ->
    repeatUntil item stop k s acc = POk l rest -> (length rest < length s)%nat.
Proof.
  intros item stop k. induction k as [|k IH]; intros s acc l rest Hitem H.
  - discriminate H.
  - cbn [repeatUntil] in H. apply bindP_ok in H.
    destruct H as [a [rest' [Ha H]]]. apply Hitem in Ha.
    destruct (stop a).
    + inversion H; subst. exact Ha.
    + apply IH in H; [lia | exact Hitem].
Qed.

Lemma repeatUntil_not_deep :
  forall (item : list byte -> parsed A) stop k s acc,
    shrinks item ->
    (forall s', (length s' <= length s)%nat -> item s' <> PDeep) ->
    repeatUntil item stop k s acc <> PDeep.
Proof.
  intros item stop k. induction k as [|k IH]; intros s acc Hshrinks Hitem H.
  - discriminate H.
  - cbn [repeatUntil] in H. apply bindP_deep in H.
    destruct H as [H|[a [rest' [Ha H]]]].
    + apply (Hitem s); [lia | exact H].
    + apply Hshrinks in Ha. destruct (stop a); [discriminate H|].
      revert H. apply IH; [exact Hshrinks|].
      intros s' Hs'. apply Hitem. lia.
Qed.

(** The counter of [repeat: until] does not cut the loop short. *)
Lemma repeatUntil_enough :
  forall (item : list byte -> parsed A) stop k k' s acc,
    shrinks item ->
    (length s < k)%nat -> (length s < k')%nat ->
    repeatUntil item stop k s acc = repeatUntil item stop k' s acc.
Proof.
  intros item stop k. induction k as [|k IH]; intros k' s acc Hitem Hk Hk'.
  - lia.
  - destruct k' as [|k']; [lia|]. cbn [repeatUntil].
    destruct (item s) as [a rest| |] eqn:E; cbn [bindP]; try reflexivity.
    apply Hitem in E. destruct (stop a); [reflexivity|].
    apply IH; [exact Hitem | lia | lia].
Qed.

End Lengths.

Lemma read_u1_shrinks : shrinks read_u1.
Proof.
  intros s a rest H. destruct s as [|b s]; [discriminate H|].
  inversion H; subst. cbn [length]. lia.
Qed.

Lemma read_bytes_keeps : forall n, keeps (read_bytes n).
Proof.
  intros n s a rest H. unfold read_bytes in H.
  destruct (n <? 0); [discriminate H|].
  destruct (len s <? n); [discriminate H|].
  inversion H; subst. rewrite length_skipn. lia.
Qed.

Lemma read_varint_bytes_shrinks :
  forall acc, shrinks (fun s => read_varint_bytes s acc).
Proof.
  intros acc s. revert acc. induction s as [|b s IH]; intros acc a rest H.
  - discriminate H.
  - cbn [read_varint_bytes] in H. destruct (Z.land (b2z b) 128 =? 0).
    + inversion H; subst. cbn [length]. lia.
    + apply IH in H. cbn [length]. lia.
Qed.

Lemma parse_varint_u_shrinks : shrinks parse_varint_u.
Proof.
  intros s a rest H. unfold parse_varint_u in H. apply bindP_ok in H.
  destruct H as [bytes [rest' [Hb H]]]. inversion H; subst.
  apply (read_varint_bytes_shrinks [] s bytes rest Hb).
Qed.

Lemma parse_varint_z_shrinks : shrinks parse_varint_z.
Proof.
  intros s a rest H. unfold parse_varint_z in H. apply bindP_ok in H.
  destruct H as [bytes [rest' [Hb H]]]. inversion H; subst.
  apply (read_varint_bytes_shrinks [] s bytes rest Hb).
Qed.

Lemma parse_compact_string_shrinks : shrinks parse_compact_string.
Proof.
  intros s a rest H. unfold parse_compact_string in H. apply bindP_ok in H.
  destruct H as [l [rest1 [Hl H]]]. apply bindP_ok in H.
  destruct H as [v [rest2 [Hv H]]]. inversion H; subst.
  apply parse_varint_u_shrinks in Hl. apply read_bytes_keeps in Hv. lia.
Qed.

(** An optional [seq] entry, under its [if:]. *)
Lemma optional_keeps :
  forall (A : Type) (c : bool) (item : list byte -> parsed A) s o rest,
    keeps item ->
    (if c then bindP (item s) (fun v rest => POk (Some v) rest) else POk None s)
    = POk o rest ->
    (length rest <= length s)%nat.
Proof.
  intros A c item s o rest Hitem H. destruct c.
  - apply bindP_ok in H. destruct H as [v [rest' [Hv H]]].
    inversion H; subst. apply Hitem in Hv. exact Hv.
  - inversion H; subst. lia.
Qed.

Lemma optional_not_deep :
  forall (A : Type) (c : bool) (item : list byte -> parsed A) s,
    item s <> PDeep ->
    (if c then bindP (item s) (fun v rest => POk (Some v) rest) else POk None s)
    <> PDeep.
Proof.
  intros A c item s Hitem H. destruct c; [|discriminate H].
  apply bindP_deep in H. destruct H as [H|[v [rest' [_ H]]]];
    [contradiction | discriminate H].
Qed.

Ltac value_leaf H lemma :=
  apply bindP_ok in H;
  let a := fresh "a" in let r := fresh "r" in
  let Ha := fresh "Ha" in
  destruct H as [a [r [Ha H]]]; inversion H; subst;
  apply lemma in Ha; lia.

Lemma parse_lengths : forall fuel, parserLengths fuel.
Proof.
  induction fuel as [|fuel [IHv [IHl [IHm [IHs IHf]]]]].
  - repeat split; intros; intros s a rest H; discriminate H.
  - unfold parserLengths. split; [|split; [|split; [|split]]].
    + intros t s a rest H. cbn [parse_compact_value] in H.
      repeat match type of H with
             | (if ?c then _ else _) = _ => destruct c
             end;
        try (value_leaf H read_u1_shrinks);
        try (value_leaf H parse_varint_z_shrinks);
        try (value_leaf H (read_bytes_keeps 8));
        try (value_leaf H parse_compact_string_shrinks);
        try (value_leaf H IHl);
        try (value_leaf H IHm);
        try (value_leaf H IHs).
      inversion H; subst. lia.
    + intros s a rest H. cbn [parse_compact_list] in H.
      apply bindP_ok in H. destruct H as [hd [r1 [H1 H]]].
      apply read_u1_shrinks in H1. cbv zeta in H.
      apply bindP_ok in H. destruct H as [ext [r2 [H2 H]]].
      apply optional_keeps in H2; [|apply shrinks_keeps, parse_varint_u_shrinks].
      apply bindP_ok in H. destruct H as [els [r3 [H3 H]]].
      apply repeatExpr_keeps in H3; [|apply IHv].
      inversion H; subst. lia.
    + intros s a rest H. cbn [parse_compact_map] in H.
      apply bindP_ok in H. destruct H as [sz [r1 [H1 H]]].
      apply parse_varint_u_shrinks in H1. cbv zeta in H.
      apply bindP_ok in H. destruct H as [tb [r2 [H2 H]]].
      apply optional_keeps in H2; [|apply shrinks_keeps, read_u1_shrinks].
      apply bindP_ok in H. destruct H as [ens [r3 [H3 H]]].
      apply repeatExpr_keeps in H3.
      * inversion H; subst. lia.
      * intros s' e rest' He. apply bindP_ok in He.
        destruct He as [k [rk [Hk He]]]. apply bindP_ok in He.
        destruct He as [v [rv [Hv He]]]. inversion He; subst.
        apply IHv in Hk. apply IHv in Hv. lia.
    + intros s a rest H. cbn [parse_compact_struct] in H.
      apply bindP_ok in H. destruct H as [fs [r1 [H1 H]]].
      apply repeatUntil_shrinks in H1; [|exact IHf].
      inversion H; subst. exact H1.
    + intros s a rest H. cbn [parse_compact_field] in H.
      apply bindP_ok in H. destruct H as [hd [r1 [H1 H]]].
      apply read_u1_shrinks in H1. cbv zeta in H.
      apply bindP_ok in H. destruct H as [ext [r2 [H2 H]]].
      apply optional_keeps in H2; [|apply shrinks_keeps, parse_varint_z_shrinks].
      apply bindP_ok in H. destruct H as [v [r3 [H3 H]]].
      apply optional_keeps in H3; [|apply IHv].
      inversion H; subst. lia.
Qed.

Ltac leaf_not_deep H :=
  apply bindP_deep in H;
  let a := fresh "a" in let r := fresh "r" in
  destruct H as [H|[a [r [_ H]]]]; [|discriminate H].

Lemma read_u1_not_deep : forall s, read_u1 s <> PDeep.
Proof. intros [|b s] H; discriminate H. Qed.

Lemma read_bytes_not_deep : forall n s, read_bytes n s <> PDeep.
Proof.
  intros n s H. unfold read_bytes in H.
  destruct (n <? 0); [discriminate H|]. destruct (len s <? n); discriminate H.
Qed.

Lemma read_varint_bytes_not_deep : forall s acc, read_varint_bytes s acc <> PDeep.
Proof.
  induction s as [|b s IH]; intros acc H; [discriminate H|].
  cbn [read_varint_bytes] in H. destruct (Z.land (b2z b) 128 =? 0);
    [discriminate H | exact (IH _ H)].
Qed.

Lemma parse_varint_u_not_deep : forall s, parse_varint_u s <> PDeep.
Proof.
  intros s H. unfold parse_varint_u in H. leaf_not_deep H.
  exact (read_varint_bytes_not_deep _ _ H).
Qed.

Lemma parse_varint_z_not_deep : forall s, parse_varint_z s <> PDeep.
Proof.
  intros s H. unfold parse_varint_z in H. leaf_not_deep H.
  exact (read_varint_bytes_not_deep _ _ H).
Qed.

Lemma parse_compact_string_not_deep : forall s, parse_compact_string s <> PDeep.
Proof.
  intros s H. unfold parse_compact_string in H. apply bindP_deep in H.
  destruct H as [H|[l [r [_ H]]]]; [exact (parse_varint_u_not_deep _ H)|].
  leaf_not_deep H. exact (read_bytes_not_deep _ _ H).
Qed.

Lemma parse_depth : forall fuel, parserDepth fuel.
Proof.
  induction fuel as [|fuel [IHv [IHl [IHm [IHs IHf]]]]].
  - repeat split; intros; lia.
  - pose proof (parse_lengths fuel) as [Lv [Ll [Lm [Ls Lf]]]].
    unfold parserDepth. split; [|split; [|split; [|split]]].
    + intros t s Hfuel H. cbn [parse_compact_value] in H.
      repeat match type of H with
             | (if ?c then _ else _) = _ => destruct c
             end;
        try discriminate H; leaf_not_deep H.
      * exact (read_u1_not_deep _ H).
      * exact (parse_varint_z_not_deep _ H).
      * exact (parse_varint_z_not_deep _ H).
      * exact (parse_varint_z_not_deep _ H).
      * exact (read_bytes_not_deep _ _ H).
      * exact (parse_compact_string_not_deep _ H).
      * revert H. apply IHl. lia.
      * revert H. apply IHl. lia.
      * revert H. apply IHm. lia.
      * revert H. apply IHs. lia.
    + intros s Hfuel H. cbn [parse_compact_list] in H.
      apply bindP_deep in H.
      destruct H as [H|[hd [r1 [H1 H]]]]; [exact (read_u1_not_deep _ H)|].
      apply read_u1_shrinks in H1. cbv zeta in H. apply bindP_deep in H.
      destruct H as [H|[ext [r2 [H2 H]]]].
      * revert H. apply optional_not_deep. apply parse_varint_u_not_deep.
      * apply optional_keeps in H2; [|apply shrinks_keeps, parse_varint_u_shrinks].
        leaf_not_deep H. revert H. apply repeatExpr_not_deep; [apply Lv|].
        intros s' Hs'. apply IHv. lia.
    + intros s Hfuel H. cbn [parse_compact_map] in H.
      apply bindP_deep in H.
      destruct H as [H|[sz [r1 [H1 H]]]]; [exact (parse_varint_u_not_deep _ H)|].
      apply parse_varint_u_shrinks in H1. cbv zeta in H. apply bindP_deep in H.
      destruct H as [H|[tb [r2 [H2 H]]]].
      * revert H. apply optional_not_deep. apply read_u1_not_deep.
      * apply optional_keeps in H2; [|apply shrinks_keeps, read_u1_shrinks].
        leaf_not_deep H. revert H. apply repeatExpr_not_deep.
        -- intros s' e rest' He. apply bindP_ok in He.
           destruct He as [k [rk [Hk He]]]. apply bindP_ok in He.
           destruct He as [v [rv [Hv He]]]. inversion He; subst.
           apply Lv in Hk. apply Lv in Hv. lia.
        -- intros s' Hs' He. apply bindP_deep in He.
           destruct He as [He|[k [rk [Hk He]]]].
           ++ revert He. apply IHv. lia.
           ++ apply Lv in Hk. leaf_not_deep He. revert He. apply IHv. lia.
    + intros s Hfuel H. cbn [parse_compact_struct] in H. leaf_not_deep H.
      revert H. apply repeatUntil_not_deep; [exact Lf|].
      intros s' Hs'. apply IHf. lia.
    + intros s Hfuel H. cbn [parse_compact_field] in H.
      apply bindP_deep in H.
      destruct H as [H|[hd [r1 [H1 H]]]]; [exact (read_u1_not_deep _ H)|].
      apply read_u1_shrinks in H1. cbv zeta in H. apply bindP_deep in H.
      destruct H as [H|[ext [r2 [H2 H]]]].
      * revert H. apply optional_not_deep. apply parse_varint_z_not_deep.
      * apply optional_keeps in H2; [|apply shrinks_keeps, parse_varint_z_shrinks].
        leaf_not_deep H. revert H. apply optional_not_deep. apply IHv. lia.
Qed.

(** So parsing a struct from a byte string never ends in a panic. *)
Lemma parseCompactStructFromBytes_returns :
  forall b, exists r, parseCompactStructFromBytes b = Returns r.
Proof.
  intros b. unfold parseCompactStructFromBytes.
  destruct (parse_compact_struct (3 * length b + 3) b) as [st rest|e|] eqn:E.
  - eexists. reflexivity.
  - eexists. reflexivity.
  - exfalso. destruct (parse_depth (3 * length b + 3)) as [_ [_ [_ [Hs _]]]].
    apply (Hs b); [lia | exact E].
Qed.

(** The look-ahead window doubles from [peekN] up to [maxPeek]: a counter
    that allows for the doublings does not cut the loop short. *)
Lemma peekLoop_enough_fuel :
  forall fuel fuel' r maxPeek peekN,
    0 < maxPeek -> 0 < peekN ->
    maxPeek <= peekN * 2 ^ (Z.of_nat fuel - 1) ->
    maxPeek <= peekN * 2 ^ (Z.of_nat fuel' - 1) ->
    peekLoop fuel r maxPeek peekN = peekLoop fuel' r maxPeek peekN.
Proof.
  induction fuel as [|fuel IH]; intros fuel' r maxPeek peekN Hmax Hpeek Hf Hf'.
  - change (2 ^ (Z.of_nat 0 - 1)) with 0 in Hf. lia.
  - destruct fuel' as [|fuel'].
    { change (2 ^ (Z.of_nat 0 - 1)) with 0 in Hf'. lia. }
    cbn [peekLoop].
    destruct (maxPeek <? peekN) eqn:Eclip.
    + (* the window is cut down to maxPeek: this round is the last *)
      destruct (len (firstn (Z.to_nat maxPeek) r) =? 0); [reflexivity|].
      destruct (parseCompactStructFromBytes (firstn (Z.to_nat maxPeek) r))
        as [[[st consumed] [e|]]|]; cbn [bindO]; try reflexivity.
      rewrite Z.leb_refl. reflexivity.
    + apply Z.ltb_ge in Eclip.
      destruct (len (firstn (Z.to_nat peekN) r) =? 0); [reflexivity|].
      destruct (parseCompactStructFromBytes (firstn (Z.to_nat peekN) r))
        as [[[st consumed] [e|]]|]; cbn [bindO]; try reflexivity.
      destruct (mentionsEOF e); [|reflexivity].
      destruct (maxPeek <=? peekN) eqn:Elast; [reflexivity|].
      apply Z.leb_gt in Elast.
      replace (Z.of_nat (S fuel) - 1) with (Z.of_nat fuel) in Hf by lia.
      replace (Z.of_nat (S fuel') - 1) with (Z.of_nat fuel') in Hf' by lia.
      assert (Hstep : forall n : nat,
                 maxPeek <= peekN * 2 ^ Z.of_nat n ->
                 maxPeek <= peekN * 2 * 2 ^ (Z.of_nat n - 1)).
      { intros n Hn. destruct n as [|n].
        - change (2 ^ Z.of_nat 0) with 1 in Hn. lia.
        - replace (Z.of_nat (S n)) with (Z.succ (Z.of_nat (S n) - 1)) in Hn by lia.
          rewrite Z.pow_succ_r in Hn by lia. lia. }
      apply IH; [exact Hmax | lia | apply Hstep; exact Hf | apply Hstep; exact Hf'].
Qed.

Lemma parseCompactStructFromBufio_enough_fuel :
  forall r maxPeek extra,
    let m := if maxPeek <=? 0 then 64 * 1024 else maxPeek in
    parseCompactStructFromBufio r maxPeek
    = peekLoop (S (Z.to_nat (Z.log2 m)) + extra) r m 256.
Proof.
  intros r maxPeek extra m. unfold parseCompactStructFromBufio. fold m.
  assert (Hm : 0 < m).
  { unfold m. destruct (maxPeek <=? 0) eqn:E; [lia|]. apply Z.leb_gt in E. lia. }
  pose proof (Z.log2_spec m Hm) as [_ Hlog].
  pose proof (Z.log2_nonneg m) as Hnn.
  rewrite Z.pow_succ_r in Hlog by exact Hnn.
  assert (Hpow : 0 < 2 ^ Z.log2 m) by (apply Z.pow_pos_nonneg; lia).
  apply peekLoop_enough_fuel; [exact Hm | lia | | ].
  - replace (Z.of_nat (S (Z.to_nat (Z.log2 m))) - 1) with (Z.log2 m) by lia. lia.
  - replace (Z.of_nat (S (Z.to_nat (Z.log2 m)) + extra) - 1)
      with (Z.log2 m + Z.of_nat extra) by lia.
    rewrite Z.pow_add_r by lia.
    assert (0 < 2 ^ Z.of_nat extra) by (apply Z.pow_pos_nonneg; lia).
    nia.
Qed.

(** The counters the decoders start their loops with are large enough. *)
Lemma decodeRLEBytes_fuel :
  forall src numValues bitWidth extra,
    0 <= bitWidth ->
    rleLoop (length src + extra) src numValues bitWidth 0 []
    = rleLoop (length src) src numValues bitWidth 0 [].
Proof.
  intros src numValues bitWidth extra Hbw.
  apply rleLoop_enough_fuel; [exact Hbw | unfold len; lia | unfold len; lia].
Qed.

Lemma decodeRLEBytesWithOffset_fuel :
  forall src numValues bitWidth extra,
    0 <= bitWidth ->
    rleOffsetLoop (length src + extra) src numValues bitWidth 0 [] 0
    = rleOffsetLoop (length src) src numValues bitWidth 0 [] 0.
Proof.
  intros src numValues bitWidth extra Hbw.
  apply rleOffsetLoop_enough_fuel; [exact Hbw | unfold len; lia | unfold len; lia].
Qed.

Lemma parse_compact_struct_counter :
  forall fuel s extra,
    repeatUntil (parse_compact_field fuel) IsStop (S (length s) + extra) s []
    = repeatUntil (parse_compact_field fuel) IsStop (S (length s)) s [].
Proof.
  intros fuel s extra. apply repeatUntil_enough; [|lia|lia].
  destruct (parse_lengths fuel) as [_ [_ [_ [_ Lf]]]]. exact Lf.
Qed.

(** ** Only a negative count makes a decoder panic *)

Lemma makeCap_returns : forall n, 0 <= n -> makeCap n = Returns tt.
Proof.
  intros n H. unfold makeCap.
  assert (E : (n <? 0) = false) by (apply Z.ltb_ge; exact H).
  rewrite E. reflexivity.
Qed.

Lemma decodeRLEBytes_returns :
  forall src numValues bitWidth,
    0 <= numValues -> exists r, decodeRLEBytes src numValues bitWidth = Returns r.
Proof.
  intros src numValues bitWidth H. unfold decodeRLEBytes.
  destruct (8 <? bitWidth); [eexists; reflexivity|].
  rewrite makeCap_returns by exact H. cbn [bindO].
  destruct (rleLoop (length src) src numValues bitWidth 0 []) as [dst [e|]];
    eexists; reflexivity.
Qed.

Lemma decodeRLEBytesWithOffset_returns :
  forall src numValues bitWidth,
    0 <= numValues ->
    exists r, decodeRLEBytesWithOffset src numValues bitWidth = Returns r.
Proof.
  intros src numValues bitWidth H. unfold decodeRLEBytesWithOffset.
  destruct (8 <? bitWidth); [eexists; reflexivity|].
  rewrite makeCap_returns by exact H. cbn [bindO].
  destruct (rleOffsetLoop (length src) src numValues bitWidth 0 [] 0)
    as [[dst bytesRead] [e|]]; eexists; reflexivity.
Qed.

Lemma decodeRLELevels_returns :
  forall data numValues bitWidth,
    0 <= numValues -> exists r, decodeRLELevels data numValues bitWidth = Returns r.
Proof.
  intros d numValues bitWidth H. unfold decodeRLELevels.
  destruct (len d <? 4); [eexists; reflexivity|].
  destruct ((Uint32 (slice d 0 4) <? 0) || (len d <? 4 + Uint32 (slice d 0 4)));
    [eexists; reflexivity|].
  destruct (decodeRLEBytes_returns
              (slice d 4 (4 + Uint32 (slice d 0 4))) numValues bitWidth H)
    as [[levels err] E].
  rewrite E. cbn [bindO]. destruct err; eexists; reflexivity.
Qed.

Lemma stripLevels_returns :
  forall data numValues repetitionType maxDefinitionLevel,
    0 <= numValues ->
    exists pageData,
      stripLevels data numValues repetitionType maxDefinitionLevel
      = Returns pageData.
Proof.
  intros d numValues rt mdl H. unfold stripLevels.
  assert (Hrep : exists p, stripRepetition d numValues rt = Returns p).
  { unfold stripRepetition. destruct (repetitionIs rt 2); [|eexists; reflexivity].
    destruct (decodeRLELevels_returns d numValues 1 H) as [[[l r] err] E].
    rewrite E. cbn [bindO]. destruct err; eexists; reflexivity. }
  destruct Hrep as [p Hp]. rewrite Hp. cbn [bindO].
  unfold stripDefinition.
  destruct (repetitionIs rt 0).
  - destruct (decodeRLELevels_returns p numValues 1 H) as [[[l r] err] E].
    rewrite E. cbn [bindO]. destruct err; [|destruct (0 <? len l)];
      eexists; reflexivity.
  - destruct (0 <? mdl); [|eexists; reflexivity].
    destruct (4 <=? len p); [|eexists; reflexivity].
    match goal with |- context [if ?c then _ else _] => destruct c end.
    + destruct (decodeRLELevels_returns p numValues mdl H) as [[[l r] err] E].
      rewrite E. cbn [bindO].
      destruct err; [|destruct ((0 <? len l) && levelsValid l mdl)];
        eexists; reflexivity.
    + destruct (decodeRLEBytesWithOffset_returns p numValues mdl H)
        as [[[l br] err] E].
      rewrite E. cbn [bindO]. destruct err; [eexists; reflexivity|].
      match goal with |- context [if ?c then _ else _] => destruct c end;
        eexists; reflexivity.
Qed.

Lemma decodeDeltaBinaryPacked_returns :
  forall data dataType numValues,
    0 <= numValues ->
    exists r, decodeDeltaBinaryPacked data dataType numValues = Returns r.
Proof.
  intros d dataType numValues H. unfold decodeDeltaBinaryPacked.
  destruct (len d <? 5); [eexists; reflexivity|].
  repeat match goal with
         | |- exists r, match ?x with _ => _ end = _ =>
             destruct x as [[? [?|]] ?]; [eexists; reflexivity|]
         end.
  rewrite makeCap_returns by exact H. eexists. reflexivity.
Qed.

Lemma parseDataPageWithEncoding_returns :
  forall data dataType encoding numValues repetitionType maxDefinitionLevel,
    0 <= numValues ->
    exists r,
      parseDataPageWithEncoding data dataType encoding numValues repetitionType
        maxDefinitionLevel = Returns r.
Proof.
  intros d dataType enc numValues rt mdl H. unfold parseDataPageWithEncoding.
  destruct (stripLevels_returns d numValues rt mdl H) as [p Hp].
  rewrite Hp. cbn [bindO]. unfold decodeValues.
  destruct (enc =? 0); [eexists; reflexivity|].
  destruct (enc =? 5); [|eexists; reflexivity].
  apply decodeDeltaBinaryPacked_returns. exact H.
Qed.

Section PanicFreedom.

Variable snappyDecode : list byte -> option (list byte).

Lemma readPage_returns :
  forall md schema h rbuf values totalValuesRead,
    0 <= pageNumValues md h ->
    exists step,
      readPage snappyDecode md schema h rbuf values totalValuesRead = Returns step.
Proof.
  intros md schema h rbuf values total H. unfold readPage.
  destruct (compressedSize h <=? 0); [eexists; reflexivity|].
  destruct (pageType h =? 0); [|eexists; reflexivity].
  match goal with
  | |- context [parseDataPageWithEncoding ?d ?t ?e ?n ?r ?m] =>
      destruct (parseDataPageWithEncoding_returns d t e n r m H) as [[pv err] E]
  end.
  rewrite E. cbn [bindO].
  destruct err; [|destruct (0 <? len pv)]; eexists; reflexivity.
Qed.

End PanicFreedom.

(** A negative count does: the header [headerMinus] declares [-1] values,
    and the level decoder of a REQUIRED column asks [make] for a slice of
    that capacity. *)
Example readColumnValues_panics_on_negative_count :
  decodePageHeader (parsedStruct headerMinus) = inl (mkPageHeader 0 8 8 (-1) 0)
  /\ readColumnValues noSnappy
       (headerMinus ++ [x00; x00; x00; x00; x2a; x00; x00; x00])
       (int32Chunk 0 1 21)
       (mkSchemaElement 1 None (Some 0) [] None None None None None)
     = Panics.
Proof. split; vm_compute; reflexivity. Qed.

(* ================================================================== *)
(** * Part III.  Further properties of the code                        *)
(* ================================================================== *)

(** ** Bytes and varints *)

Lemma b2z_range : forall b, 0 <= b2z b < 256.
Proof.
  intro b. unfold b2z. pose proof (Byte.to_N_bounded b) as H.
  lia.
Qed.

Lemma b2z_z2b : forall z, 0 <= z < 256 -> b2z (z2b z) = z.
Proof.
  intros z Hz. unfold b2z, z2b. rewrite Z.mod_small by lia.
  destruct (Byte.of_N (Z.to_N z)) as [b|] eqn:E.
  - apply Byte.to_of_N in E. rewrite E. lia.
  - apply Byte.of_N_None_iff in E. lia.
Qed.

Lemma z2b_b2z : forall b, z2b (b2z b) = b.
Proof.
  intro b. unfold z2b. pose proof (b2z_range b) as H.
  rewrite Z.mod_small by lia. unfold b2z. rewrite N2Z.id, Byte.of_to_N.
  reflexivity.
Qed.

Lemma low7_mod : forall b, Z.land (b2z b) 127 = b2z b mod 128.
Proof. intro b. change 127 with (Z.ones 7). apply Z.land_ones. lia. Qed.

Lemma bit7_small : forall b, (Z.land (b2z b) 128 =? 0) = (b2z b <? 128).
Proof. intro b. destruct b; reflexivity. Qed.

Lemma continues_large : forall b, continues b = (128 <=? b2z b).
Proof. intro b. destruct b; reflexivity. Qed.

Lemma pow128_pos : forall n : nat, 0 < 128 ^ Z.of_nat n.
Proof. intro n. apply Z.pow_pos_nonneg; lia. Qed.

Lemma pow128_succ : forall n : nat, 128 ^ Z.of_nat (S n) = 128 * 128 ^ Z.of_nat n.
Proof. intro n. rewrite Nat2Z.inj_succ. apply Z.pow_succ_r. lia. Qed.

(** The encoder writes continuation bytes and then one final byte. *)
Lemma putUvarintLoop_shape :
  forall fuel x, 0 <= x < 128 ^ Z.of_nat (S fuel) ->
    exists pre last,
      putUvarintLoop fuel x = pre ++ [last]
      /\ Forall (fun b => continues b = true) pre
      /\ continues last = false
      /\ (length pre <= fuel)%nat.
Proof.
  induction fuel as [|fuel IH]; intros x Hx.
  - exists [], (z2b x). change (128 ^ Z.of_nat 1) with 128 in Hx.
    repeat split; [constructor | | apply Nat.le_refl].
    rewrite continues_large, b2z_z2b by lia. apply Z.leb_gt. lia.
  - cbn [putUvarintLoop]. destruct (x <? 128) eqn:E.
    + apply Z.ltb_lt in E. exists [], (z2b x).
      repeat split; [constructor | | apply Nat.le_0_l].
      rewrite continues_large, b2z_z2b by lia. apply Z.leb_gt. lia.
    + apply Z.ltb_ge in E. rewrite pow128_succ in Hx.
      pose proof (pow128_pos (S fuel)) as Hp.
      destruct (IH (x / 128)) as (pre & last & Hs & Hpre & Hlast & Hlen).
      { split; [apply Z.div_pos; lia|].
        apply Z.div_lt_upper_bound; lia. }
      exists (z2b (x mod 128 + 128) :: pre), last.
      rewrite Hs. repeat split; [ | exact Hlast | cbn [length]; lia].
      constructor; [|exact Hpre].
      pose proof (Z.mod_pos_bound x 128 ltac:(lia)) as Hm.
      rewrite continues_large, b2z_z2b by lia. apply Z.leb_le. lia.
Qed.

Lemma putUvarintLoop_value :
  forall fuel x k, 0 <= k -> 0 <= x < 128 ^ Z.of_nat (S fuel) ->
    varint_value_from k (putUvarintLoop fuel x) = x * 2 ^ (7 * k).
Proof.
  induction fuel as [|fuel IH]; intros x k Hk Hx.
  - change (128 ^ Z.of_nat 1) with 128 in Hx.
    cbn [putUvarintLoop varint_value_from].
    rewrite low7_mod, b2z_z2b by lia. rewrite Z.mod_small by lia.
    rewrite Z.shiftl_mul_pow2 by lia. lia.
  - cbn [putUvarintLoop]. destruct (x <? 128) eqn:E.
    + apply Z.ltb_lt in E. cbn [varint_value_from].
      rewrite low7_mod, b2z_z2b by lia. rewrite Z.mod_small by lia.
      rewrite Z.shiftl_mul_pow2 by lia. lia.
    + apply Z.ltb_ge in E. rewrite pow128_succ in Hx.
      pose proof (pow128_pos (S fuel)) as Hp.
      pose proof (Z.mod_pos_bound x 128 ltac:(lia)) as Hm.
      cbn [varint_value_from]. rewrite IH; [ | lia | ].
      * rewrite low7_mod, b2z_z2b by lia.
        replace ((x mod 128 + 128) mod 128) with (x mod 128).
        2:{ replace (x mod 128 + 128) with (x mod 128 + 1 * 128) by lia.
            rewrite Z.mod_add by lia. symmetry. apply Z.mod_mod. lia. }
        rewrite Z.shiftl_mul_pow2 by lia.
        replace (7 * (k + 1)) with (7 * k + 7) by lia.
        rewrite Z.pow_add_r by lia. change (2 ^ 7) with 128.
        pose proof (Z.div_mod x 128 ltac:(lia)) as Hd. nia.
      * split; [apply Z.div_pos; lia|].
        apply Z.div_lt_upper_bound; lia.
Qed.

Lemma len_cons : forall (A : Type) (a : A) (l : list A), len (a :: l) = 1 + len l.
Proof. intros A a l. unfold len. cbn [length]. lia. Qed.

Lemma land_low_high :
  forall a b s, 0 <= s -> 0 <= a < 2 ^ s -> Z.land a (Z.shiftl b s) = 0.
Proof.
  intros a b s Hs Ha. apply Z.bits_inj'. intros n Hn.
  rewrite Z.land_spec, Z.bits_0.
  destruct (Z.lt_ge_cases n s) as [L|G].
  - rewrite Z.shiftl_spec_low by exact L. apply andb_false_r.
  - destruct (Z.eq_dec a 0) as [E|E].
    + rewrite E, Z.bits_0. reflexivity.
    + rewrite (Z.bits_above_log2 a n); [reflexivity | lia | ].
      assert (Z.log2 a < s) by (apply Z.log2_lt_pow2; lia). lia.
Qed.

Lemma lor_low_high :
  forall a b s, 0 <= s -> 0 <= a < 2 ^ s ->
    Z.lor a (Z.shiftl b s) = a + Z.shiftl b s.
Proof.
  intros a b s Hs Ha. pose proof (land_low_high a b s Hs Ha) as H.
  rewrite <- Z.lxor_lor by exact H. symmetry. apply Z.add_nocarry_lxor. exact H.
Qed.

Lemma low7_range : forall b, 0 <= Z.land (b2z b) 127 < 128.
Proof.
  intro b. rewrite low7_mod. apply Z.mod_pos_bound. lia.
Qed.

Lemma varint_value_from_nonneg :
  forall bytes k, 0 <= k -> 0 <= varint_value_from k bytes.
Proof.
  induction bytes as [|b bytes IH]; intros k Hk; cbn [varint_value_from].
  - lia.
  - pose proof (low7_range b). pose proof (IH (k + 1) ltac:(lia)).
    rewrite Z.shiftl_mul_pow2 by lia.
    assert (0 < 2 ^ (7 * k)) by (apply Z.pow_pos_nonneg; lia). nia.
Qed.

(** The loop of the delta decoder on a well-formed varint, from group [k]
    on: no group is lost as long as the value fits 64 bits. *)
Lemma varintLoop_decodes :
  forall pre last rest off res k,
    Forall (fun b => continues b = true) pre -> continues last = false ->
    0 <= k -> k + len pre <= 9 ->
    0 <= res < 2 ^ (7 * k) ->
    res + varint_value_from k (pre ++ [last]) < 2 ^ 64 ->
    varintLoop (pre ++ last :: rest) off res (7 * k)
    = inl (res + varint_value_from k (pre ++ [last]), off + len pre + 1).
Proof.
  induction pre as [|b pre IH]; intros last rest off res k Hpre Hlast Hk Hn Hres Hsum.
  - cbn [app varintLoop]. unfold continues in Hlast.
    apply negb_false_iff in Hlast. rewrite Hlast.
    cbn [app varint_value_from] in Hsum |- *.
    pose proof (low7_range last) as Hg.
    assert (0 <= Z.shiftl (Z.land (b2z last) 127) (7 * k)).
    { apply Z.shiftl_nonneg. lia. }
    unfold uint64, wrap. rewrite Z.mod_small by lia.
    rewrite lor_low_high by lia. rewrite len_nil. f_equal. f_equal; lia.
  - inversion Hpre as [|b' pre' Hb Hpre']; subst.
    rewrite len_cons in Hn. pose proof (len_nonneg _ pre) as Hl.
    cbn [app]. rewrite varintLoop_continue by exact Hb.
    destruct (64 <=? 7 * k + 7) eqn:E; [apply Z.leb_le in E; lia|].
    pose proof (low7_range b) as Hg.
    assert (Hp : 0 < 2 ^ (7 * k)) by (apply Z.pow_pos_nonneg; lia).
    assert (Hs : Z.shiftl (Z.land (b2z b) 127) (7 * k)
                 = Z.land (b2z b) 127 * 2 ^ (7 * k)).
    { apply Z.shiftl_mul_pow2. lia. }
    assert (Hq : 2 ^ (7 * k + 7) <= 2 ^ 63).
    { apply Z.pow_le_mono_r; lia. }
    assert (Hq' : 2 ^ (7 * k + 7) = 128 * 2 ^ (7 * k)).
    { rewrite Z.pow_add_r by lia. change (2 ^ 7) with 128. lia. }
    unfold uint64, wrap. rewrite Z.mod_small by nia.
    rewrite lor_low_high by lia.
    replace (7 * k + 7) with (7 * (k + 1)) by lia.
    cbn [app varint_value_from] in Hsum.
    rewrite IH; [ | exact Hpre' | exact Hlast | lia | lia | | ].
    + cbn [varint_value_from]. rewrite len_cons. f_equal. f_equal; lia.
    + replace (7 * (k + 1)) with (7 * k + 7) by lia. nia.
    + lia.
Qed.

(** The same for [binary.Uvarint]. *)
Lemma uvarintLoop_decodes :
  forall pre last rest x k,
    Forall (fun b => continues b = true) pre -> continues last = false ->
    0 <= k -> k + len pre <= 9 ->
    0 <= x < 2 ^ (7 * k) ->
    x + varint_value_from k (pre ++ [last]) < 2 ^ 64 ->
    uvarintLoop (pre ++ last :: rest) k x (7 * k)
    = (x + varint_value_from k (pre ++ [last]), k + len pre + 1).
Proof.
  induction pre as [|b pre IH]; intros last rest x k Hpre Hlast Hk Hn Hx Hsum.
  - rewrite len_nil in Hn. cbn [app uvarintLoop].
    destruct (k =? 10) eqn:E10; [apply Z.eqb_eq in E10; lia|].
    rewrite continues_large in Hlast. apply Z.leb_gt in Hlast.
    pose proof (b2z_range last) as Hb.
    assert (Hl : Z.land (b2z last) 127 = b2z last).
    { rewrite low7_mod. apply Z.mod_small. lia. }
    cbn [app varint_value_from] in Hsum |- *. rewrite Hl in Hsum |- *.
    assert (Hp : 0 < 2 ^ (7 * k)) by (apply Z.pow_pos_nonneg; lia).
    assert (Hs : Z.shiftl (b2z last) (7 * k) = b2z last * 2 ^ (7 * k)).
    { apply Z.shiftl_mul_pow2. lia. }
    destruct (b2z last <? 128) eqn:E; [|apply Z.ltb_ge in E; lia].
    destruct ((k =? 9) && (1 <? b2z last)) eqn:E9.
    + apply andb_true_iff in E9. destruct E9 as [E9 E1].
      apply Z.eqb_eq in E9. apply Z.ltb_lt in E1. subst k.
      change (2 ^ (7 * 9)) with (2 ^ 63) in *. change (2 ^ 64) with (2 * 2 ^ 63) in Hsum.
      nia.
    + unfold uint64, wrap. rewrite Z.mod_small by nia.
      rewrite lor_low_high by lia. rewrite len_nil. f_equal; lia.
  - inversion Hpre as [|b' pre' Hb Hpre']; subst.
    rewrite len_cons in Hn. pose proof (len_nonneg _ pre) as Hl.
    cbn [app uvarintLoop].
    destruct (k =? 10) eqn:E10; [apply Z.eqb_eq in E10; lia|].
    rewrite continues_large in Hb. apply Z.leb_le in Hb.
    destruct (b2z b <? 128) eqn:E; [apply Z.ltb_lt in E; lia|].
    pose proof (low7_range b) as Hg.
    assert (Hp : 0 < 2 ^ (7 * k)) by (apply Z.pow_pos_nonneg; lia).
    assert (Hs : Z.shiftl (Z.land (b2z b) 127) (7 * k)
                 = Z.land (b2z b) 127 * 2 ^ (7 * k)).
    { apply Z.shiftl_mul_pow2. lia. }
    assert (Hq : 2 ^ (7 * k + 7) <= 2 ^ 63).
    { apply Z.pow_le_mono_r; lia. }
    assert (Hq' : 2 ^ (7 * k + 7) = 128 * 2 ^ (7 * k)).
    { rewrite Z.pow_add_r by lia. change (2 ^ 7) with 128. lia. }
    unfold uint64, wrap. rewrite Z.mod_small by nia.
    rewrite lor_low_high by lia.
    replace (7 * k + 7) with (7 * (k + 1)) by lia.
    cbn [app varint_value_from] in Hsum.
    rewrite IH; [ | exact Hpre' | exact Hlast | lia | lia | | ].
    + cbn [varint_value_from]. rewrite len_cons. f_equal; lia.
    + replace (7 * (k + 1)) with (7 * k + 7) by lia. nia.
    + lia.
Qed.

Lemma putUvarint_shape :
  forall x, 0 <= x < 2 ^ 64 ->
    exists pre last,
      putUvarint x = pre ++ [last]
      /\ Forall (fun b => continues b = true) pre
      /\ continues last = false
      /\ len pre <= 9
      /\ varint_value (pre ++ [last]) = x.
Proof.
  intros x Hx. unfold putUvarint.
  assert (Hx' : 0 <= x < 128 ^ Z.of_nat 10).
  { change (128 ^ Z.of_nat 10) with (64 * 2 ^ 64). lia. }
  destruct (putUvarintLoop_shape 9 x Hx') as (pre & last & Hs & Hpre & Hlast & Hlen).
  exists pre, last. repeat split; try assumption.
  - unfold len. lia.
  - rewrite <- Hs. unfold varint_value.
    rewrite putUvarintLoop_value by (exact Hx' || lia).
    change (2 ^ (7 * 0)) with 1. lia.
Qed.

Lemma from_app :
  forall (A : Type) (l l' : list A), from (l ++ l') (len l) = l'.
Proof.
  intros A l l'. unfold from, len. rewrite Nat2Z.id.
  rewrite skipn_app, skipn_all, Nat.sub_diag. reflexivity.
Qed.

Lemma varintLoop_putUvarint :
  forall x rest off, 0 <= x < 2 ^ 64 ->
    varintLoop (putUvarint x ++ rest) off 0 0
    = inl (x, off + len (putUvarint x)).
Proof.
  intros x rest off Hx.
  destruct (putUvarint_shape x Hx) as (pre & last & Hs & Hpre & Hlast & Hlen & Hv).
  rewrite Hs, <- app_assoc. cbn [app].
  pose proof (len_nonneg _ pre) as Hl. unfold varint_value in Hv.
  change 0 with (7 * 0) at 2.
  rewrite varintLoop_decodes; try assumption; try lia.
  rewrite Hv, len_app, len_one. f_equal. f_equal; lia.
Qed.

Lemma Uvarint_putUvarint :
  forall x rest, 0 <= x < 2 ^ 64 ->
    Uvarint (putUvarint x ++ rest) = (x, len (putUvarint x)).
Proof.
  intros x rest Hx.
  destruct (putUvarint_shape x Hx) as (pre & last & Hs & Hpre & Hlast & Hlen & Hv).
  rewrite Hs, <- app_assoc. cbn [app].
  pose proof (len_nonneg _ pre) as Hl. unfold varint_value in Hv.
  unfold Uvarint. change (uvarintLoop (pre ++ last :: rest) 0 0 0)
    with (uvarintLoop (pre ++ last :: rest) 0 0 (7 * 0)).
  rewrite uvarintLoop_decodes; try assumption; try lia.
  rewrite Hv, len_app, len_one. f_equal; lia.
Qed.

Lemma read_varint_bytes_putUvarint :
  forall x rest, 0 <= x < 2 ^ 64 ->
    read_varint_bytes (putUvarint x ++ rest) [] = POk (putUvarint x) rest.
Proof.
  intros x rest Hx.
  destruct (putUvarint_shape x Hx) as (pre & last & Hs & Hpre & Hlast & Hlen & Hv).
  rewrite Hs, <- app_assoc. cbn [app].
  rewrite read_varint_bytes_accepts by assumption. reflexivity.
Qed.

Lemma value_u_putUvarint :
  forall x, 0 <= x < 2 ^ 64 -> value_u (putUvarint x) = int64 x.
Proof.
  intros x Hx.
  destruct (putUvarint_shape x Hx) as (pre & last & Hs & Hpre & Hlast & Hlen & Hv).
  rewrite value_u_first_ten, Hs. rewrite firstn_all2.
  - rewrite Hv. reflexivity.
  - rewrite length_app. cbn [length]. unfold len in Hlen. lia.
Qed.

Lemma putUvarint_length :
  forall x, 0 <= x < 2 ^ 64 -> 1 <= len (putUvarint x) <= 10.
Proof.
  intros x Hx.
  destruct (putUvarint_shape x Hx) as (pre & last & Hs & _ & _ & Hlen & _).
  rewrite Hs, len_app, len_one. pose proof (len_nonneg _ pre). lia.
Qed.

(** X1: wherever a varint starts in the data, [readVarintUnsigned] gives
    back every unsigned 64-bit value that was written there, and leaves the
    reader on the byte after it. *)
Theorem readVarintUnsigned_round_trip :
  forall before x after, 0 <= x < 2 ^ 64 ->
    readVarintUnsigned (mkReader (before ++ putUvarint x ++ after) (len before))
    = (x, None,
       mkReader (before ++ putUvarint x ++ after)
         (len before + len (putUvarint x))).
Proof.
  intros before x after Hx. unfold readVarintUnsigned. cbn [data offset].
  rewrite from_app, varintLoop_putUvarint by exact Hx. reflexivity.
Qed.

Lemma readVarintUnsigned_round_trip_witness :
  readVarintUnsigned (mkReader ([x07] ++ putUvarint 300 ++ [x01]) (len [x07]))
  = (300, None,
     mkReader ([x07] ++ putUvarint 300 ++ [x01])
       (len [x07] + len (putUvarint 300))).
Proof. apply (readVarintUnsigned_round_trip [x07] 300 [x01]). lia. Defined.

(** X2: [readVarint] gives back every non-negative 64-bit value from its
    zigzag varint, and leaves the reader on the byte after it. *)
Theorem readVarint_round_trip :
  forall before v after, 0 <= v < 2 ^ 63 ->
    readVarint (mkReader (before ++ putVarint v ++ after) (len before))
    = (v, None,
       mkReader (before ++ putVarint v ++ after)
         (len before + len (putVarint v))).
Proof.
  intros before v after Hv.
  assert (Hz : zigzag_encode v = 2 * v).
  { rewrite zigzag_encode_cases by lia.
    destruct (v <? 0) eqn:E; [apply Z.ltb_lt in E; lia | reflexivity]. }
  rewrite (readVarint_value _ (2 * v) (len before + len (putVarint v))).
  - replace (2 * v) with (0 + 2 * v) by lia. rewrite Z.odd_add_mul_2.
    cbn [Z.odd]. replace (0 + 2 * v) with (v * 2) by lia.
    rewrite Z.div_mul by lia. reflexivity.
  - cbn [data offset]. rewrite from_app. unfold putVarint. rewrite Hz.
    apply varintLoop_putUvarint. lia.
Qed.

Lemma readVarint_round_trip_witness :
  readVarint (mkReader ([x07] ++ putVarint 1000 ++ [x01]) (len [x07]))
  = (1000, None,
     mkReader ([x07] ++ putVarint 1000 ++ [x01])
       (len [x07] + len (putVarint 1000))).
Proof. apply (readVarint_round_trip [x07] 1000 [x01]). lia. Defined.

(** X3: [varint_u] reads the varint of a value below [2 ^ 63] and nothing
    after it, and its [value_u] is that value. *)
Theorem parse_varint_u_round_trip :
  forall x rest, 0 <= x < 2 ^ 63 ->
    parse_varint_u (putUvarint x ++ rest) = POk (mkVarintU (putUvarint x)) rest
    /\ VarintU_ValueU (mkVarintU (putUvarint x)) = x.
Proof.
  intros x rest Hx. split.
  - unfold parse_varint_u. rewrite read_varint_bytes_putUvarint by lia.
    reflexivity.
  - unfold VarintU_ValueU. cbn [vu_bytes].
    rewrite value_u_putUvarint by lia. apply int64_small. lia.
Qed.

Lemma parse_varint_u_round_trip_witness :
  parse_varint_u (putUvarint 200 ++ [xff])
  = POk (mkVarintU (putUvarint 200)) [xff]
  /\ VarintU_ValueU (mkVarintU (putUvarint 200)) = 200.
Proof. apply (parse_varint_u_round_trip 200 [xff]). lia. Defined.

Lemma zigzag_encode_small :
  forall v, - 2 ^ 62 <= v < 2 ^ 62 -> 0 <= zigzag_encode v < 2 ^ 63.
Proof.
  intros v Hv. rewrite zigzag_encode_cases by lia.
  destruct (v <? 0) eqn:E; [apply Z.ltb_lt in E | apply Z.ltb_ge in E]; lia.
Qed.

Lemma VarintZ_Value_putVarint :
  forall v, - 2 ^ 62 <= v < 2 ^ 62 -> VarintZ_Value (mkVarintZ (putVarint v)) = v.
Proof.
  intros v Hv. pose proof (zigzag_encode_small v Hv) as Hz.
  rewrite VarintZ_Value_zigzag. unfold VarintZ_ValueU, putVarint. cbn [vz_bytes].
  rewrite value_u_putUvarint by lia. rewrite int64_small by lia.
  apply zigzag_round_trip. lia.
Qed.

Lemma parse_varint_z_putVarint :
  forall v rest, - 2 ^ 62 <= v < 2 ^ 62 ->
    parse_varint_z (putVarint v ++ rest) = POk (mkVarintZ (putVarint v)) rest.
Proof.
  intros v rest Hv. pose proof (zigzag_encode_small v Hv) as Hz.
  unfold parse_varint_z, putVarint.
  rewrite read_varint_bytes_putUvarint by lia. reflexivity.
Qed.

(** X4: [varint_z] reads the zigzag varint of a value [v] with
    [- 2 ^ 62 <= v < 2 ^ 62] and nothing after it, and its [value] is [v]. *)
Theorem parse_varint_z_round_trip :
  forall v rest, - 2 ^ 62 <= v < 2 ^ 62 ->
    parse_varint_z (putVarint v ++ rest) = POk (mkVarintZ (putVarint v)) rest
    /\ VarintZ_Value (mkVarintZ (putVarint v)) = v.
Proof.
  intros v rest Hv. split.
  - apply parse_varint_z_putVarint. exact Hv.
  - apply VarintZ_Value_putVarint. exact Hv.
Qed.

Lemma parse_varint_z_round_trip_witness :
  parse_varint_z (putVarint (-300) ++ [xff])
  = POk (mkVarintZ (putVarint (-300))) [xff]
  /\ VarintZ_Value (mkVarintZ (putVarint (-300))) = -300.
Proof. apply (parse_varint_z_round_trip (-300) [xff]). lia. Defined.

(** ** The PLAIN decoder on what an encoder writes *)

Lemma length_putLE : forall n z, length (putLE n z) = n.
Proof. induction n as [|n IH]; intro z; cbn [putLE length]; [|rewrite IH]; reflexivity. Qed.

Lemma len_putLE : forall n z, len (putLE n z) = Z.of_nat n.
Proof. intros n z. unfold len. rewrite length_putLE. reflexivity. Qed.

Lemma le_uint_putLE :
  forall n z rest, 0 <= z < 256 ^ Z.of_nat n ->
    le_uint n (putLE n z ++ rest) = z.
Proof.
  induction n as [|n IH]; intros z rest Hz.
  - change (256 ^ Z.of_nat 0) with 1 in Hz. simpl. lia.
  - rewrite Nat2Z.inj_succ, Z.pow_succ_r in Hz by lia.
    cbn [putLE app le_uint]. rewrite IH.
    + unfold z2b. 
      pose proof (Z.mod_pos_bound z 256 ltac:(lia)) as Hm.
      pose proof (b2z_z2b (z mod 256) Hm) as Hb. unfold z2b in Hb.
      rewrite Z.mod_mod in Hb by lia. rewrite Hb.
      pose proof (Z.div_mod z 256 ltac:(lia)). lia.
    + split; [apply Z.div_pos; lia|]. apply Z.div_lt_upper_bound; lia.
Qed.

Lemma swrap_wrap :
  forall w z, 0 < w -> - 2 ^ (w - 1) <= z < 2 ^ (w - 1) -> swrap w (wrap w z) = z.
Proof.
  intros w z Hw Hz. unfold swrap, wrap.
  assert (E : 2 ^ w = 2 * 2 ^ (w - 1)).
  { replace w with (Z.succ (w - 1)) at 1 by lia. apply Z.pow_succ_r. lia. }
  rewrite Zplus_mod_idemp_l. rewrite Z.mod_small by lia. lia.
Qed.

Lemma wrap_range : forall w z, 0 <= w -> 0 <= wrap w z < 2 ^ w.
Proof.
  intros w z Hw. unfold wrap. apply Z.mod_pos_bound.
  apply Z.pow_pos_nonneg; lia.
Qed.

Lemma slice_app :
  forall (A : Type) (before l after : list A),
    slice (before ++ l ++ after) (len before) (len before + len l) = l.
Proof.
  intros A before l after. unfold slice.
  replace (len before + len l - len before) with (len l) by lia.
  change (skipn (Z.to_nat (len before)) (before ++ l ++ after))
    with (from (before ++ l ++ after) (len before)).
  rewrite from_app. unfold len. rewrite Nat2Z.id.
  rewrite firstn_app, firstn_all, Nat.sub_diag. cbn [firstn]. apply app_nil_r.
Qed.

(** One round of the loop on a stored value: the value is appended and the
    offset moves behind its bytes. *)
Lemma plainStep_putPlain :
  forall t v before after values,
    storable t v ->
    plainStep (before ++ putPlain v ++ after) t (len before) values
    = inl (len before + len (putPlain v), values ++ [v]).
Proof.
  intros t v before after values [Ht Hv]. unfold plainStep.
  rewrite from_app. rewrite !len_app.
  pose proof (len_nonneg _ after) as Ha.
  destruct v as [v|v|bits|bits|s]; cbn [plainType] in Ht; subst t;
    cbn [putPlain Z.eqb Pos.eqb]; rewrite ?len_app, ?len_putLE.
  - destruct (len before + 4 <=? len before + (Z.of_nat 4 + len after)) eqn:E;
      [|apply Z.leb_gt in E; lia].
    unfold Uint32. rewrite le_uint_putLE by (apply (wrap_range 32); lia).
    unfold int32. rewrite swrap_wrap by lia. reflexivity.
  - destruct (len before + 8 <=? len before + (Z.of_nat 8 + len after)) eqn:E;
      [|apply Z.leb_gt in E; lia].
    unfold Uint64. rewrite le_uint_putLE by (apply (wrap_range 64); lia).
    unfold int64. rewrite swrap_wrap by lia. reflexivity.
  - destruct (len before + 4 <=? len before + (Z.of_nat 4 + len after)) eqn:E;
      [|apply Z.leb_gt in E; lia].
    unfold Uint32. rewrite le_uint_putLE by exact Hv. reflexivity.
  - destruct (len before + 8 <=? len before + (Z.of_nat 8 + len after)) eqn:E;
      [|apply Z.leb_gt in E; lia].
    unfold Uint64. rewrite le_uint_putLE by exact Hv. reflexivity.
  - pose proof (len_nonneg _ s) as Hs.
    destruct (len before + 4 <=? len before + (Z.of_nat 4 + len s + len after)) eqn:E;
      [|apply Z.leb_gt in E; lia].
    unfold Uint32. rewrite <- app_assoc.
    rewrite le_uint_putLE by (change (256 ^ Z.of_nat 4) with (2 ^ 32); lia).
    destruct (len before + 4 + len s <=? len before + (Z.of_nat 4 + len s + len after)) eqn:E';
      [|apply Z.leb_gt in E'; lia].
    f_equal. f_equal; [lia|]. f_equal. f_equal.
    replace (len before + 4) with (len (before ++ putLE 4 (len s)))
      by (rewrite len_app, len_putLE; lia).
    rewrite (app_assoc before). rewrite slice_app. reflexivity.
Qed.

Lemma putPlain_nonempty :
  forall v, 0 < len (putPlain v).
Proof.
  intros v. destruct v; cbn [putPlain]; rewrite ?len_app, ?len_putLE;
    try lia. pose proof (len_nonneg _ s). lia.
Qed.

Lemma plainLoop_putPlainValues :
  forall t vs before after values,
    Forall (storable t) vs ->
    plainLoop (before ++ putPlainValues vs ++ after) t (length vs) (len before)
      values
    = (values ++ vs, None).
Proof.
  intros t vs. induction vs as [|v vs IH]; intros before after values Hvs.
  - cbn [length plainLoop]. rewrite app_nil_r. reflexivity.
  - inversion Hvs as [|v' vs' Hv Hvs']; subst.
    unfold putPlainValues. cbn [map concat length plainLoop].
    fold (putPlainValues vs). rewrite <- app_assoc.
    pose proof (putPlain_nonempty v) as Hn.
    destruct (len before <? len (before ++ putPlain v ++ putPlainValues vs ++ after)) eqn:E.
    2:{ apply Z.ltb_ge in E. rewrite !len_app in E.
        pose proof (len_nonneg _ (putPlainValues vs)).
        pose proof (len_nonneg _ after). lia. }
    rewrite plainStep_putPlain by exact Hv.
    rewrite <- len_app. rewrite (app_assoc before).
    rewrite IH by exact Hvs'. rewrite <- app_assoc. reflexivity.
Qed.

(** X5: the PLAIN decoder gives back every list of values of one type
    (INT32, INT64, FLOAT, DOUBLE or BYTE_ARRAY) from its encoding, whatever
    follows the encoding in the page. *)
Theorem decodePlainValues_round_trip :
  forall t vs after,
    Forall (storable t) vs ->
    decodePlainValues (putPlainValues vs ++ after) t (len vs) = (vs, None).
Proof.
  intros t vs after Hvs. unfold decodePlainValues, len. rewrite Nat2Z.id.
  apply (plainLoop_putPlainValues t vs [] after [] Hvs).
Qed.

Lemma plainStep_supported :
  forall data t offset values,
    plainSupported t = true ->
    exists offset' values', plainStep data t offset values = inl (offset', values').
Proof.
  intros data t offset values H. unfold plainStep, plainSupported in *.
  repeat match goal with
         | |- context [if ?c then _ else _] => destruct c
         end; try (eexists; eexists; reflexivity).
  discriminate H.
Qed.

Lemma plainLoop_supported :
  forall data t n offset values,
    plainSupported t = true ->
    snd (plainLoop data t n offset values) = None.
Proof.
  intros data t n. induction n as [|n IH]; intros offset values H.
  - reflexivity.
  - cbn [plainLoop]. destruct (offset <? len data); [|reflexivity].
    destruct (plainStep_supported data t offset values H) as (o & vs & E).
    rewrite E. apply IH. exact H.
Qed.

Lemma plainStep_unsupported :
  forall data t offset values,
    plainSupported t = false -> plainStep data t offset values = inr values.
Proof.
  intros data t offset values H. unfold plainStep, plainSupported in *.
  repeat match goal with
         | |- context [if ?c then _ else _] => destruct c eqn:?
         end; try reflexivity; cbn in H; discriminate H.
Qed.

Lemma decodePlainValues_round_trip_witness :
  decodePlainValues
    (putPlainValues [VString [x61; x62]; VString []] ++ [xff])
    6 (len [VString [x61; x62]; VString []])
  = ([VString [x61; x62]; VString []], None).
Proof.
  apply (decodePlainValues_round_trip 6 [VString [x61; x62]; VString []] [xff]).
  repeat constructor; vm_compute; reflexivity.
Defined.

(** X6: the PLAIN decoder fails exactly when the type is none of the five it
    lists, a value is asked for and the page is not empty; it returns no
    value then.  An unlisted type goes unreported on an empty page or with a
    count of zero. *)
Theorem decodePlainValues_unsupported_type :
  forall data t n,
    decodePlainValues data t n
    = if negb (plainSupported t) && (0 <? n) && (0 <? len data)
      then ([], Some ErrUnsupportedType)
      else (fst (decodePlainValues data t n), None).
Proof.
  intros data t n. unfold decodePlainValues.
  destruct (plainSupported t) eqn:Ht; cbn [negb andb].
  - pose proof (plainLoop_supported data t (Z.to_nat n) 0 [] Ht) as H.
    destruct (plainLoop data t (Z.to_nat n) 0 []) as [vs e].
    cbn [snd fst] in *. subst e. reflexivity.
  - destruct (0 <? n) eqn:En; cbn [andb].
    + apply Z.ltb_lt in En.
      destruct (Z.to_nat n) as [|m] eqn:Em; [lia|]. cbn [plainLoop].
      destruct (0 <? len data); [|reflexivity].
      rewrite plainStep_unsupported by exact Ht. reflexivity.
    + apply Z.ltb_ge in En. replace (Z.to_nat n) with O by lia. reflexivity.
Qed.

Lemma plainStep_fixed :
  forall data t offset values,
    t = 1 \/ t = 2 \/ t = 4 \/ t = 5 ->
    exists v,
      plainStep data t offset values
      = if offset + plainWidth t <=? len data
        then inl (offset + plainWidth t, values ++ [v])
        else inl (offset, values).
Proof.
  intros data t offset values [H|[H|[H|H]]]; subst t; unfold plainStep, plainWidth;
    cbn [Z.eqb Pos.eqb orb]; eexists; reflexivity.
Qed.

Lemma plainLoop_fixed_count :
  forall data t n k values,
    t = 1 \/ t = 2 \/ t = 4 \/ t = 5 ->
    0 <= k <= len data / plainWidth t ->
    len (fst (plainLoop data t n (plainWidth t * k) values))
    = len values + Z.min (Z.of_nat n) (len data / plainWidth t - k).
Proof.
  intros data t n k values Ht. revert k values.
  assert (Hw : 0 < plainWidth t).
  { unfold plainWidth. destruct ((t =? 1) || (t =? 4)); lia. }
  pose proof (Z.div_mod (len data) (plainWidth t) ltac:(lia)) as Hd.
  pose proof (Z.mod_pos_bound (len data) (plainWidth t) Hw) as Hm.
  set (q := len data / plainWidth t) in *.
  set (w := plainWidth t) in *.
  induction n as [|n IH]; intros k values Hk.
  - cbn [plainLoop fst]. lia.
  - cbn [plainLoop]. destruct (w * k <? len data) eqn:E.
    + destruct (plainStep_fixed data t (w * k) values Ht) as [v Hv].
      fold w in Hv. rewrite Hv.
      destruct (w * k + w <=? len data) eqn:E'.
      * apply Z.leb_le in E'. replace (w * k + w) with (w * (k + 1)) by lia.
        rewrite IH by nia. rewrite len_app, len_one. lia.
      * apply Z.leb_gt in E'. rewrite IH by lia.
        assert (k = q) by nia. lia.
    + apply Z.ltb_ge in E. cbn [fst]. assert (k = q) by nia. lia.
Qed.

(** X7: of a fixed-width type, the PLAIN decoder returns as many values as
    the count asks for and the page holds whole: a page cut in the middle of
    a value gives the values before the cut. *)
Theorem decodePlainValues_fixed_width_count :
  forall data t n,
    t = 1 \/ t = 2 \/ t = 4 \/ t = 5 ->
    len (fst (decodePlainValues data t n))
    = Z.min (Z.max 0 n) (len data / plainWidth t).
Proof.
  intros data t n Ht. unfold decodePlainValues.
  assert (Hw : 0 < plainWidth t).
  { unfold plainWidth. destruct ((t =? 1) || (t =? 4)); lia. }
  pose proof (Z.div_pos (len data) (plainWidth t) (len_nonneg _ data) Hw) as Hq.
  replace 0 with (plainWidth t * 0) at 1 by lia.
  rewrite plainLoop_fixed_count by (exact Ht || lia).
  rewrite len_nil. lia.
Qed.

Lemma decodePlainValues_fixed_width_count_witness :
  len (fst (decodePlainValues [x01; x00; x00; x00; x02; x00] 1 5))
  = Z.min (Z.max 0 5) (len [x01; x00; x00; x00; x02; x00] / plainWidth 1).
Proof.
  apply (decodePlainValues_fixed_width_count [x01; x00; x00; x00; x02; x00] 1 5).
  left. reflexivity.
Defined.

(** ** The level decoders *)

(** The two block loops run in step: same values, same error. *)
Lemma rleOffsetLoop_rleLoop :
  forall fuel src numValues bitWidth i dst bytesRead,
    rleLoop fuel src numValues bitWidth i dst
    = (fst (fst (rleOffsetLoop fuel src numValues bitWidth i dst bytesRead)),
       snd (rleOffsetLoop fuel src numValues bitWidth i dst bytesRead)).
Proof.
  induction fuel as [|fuel IH]; intros src numValues bitWidth i dst bytesRead.
  - reflexivity.
  - cbn [rleLoop rleOffsetLoop].
    destruct ((i <? len src) && (len dst <? numValues)); [|reflexivity].
    destruct (Uvarint (from src i)) as [u n].
    destruct (n =? 0); [reflexivity|].
    destruct (n <? 0); [reflexivity|].
    destruct (maxSupportedValueCount <? Z.shiftr u 1); [reflexivity|].
    destruct (negb (Z.land u 1 =? 0)).
    + destruct (len src <? i + n + (Z.shiftr u 1 * 8 * bitWidth + 7) / 8);
        [reflexivity|].
      match goal with
      | |- context [numValues <=? len ?d] => destruct (numValues <=? len d) eqn:E
      end.
      * apply Z.leb_le in E. rewrite rleLoop_exit by (right; exact E).
        reflexivity.
      * apply IH.
    + destruct (negb (bitWidth =? 0) && (len src <? i + n + 1)); [reflexivity|].
      match goal with
      | |- context [numValues <=? len ?d] => destruct (numValues <=? len d) eqn:E
      end.
      * apply Z.leb_le in E. rewrite rleLoop_exit by (right; exact E).
        reflexivity.
      * apply IH.
Qed.

(** X8: [decodeRLEBytes] and [decodeRLEBytesWithOffset] decode alike: on
    every input the same values and the same error, or both panic. *)
Theorem decodeRLEBytesWithOffset_agrees :
  forall src numValues bitWidth,
    decodeRLEBytes src numValues bitWidth
    = (' (dst, _, err) <- decodeRLEBytesWithOffset src numValues bitWidth ;;
       Returns (dst, err)).
Proof.
  intros src numValues bitWidth. unfold decodeRLEBytes, decodeRLEBytesWithOffset.
  destruct (8 <? bitWidth); [reflexivity|].
  destruct (makeCap numValues); [|reflexivity]. cbn [bindO].
  rewrite (rleOffsetLoop_rleLoop (length src) src numValues bitWidth 0 [] 0).
  destruct (rleOffsetLoop (length src) src numValues bitWidth 0 [] 0)
    as [[dst bytesRead] [e|]]; reflexivity.
Qed.

Lemma uvarintLoop_consumed :
  forall buf i x s, 0 <= i -> snd (uvarintLoop buf i x s) <= i + len buf.
Proof.
  induction buf as [|b buf IH]; intros i x s Hi.
  - cbn [uvarintLoop snd]. rewrite len_nil. lia.
  - cbn [uvarintLoop]. rewrite len_cons. pose proof (len_nonneg _ buf).
    destruct (i =? 10); [cbn [snd]; lia|].
    destruct (b2z b <? 128).
    + destruct ((i =? 9) && (1 <? b2z b)); cbn [snd]; lia.
    + specialize (IH (i + 1)
        (Z.lor x (uint64 (Z.shiftl (Z.land (b2z b) 127) s))) (s + 7)). lia.
Qed.

Lemma len_from :
  forall (A : Type) (l : list A) i, 0 <= i <= len l -> len (from l i) = len l - i.
Proof.
  intros A l i H. unfold from, len in *. rewrite length_skipn. lia.
Qed.

Lemma Uvarint_consumed :
  forall src i u n, 0 <= i <= len src ->
    Uvarint (from src i) = (u, n) -> i + n <= len src.
Proof.
  intros src i u n Hi H. unfold Uvarint in H.
  pose proof (uvarintLoop_consumed (from src i) 0 0 0 ltac:(lia)) as Hc.
  rewrite H in Hc. cbn [snd] in Hc. rewrite len_from in Hc by exact Hi. lia.
Qed.

(** [bytesRead] is the position [i] of the loop: it never passes the end of
    the input. *)
Lemma rleOffsetLoop_bytesRead :
  forall fuel src numValues bitWidth i dst,
    0 <= bitWidth -> 0 <= i <= len src ->
    i <= snd (fst (rleOffsetLoop fuel src numValues bitWidth i dst i)) <= len src.
Proof.
  induction fuel as [|fuel IH]; intros src numValues bitWidth i dst Hbw Hi.
  - cbn [rleOffsetLoop fst snd]. lia.
  - cbn [rleOffsetLoop].
    destruct ((i <? len src) && (len dst <? numValues)); [|cbn [fst snd]; lia].
    destruct (Uvarint (from src i)) as [u n] eqn:Hu.
    destruct (n =? 0); [cbn [fst snd]; lia|].
    destruct (n <? 0) eqn:En; [cbn [fst snd]; lia|]. apply Z.ltb_ge in En.
    pose proof (Uvarint_consumed src i u n Hi Hu) as Hn.
    pose proof (Uvarint_nonneg _ _ _ Hu) as Hu0.
    destruct (maxSupportedValueCount <? Z.shiftr u 1); [cbn [fst snd]; lia|].
    assert (Hc : 0 <= Z.shiftr u 1) by (apply Z.shiftr_nonneg; exact Hu0).
    pose proof (byteCount_nonneg (Z.shiftr u 1) bitWidth Hc Hbw) as Hb.
    destruct (negb (Z.land u 1 =? 0)).
    + destruct (len src <? i + n + (Z.shiftr u 1 * 8 * bitWidth + 7) / 8) eqn:Ej;
        [cbn [fst snd]; lia|]. apply Z.ltb_ge in Ej.
      match goal with
      | |- context [numValues <=? len ?d] => destruct (numValues <=? len d)
      end; [cbn [fst snd]; lia|].
      match goal with
      | |- context [rleOffsetLoop fuel src numValues bitWidth ?j ?d _] =>
          specialize (IH src numValues bitWidth j d Hbw)
      end. lia.
    + destruct (negb (bitWidth =? 0)); cbn [andb].
      * destruct (len src <? i + n + 1) eqn:Ej; [cbn [fst snd]; lia|].
        apply Z.ltb_ge in Ej.
        match goal with
        | |- context [numValues <=? len ?d] => destruct (numValues <=? len d)
        end; [cbn [fst snd]; lia|].
        match goal with
        | |- context [rleOffsetLoop fuel src numValues bitWidth ?j ?d _] =>
            specialize (IH src numValues bitWidth j d Hbw)
        end. lia.
      * match goal with
        | |- context [numValues <=? len ?d] => destruct (numValues <=? len d)
        end; [cbn [fst snd]; lia|].
        match goal with
        | |- context [rleOffsetLoop fuel src numValues bitWidth ?j ?d _] =>
            specialize (IH src numValues bitWidth j d Hbw)
        end. lia.
Qed.

Lemma len_truncate :
  forall dst numValues, 0 <= numValues -> len (truncate dst numValues) <= numValues.
Proof.
  intros dst numValues H. unfold truncate.
  destruct (numValues <? len dst) eqn:E.
  - unfold len. rewrite length_firstn. lia.
  - apply Z.ltb_ge in E. exact E.
Qed.

(** X9: the count of bytes that [decodeRLEBytesWithOffset] reports lies
    within the input, error or not, and without an error no more values
    come back than were asked for. *)
Theorem decodeRLEBytesWithOffset_bounds :
  forall src numValues bitWidth dst bytesRead err,
    0 <= bitWidth ->
    decodeRLEBytesWithOffset src numValues bitWidth = Returns (dst, bytesRead, err) ->
    0 <= bytesRead <= len src /\ (err = None -> len dst <= numValues).
Proof.
  intros src numValues bitWidth dst bytesRead err Hbw H.
  unfold decodeRLEBytesWithOffset in H.
  destruct (8 <? bitWidth).
  { inversion H; subst. pose proof (len_nonneg _ src).
    split; [lia | discriminate]. }
  unfold makeCap in H. destruct (numValues <? 0) eqn:En; [discriminate H|].
  apply Z.ltb_ge in En. cbn [bindO] in H.
  pose proof (rleOffsetLoop_bytesRead (length src) src numValues bitWidth 0 []
                Hbw ltac:(pose proof (len_nonneg _ src); lia)) as Hb.
  destruct (rleOffsetLoop (length src) src numValues bitWidth 0 [] 0)
    as [[d b] [e|]]; cbn [fst snd] in Hb; inversion H; subst.
  - split; [lia | discriminate].
  - split; [lia | intros _; apply len_truncate; exact En].
Qed.

Lemma decodeRLEBytesWithOffset_bounds_witness :
  0 <= 2 <= len [x08; x05] /\ (@None error = None -> len [x05; x05; x05] <= 3).
Proof.
  apply (decodeRLEBytesWithOffset_bounds [x08; x05] 3 3 [x05; x05; x05] 2 None);
    [lia | reflexivity].
Defined.

Lemma appendRun_repeat :
  forall word numValues k dst,
    appendRun word numValues k dst
    = dst ++ repeat word (Z.to_nat (Z.min (Z.of_nat k) (numValues - len dst))).
Proof.
  intros word numValues k. induction k as [|k IH]; intros dst.
  - cbn [appendRun]. replace (Z.to_nat _) with O by lia.
    cbn [repeat]. symmetry. apply app_nil_r.
  - cbn [appendRun]. destruct (len dst <? numValues) eqn:E.
    + apply Z.ltb_lt in E. rewrite IH, len_app, len_one, <- app_assoc.
      f_equal. cbn [app].
      replace (Z.to_nat (Z.min (Z.of_nat (S k)) (numValues - len dst)))
        with (S (Z.to_nat (Z.min (Z.of_nat k) (numValues - (len dst + 1)))))
        by lia.
      reflexivity.
    + apply Z.ltb_ge in E. replace (Z.to_nat _) with O by lia.
      cbn [repeat]. symmetry. apply app_nil_r.
Qed.

Lemma firstn_repeat :
  forall (A : Type) (a : A) n m, firstn n (repeat a m) = repeat a (Nat.min n m).
Proof.
  intros A a n. induction n as [|n IH]; intros m.
  - reflexivity.
  - destruct m as [|m]; [reflexivity|]. cbn [repeat firstn Nat.min].
    rewrite IH. reflexivity.
Qed.

Lemma index_app :
  forall before b rest, index (before ++ b :: rest) (len before) = b.
Proof.
  intros before b rest. unfold index, len. rewrite Nat2Z.id.
  rewrite app_nth2, Nat.sub_diag by lia. reflexivity.
Qed.

Lemma rleLoop_putRuns :
  forall bitWidth numValues runs fuel before dst,
    0 < bitWidth ->
    Forall (fun run => 0 <= fst run <= maxSupportedValueCount) runs ->
    (length runs <= fuel)%nat ->
    rleLoop fuel (before ++ putRuns runs) numValues bitWidth (len before) dst
    = (dst ++ firstn (Z.to_nat (numValues - len dst)) (expandRuns runs), None).
Proof.
  intros bitWidth numValues runs.
  induction runs as [|[c w] runs IH]; intros fuel before dst Hbw Hruns Hfuel.
  - cbn [putRuns expandRuns map concat]. rewrite app_nil_r, firstn_nil, app_nil_r.
    apply rleLoop_exit. left. lia.
  - inversion Hruns as [|r rs Hc Hrs]; subst. cbn [fst] in Hc.
    destruct fuel as [|fuel]; [cbn [length] in Hfuel; lia|].
    cbn [length] in Hfuel.
    destruct (len dst <? numValues) eqn:E.
    2:{ apply Z.ltb_ge in E. rewrite rleLoop_exit by (right; exact E).
        replace (Z.to_nat (numValues - len dst)) with O by lia.
        cbn [firstn]. rewrite app_nil_r. reflexivity. }
    apply Z.ltb_lt in E.
    assert (Hx : 0 <= 2 * c < 2 ^ 64).
    { unfold maxSupportedValueCount in Hc. lia. }
    pose proof (putUvarint_length (2 * c) Hx) as Hn.
    unfold putRuns. cbn [map concat]. fold (putRuns runs).
    unfold putRun. cbn [fst snd]. rewrite <- !app_assoc. cbn [app].
    cbn [rleLoop].
    set (src := before ++ putUvarint (2 * c) ++ w :: putRuns runs).
    assert (Hsrc : len src = len before + len (putUvarint (2 * c)) + 1 + len (putRuns runs)).
    { unfold src. rewrite !len_app, len_cons. lia. }
    pose proof (len_nonneg _ (putRuns runs)) as Hr.
    pose proof (len_nonneg _ before) as Hbf.
    destruct (len before <? len src) eqn:Ei; [|apply Z.ltb_ge in Ei; lia].
    assert (E' : (len dst <? numValues) = true) by (apply Z.ltb_lt; exact E).
    rewrite E'. cbn [andb].
    unfold src at 1. rewrite from_app, Uvarint_putUvarint by exact Hx.
    destruct (len (putUvarint (2 * c)) =? 0) eqn:E0; [apply Z.eqb_eq in E0; lia|].
    destruct (len (putUvarint (2 * c)) <? 0) eqn:E1; [apply Z.ltb_lt in E1; lia|].
    rewrite Z.shiftr_div_pow2 by lia. change (2 ^ 1) with 2.
    replace (2 * c) with (c * 2) at 1 by lia. rewrite Z.div_mul by lia.
    destruct (maxSupportedValueCount <? c) eqn:Em; [apply Z.ltb_lt in Em; lia|].
    change 1 with (Z.ones 1) at 1. rewrite Z.land_ones by lia.
    change (2 ^ 1) with 2. replace (2 * c) with (c * 2) by lia.
    rewrite Z.mod_mul by lia. cbn [Z.eqb negb].
    destruct (bitWidth =? 0) eqn:Eb; [apply Z.eqb_eq in Eb; lia|]. cbn [negb andb].
    destruct (len src <? len before + len (putUvarint (c * 2)) + 1) eqn:Ej.
    { apply Z.ltb_lt in Ej. replace (c * 2) with (2 * c) in Ej by lia. lia. }
    replace (c * 2) with (2 * c) by lia.
    assert (Hw : index src (len before + len (putUvarint (2 * c))) = w).
    { unfold src. rewrite app_assoc, <- len_app. apply index_app. }
    rewrite Hw.
    replace (len before + len (putUvarint (2 * c)) + 1)
      with (len ((before ++ putUvarint (2 * c)) ++ [w]))
      by (rewrite !len_app, len_one; lia).
    assert (Hs : src = ((before ++ putUvarint (2 * c)) ++ [w]) ++ putRuns runs).
    { unfold src. rewrite <- !app_assoc. reflexivity. }
    rewrite Hs. rewrite IH by (assumption || lia).
    rewrite appendRun_repeat, <- app_assoc. f_equal. f_equal.
    cbn [expandRuns map concat fst snd]. fold (expandRuns runs).
    rewrite firstn_app, firstn_repeat, repeat_length.
    rewrite len_app, len_repeat.
    replace (2 * c / 2) with c
      by (replace (2 * c) with (c * 2) by lia; rewrite Z.div_mul; lia).
    f_equal; f_equal; lia.
Qed.

(** X10: at a bit width from 1 to 8, [decodeRLEBytes] turns a sequence of
    RLE runs, each of a count up to [maxSupportedValueCount], into the
    values the runs stand for, cut at the count asked for. *)
Theorem decodeRLEBytes_round_trip :
  forall runs numValues bitWidth,
    0 < bitWidth <= 8 -> 0 <= numValues ->
    Forall (fun run => 0 <= fst run <= maxSupportedValueCount) runs ->
    decodeRLEBytes (putRuns runs) numValues bitWidth
    = Returns (firstn (Z.to_nat numValues) (expandRuns runs), None).
Proof.
  intros runs numValues bitWidth Hbw Hn Hruns. unfold decodeRLEBytes.
  destruct (8 <? bitWidth) eqn:E8; [apply Z.ltb_lt in E8; lia|].
  rewrite makeCap_returns by exact Hn. cbn [bindO].
  assert (Hlen : (length runs <= length (putRuns runs))%nat).
  { clear. induction runs as [|r runs IH]; [apply Nat.le_refl|].
    unfold putRuns, putRun in *. cbn [map concat length].
    rewrite !length_app. cbn [length]. lia. }
  pose proof (rleLoop_putRuns bitWidth numValues runs (length (putRuns runs))
                [] [] ltac:(lia) Hruns Hlen) as H.
  cbn [app] in H. rewrite len_nil in H. rewrite H.
  replace (numValues - 0) with numValues by lia. f_equal. f_equal.
  unfold truncate.
  destruct (numValues <? len (firstn (Z.to_nat numValues) (expandRuns runs))) eqn:E;
    [|reflexivity].
  apply Z.ltb_lt in E. unfold len in E. rewrite length_firstn in E. lia.
Qed.

Lemma decodeRLEBytes_round_trip_witness :
  decodeRLEBytes (putRuns [(3, x01); (2, x00)]) 4 1
  = Returns (firstn (Z.to_nat 4) (expandRuns [(3, x01); (2, x00)]), None).
Proof.
  apply (decodeRLEBytes_round_trip [(3, x01); (2, x00)] 4 1); [lia | lia | ].
  repeat constructor; vm_compute; discriminate.
Defined.

Lemma slice_prefix :
  forall (A : Type) (l rest : list A), slice (l ++ rest) 0 (len l) = l.
Proof.
  intros A l rest. unfold slice, len.
  replace (Z.to_nat (Z.of_nat (length l) - 0)) with (length l) by lia.
  cbn [Z.to_nat skipn].
  rewrite firstn_app, firstn_all, Nat.sub_diag. cbn [firstn]. apply app_nil_r.
Qed.

(** The level decoder on a section and what follows it in the page. *)
Lemma decodeRLELevels_section :
  forall encoded rest numValues bitWidth,
    len encoded < 2 ^ 32 ->
    decodeRLELevels (putLE 4 (len encoded) ++ encoded ++ rest) numValues bitWidth
    = (' (levels, err) <- decodeRLEBytes encoded numValues bitWidth ;;
       match err with
       | Some e =>
           Returns ([], putLE 4 (len encoded) ++ encoded ++ rest, Some e)
       | None => Returns (levels, rest, None)
       end).
Proof.
  intros encoded rest numValues bitWidth Hlen.
  pose proof (len_nonneg _ encoded) as He. pose proof (len_nonneg _ rest) as Hr.
  unfold decodeRLELevels.
  set (data := putLE 4 (len encoded) ++ encoded ++ rest).
  assert (Hd : len data = 4 + len encoded + len rest).
  { unfold data. rewrite !len_app, len_putLE. lia. }
  destruct (len data <? 4) eqn:E4; [apply Z.ltb_lt in E4; lia|].
  assert (H4 : slice data 0 4 = putLE 4 (len encoded)).
  { unfold data. replace 4 with (len (putLE 4 (len encoded))) at 1
      by apply len_putLE.
    apply slice_prefix. }
  assert (HU : Uint32 (putLE 4 (len encoded)) = len encoded).
  { unfold Uint32. rewrite <- (app_nil_r (putLE 4 (len encoded))).
    apply le_uint_putLE. change (256 ^ Z.of_nat 4) with (2 ^ 32). lia. }
  rewrite H4, HU.
  destruct ((len encoded <? 0) || (len data <? 4 + len encoded)) eqn:E.
  { apply orb_true_iff in E. destruct E as [E|E]; apply Z.ltb_lt in E; lia. }
  assert (Hs : slice data 4 (4 + len encoded) = encoded).
  { unfold data. replace 4 with (len (putLE 4 (len encoded))) at 1 2
      by apply len_putLE.
    apply slice_app. }
  assert (Hf : from data (4 + len encoded) = rest).
  { unfold data. rewrite app_assoc.
    replace (4 + len encoded) with (len (putLE 4 (len encoded) ++ encoded))
      by (rewrite len_app, len_putLE; lia).
    apply from_app. }
  rewrite Hs, Hf. reflexivity.
Qed.

(** X11: on a level section followed by the rest of the page,
    [decodeRLELevels] decodes exactly the section: with the levels it
    returns the rest of the page, and on an error of the level decoder the
    whole page. *)
Theorem decodeRLELevels_frames :
  forall encoded rest numValues bitWidth,
    len encoded < 2 ^ 32 ->
    decodeRLELevels (putLevels encoded ++ rest) numValues bitWidth
    = (' (levels, err) <- decodeRLEBytes encoded numValues bitWidth ;;
       match err with
       | Some e => Returns ([], putLevels encoded ++ rest, Some e)
       | None => Returns (levels, rest, None)
       end).
Proof.
  intros encoded rest numValues bitWidth Hlen.
  unfold putLevels. rewrite <- app_assoc.
  apply decodeRLELevels_section. exact Hlen.
Qed.

Lemma decodeRLELevels_frames_witness :
  decodeRLELevels (putLevels [x08; x05] ++ [x2a]) 4 3
  = (' (levels, err) <- decodeRLEBytes [x08; x05] 4 3 ;;
     match err with
     | Some e => Returns ([], putLevels [x08; x05] ++ [x2a], Some e)
     | None => Returns (levels, [x2a], None)
     end).
Proof. apply (decodeRLELevels_frames [x08; x05] [x2a] 4 3). vm_compute. reflexivity. Defined.

(** ** Bit-packed values *)

(** A bit above the size of a number is clear. *)
Lemma testbit_small :
  forall a s m, 0 <= s -> 0 <= a < 2 ^ s -> s <= m -> Z.testbit a m = false.
Proof.
  intros a s m Hs Ha Hm.
  rewrite <- (Z.mod_small a (2 ^ s)) by exact Ha.
  apply Z.mod_pow2_bits_high. lia.
Qed.

Ltac bit_specs :=
  repeat first
    [ rewrite Z.lor_spec
    | rewrite Z.land_spec
    | rewrite Z.shiftr_spec by lia
    | rewrite Z.testbit_ones_nonneg by lia ].

(** The two masked reads of the loop body give the [bw] bits from bit [bi]
    of a two-byte window. *)
Lemma window_bits :
  forall b0 b1 bi bw,
    0 <= b0 < 256 -> 0 <= b1 < 256 -> 0 <= bi < 8 -> 0 < bw <= 8 ->
    let r := if 8 - bi <? bw then 8 - bi else bw in
    let v := Z.land (Z.shiftr b0 bi) (Z.ones r) in
    (if 0 <? bw - r
     then Z.lor v (Z.shiftl (Z.land b1 (Z.ones (bw - r))) r)
     else v)
    = Z.land (Z.shiftr (b0 + 256 * b1) bi) (Z.ones bw).
Proof.
  intros b0 b1 bi bw H0 H1 Hbi Hbw r v.
  assert (Hx : b0 + 256 * b1 = Z.lor b0 (Z.shiftl b1 8)).
  { rewrite lor_low_high by (change (2 ^ 8) with 256; lia).
    rewrite Z.shiftl_mul_pow2 by lia. change (2 ^ 8) with 256. lia. }
  rewrite Hx. subst v r.
  destruct (8 - bi <? bw) eqn:E; cbv beta iota.
  - apply Z.ltb_lt in E.
    destruct (0 <? bw - (8 - bi)) eqn:E'; [|apply Z.ltb_ge in E'; lia].
    apply Z.bits_inj'. intros n Hn.
    bit_specs.
    destruct (Z.lt_ge_cases n (8 - bi)) as [L|G].
    + rewrite Z.shiftl_spec_low by lia. rewrite Z.shiftl_spec_low by lia.
      assert (E1 : (n <? 8 - bi) = true) by (apply Z.ltb_lt; lia).
      assert (E2 : (n <? bw) = true) by (apply Z.ltb_lt; lia).
      rewrite E1, E2. rewrite ?orb_false_r, ?andb_true_r. reflexivity.
    + rewrite !Z.shiftl_spec by lia. rewrite Z.land_spec.
      rewrite Z.testbit_ones_nonneg by lia.
      assert (E1 : (n <? 8 - bi) = false) by (apply Z.ltb_ge; lia).
      rewrite E1, andb_false_r. cbn [orb].
      rewrite (testbit_small b0 8 (n + bi)) by (change (2 ^ 8) with 256; lia).
      cbn [orb]. replace (n + bi - 8) with (n - (8 - bi)) by lia.
      f_equal. destruct (n <? bw) eqn:A; destruct (n - (8 - bi) <? bw - (8 - bi)) eqn:B;
        try reflexivity;
        [apply Z.ltb_lt in A; apply Z.ltb_ge in B | apply Z.ltb_ge in A; apply Z.ltb_lt in B];
        lia.
  - apply Z.ltb_ge in E.
    destruct (0 <? bw - bw) eqn:E'; [apply Z.ltb_lt in E'; lia|].
    apply Z.bits_inj'. intros n Hn.
    bit_specs.
    destruct (n <? bw) eqn:A; [|rewrite !andb_false_r; reflexivity].
    apply Z.ltb_lt in A. rewrite Z.shiftl_spec_low by lia.
    rewrite ?orb_false_r, ?andb_true_r. reflexivity.
Qed.

Lemma bitPackedLoop_step :
  forall src bitWidth n i dst,
    bitPackedLoop src bitWidth (S n) i dst
    = if len src <=? (i * bitWidth) / 8 then dst
      else bitPackedLoop src bitWidth n (i + 1)
             (dst ++ [z2b (bitPackedValue src bitWidth i)]).
Proof. reflexivity. Qed.

Lemma bitPackedLoop_appends :
  forall src bitWidth n i dst,
    exists tail, bitPackedLoop src bitWidth n i dst = dst ++ tail.
Proof.
  intros src bitWidth n. induction n as [|n IH]; intros i dst.
  - exists []. cbn [bitPackedLoop]. symmetry. apply app_nil_r.
  - rewrite bitPackedLoop_step.
    destruct (len src <=? i * bitWidth / 8).
    + exists []. symmetry. apply app_nil_r.
    + destruct (IH (i + 1) (dst ++ [z2b (bitPackedValue src bitWidth i)]))
        as [tail Ht].
      rewrite Ht, <- app_assoc. eexists. reflexivity.
Qed.

Lemma bitPackedLoop_nth :
  forall src bitWidth n i dst (j : nat),
    0 < bitWidth -> 0 <= i -> (j < n)%nat ->
    (i + Z.of_nat j) * bitWidth < 8 * len src ->
    nth (length dst + j) (bitPackedLoop src bitWidth n i dst) x00
    = z2b (bitPackedValue src bitWidth (i + Z.of_nat j)).
Proof.
  intros src bitWidth n. induction n as [|n IH]; intros i dst j Hbw Hi Hj Hfit.
  - lia.
  - rewrite bitPackedLoop_step.
    assert (Hin : i * bitWidth / 8 < len src).
    { apply Z.div_lt_upper_bound; nia. }
    destruct (len src <=? i * bitWidth / 8) eqn:E; [apply Z.leb_le in E; lia|].
    destruct j as [|j].
    + destruct (bitPackedLoop_appends src bitWidth n (i + 1)
                  (dst ++ [z2b (bitPackedValue src bitWidth i)])) as [tail Ht].
      rewrite Ht, <- app_assoc. rewrite Nat.add_0_r.
      rewrite app_nth2, Nat.sub_diag by lia. cbn [app nth].
      replace (i + Z.of_nat 0) with i by lia. reflexivity.
    + replace (length dst + S j)%nat
        with (length (dst ++ [z2b (bitPackedValue src bitWidth i)]) + j)%nat
        by (rewrite length_app; cbn [length]; lia).
      rewrite IH by lia. f_equal. f_equal. lia.
Qed.

Lemma ones_range : forall n, 0 <= n <= 8 -> 0 <= Z.ones n < 256.
Proof.
  intros n Hn. rewrite Z.ones_equiv.
  assert (0 < 2 ^ n) by (apply Z.pow_pos_nonneg; lia).
  assert (2 ^ n <= 2 ^ 8) by (apply Z.pow_le_mono_r; lia).
  change (2 ^ 8) with 256 in *. lia.
Qed.

Lemma mask_ones : forall n, 0 <= n <= 8 -> uint8 (Z.shiftl 1 n - 1) = Z.ones n.
Proof.
  intros n Hn. pose proof (ones_range n Hn) as H.
  change (Z.shiftl 1 n - 1) with (Z.ones n).
  unfold uint8, wrap. apply Z.mod_small. change (2 ^ 8) with 256. lia.
Qed.

Lemma index_outside : forall src i, len src <= i -> index src i = x00.
Proof.
  intros src i H. unfold index. apply nth_overflow. unfold len in H. lia.
Qed.

(** The value extracted is a window of the two bytes the position falls
    into. *)
Lemma bitPackedValue_window :
  forall src bitWidth i,
    0 < bitWidth <= 8 -> 0 <= i ->
    bitPackedValue src bitWidth i
    = Z.land
        (Z.shiftr (b2z (index src (i * bitWidth / 8))
                   + 256 * b2z (index src (i * bitWidth / 8 + 1)))
           ((i * bitWidth) mod 8))
        (Z.ones bitWidth).
Proof.
  intros src bw i Hbw Hi. unfold bitPackedValue.
  set (k := i * bw / 8). set (bi := (i * bw) mod 8).
  assert (Hbi : 0 <= bi < 8) by (apply Z.mod_pos_bound; lia).
  pose proof (b2z_range (index src k)) as H0.
  pose proof (b2z_range (index src (k + 1))) as H1.
  rewrite <- (window_bits _ _ bi bw H0 H1 Hbi Hbw). cbv zeta.
  set (r := if 8 - bi <? bw then 8 - bi else bw).
  assert (Hr : 0 < r <= bw).
  { unfold r. destruct (8 - bi <? bw) eqn:E;
      [apply Z.ltb_lt in E | apply Z.ltb_ge in E]; lia. }
  rewrite mask_ones by lia.
  destruct (0 <? bw - r) eqn:E; cbn [andb]; [|reflexivity].
  apply Z.ltb_lt in E. rewrite mask_ones by lia.
  assert (Hm : 0 <= Z.land (b2z (index src (k + 1))) (Z.ones (bw - r))
               < 2 ^ (bw - r)).
  { rewrite Z.land_ones by lia. apply Z.mod_pos_bound.
    apply Z.pow_pos_nonneg; lia. }
  assert (Hu : uint8 (Z.shiftl (Z.land (b2z (index src (k + 1))) (Z.ones (bw - r))) r)
               = Z.shiftl (Z.land (b2z (index src (k + 1))) (Z.ones (bw - r))) r).
  { unfold uint8, wrap. apply Z.mod_small. rewrite Z.shiftl_mul_pow2 by lia.
    assert (0 < 2 ^ r) by (apply Z.pow_pos_nonneg; lia).
    assert (2 ^ (bw - r) * 2 ^ r = 2 ^ bw).
    { rewrite <- Z.pow_add_r by lia. f_equal. lia. }
    assert (2 ^ bw <= 2 ^ 8) by (apply Z.pow_le_mono_r; lia).
    nia. }
  destruct (k + 1 <? len src) eqn:Ek.
  - rewrite Hu. reflexivity.
  - apply Z.ltb_ge in Ek. rewrite (index_outside src (k + 1)) by exact Ek.
    change (b2z x00) with 0. rewrite Z.land_0_l, Z.shiftl_0_l, Z.lor_0_r.
    reflexivity.
Qed.

Lemma streamValue_cons :
  forall b src, streamValue (b :: src) = b2z b + 256 * streamValue src.
Proof. reflexivity. Qed.

Lemma streamValue_nonneg : forall src, 0 <= streamValue src.
Proof.
  induction src as [|b src IH]; [unfold streamValue; simpl; lia|].
  rewrite streamValue_cons. pose proof (b2z_range b). lia.
Qed.

Lemma streamValue_skipn :
  forall (k : nat) src,
    streamValue src / 256 ^ Z.of_nat k = streamValue (skipn k src).
Proof.
  induction k as [|k IH]; intros src.
  - change (256 ^ Z.of_nat 0) with 1. rewrite Z.div_1_r. reflexivity.
  - destruct src as [|b src].
    + cbn [skipn]. unfold streamValue. cbn [length le_uint]. apply Z.div_0_l.
      apply Z.pow_nonzero; lia.
    + cbn [skipn]. rewrite <- IH, streamValue_cons.
      rewrite Nat2Z.inj_succ, Z.pow_succ_r by lia.
      rewrite <- Z.div_div by (try lia; apply Z.pow_pos_nonneg; lia).
      f_equal. pose proof (b2z_range b).
      rewrite Z.add_comm, Z.mul_comm, Z.div_add_l by lia.
      rewrite Z.div_small by lia. lia.
Qed.

Lemma streamValue_window :
  forall src,
    streamValue src mod 65536
    = b2z (nth 0 src x00) + 256 * b2z (nth 1 src x00).
Proof.
  intros src. destruct src as [|a [|b src]].
  - reflexivity.
  - cbn [nth]. change (b2z x00) with 0. unfold streamValue.
    cbn [length le_uint]. pose proof (b2z_range a).
    rewrite Z.mod_small by lia. lia.
  - cbn [nth]. rewrite !streamValue_cons.
    pose proof (b2z_range a). pose proof (b2z_range b).
    replace (b2z a + 256 * (b2z b + 256 * streamValue src))
      with (b2z a + 256 * b2z b + streamValue src * 65536) by lia.
    rewrite Z.mod_add by lia. apply Z.mod_small. lia.
Qed.

Lemma nth_skipn_byte :
  forall (k j : nat) (src : list byte),
    nth j (skipn k src) x00 = nth (k + j) src x00.
Proof.
  induction k as [|k IH]; intros j src.
  - reflexivity.
  - destruct src as [|b src].
    + cbn [skipn]. destruct j; reflexivity.
    + cbn [skipn Nat.add nth]. apply IH.
Qed.

Lemma bitPackedValue_stream :
  forall src bitWidth i,
    0 < bitWidth <= 8 -> 0 <= i ->
    bitPackedValue src bitWidth i
    = (streamValue src / 2 ^ (i * bitWidth)) mod 2 ^ bitWidth.
Proof.
  intros src bw i Hbw Hi. rewrite bitPackedValue_window by assumption.
  set (k := i * bw / 8). set (bi := (i * bw) mod 8).
  assert (Hbi : 0 <= bi < 8) by (apply Z.mod_pos_bound; lia).
  assert (Hk : 0 <= k) by (apply Z.div_pos; nia).
  assert (Hi' : i * bw = 8 * k + bi) by (apply Z.div_mod; lia).
  set (Y := streamValue src / 256 ^ k).
  assert (HY : b2z (index src k) + 256 * b2z (index src (k + 1)) = Y mod 65536).
  { unfold Y. rewrite <- (Z2Nat.id k) at 3 by exact Hk.
    rewrite streamValue_skipn, streamValue_window, !nth_skipn_byte.
    unfold index. rewrite Nat.add_0_r.
    replace (Z.to_nat (k + 1)) with (Z.to_nat k + 1)%nat by lia. reflexivity. }
  rewrite HY, Hi'.
  assert (HR : streamValue src / 2 ^ (8 * k + bi) = Z.shiftr Y bi).
  { rewrite Z.shiftr_div_pow2 by lia. unfold Y.
    rewrite Z.pow_add_r, Z.pow_mul_r by lia. change (2 ^ 8) with 256.
    rewrite Z.div_div; [reflexivity | apply Z.pow_nonzero; lia | ].
    apply Z.pow_pos_nonneg; lia. }
  rewrite HR, <- Z.land_ones by lia.
  apply Z.bits_inj'. intros n Hn. bit_specs.
  destruct (n <? bw) eqn:E; [|rewrite !andb_false_r; reflexivity].
  apply Z.ltb_lt in E. change 65536 with (2 ^ 16).
  rewrite Z.mod_pow2_bits_low by lia. reflexivity.
Qed.

(** X12: at a bit width from 1 to 8, the value that
    [decodeBitPackedBytes] returns at position [i] is the [i]-th group of
    [bitWidth] bits of the input read as one little-endian number, as long
    as the group starts inside the input; the bits of a group that reach
    past the end count as zero. *)
Theorem decodeBitPackedBytes_extracts :
  forall src count bitWidth i,
    0 < bitWidth <= 8 -> 0 <= i < count -> i * bitWidth < 8 * len src ->
    index (decodeBitPackedBytes src count bitWidth) i
    = z2b ((streamValue src / 2 ^ (i * bitWidth)) mod 2 ^ bitWidth).
Proof.
  intros src count bw i Hbw Hi Hfit. unfold decodeBitPackedBytes, index.
  destruct (bw =? 0) eqn:E; [apply Z.eqb_eq in E; lia|].
  pose proof (bitPackedLoop_nth src bw (Z.to_nat count) 0 [] (Z.to_nat i)) as H.
  cbn [length Nat.add] in H. rewrite H by lia.
  rewrite Z2Nat.id by lia. cbn [Z.add].
  rewrite bitPackedValue_stream by lia. reflexivity.
Qed.

Lemma decodeBitPackedBytes_extracts_witness :
  index (decodeBitPackedBytes [x88; xc6; xfa] 8 3) 5
  = z2b ((streamValue [x88; xc6; xfa] / 2 ^ (5 * 3)) mod 2 ^ 3).
Proof.
  apply (decodeBitPackedBytes_extracts [x88; xc6; xfa] 8 3 5);
    [lia | lia | vm_compute; reflexivity].
Defined.

(** ** The errors of the parser and the look-ahead reader *)
















(** ** The mappers on what the parser gives *)

Section Shapes.

Context {A : Type}.

(** [repeat: until] gives items that do not stop, then one that does. *)
Lemma repeatUntil_shape :
  forall (item : list byte -> parsed A) stop k s acc l rest,
    repeatUntil item stop k s acc = POk l rest ->
    exists mid last,
      l = acc ++ mid ++ [last]
      /\ Forall (fun a => stop a = false /\ exists s' r', item s' = POk a r') mid
      /\ stop last = true
      /\ exists s' r', item s' = POk last r'.
Proof.
  intros item stop k. induction k as [|k IH]; intros s acc l rest H.
  - discriminate H.
  - cbn [repeatUntil] in H. apply bindP_ok in H.
    destruct H as [a [rest' [Ha H]]]. destruct (stop a) eqn:Es.
    + inversion H; subst. exists [], a. cbn [app].
      repeat split; [constructor | exact Es | eauto].
    + apply IH in H. destruct H as (mid & last & Hl & Hmid & Hlast & Hitem).
      exists (a :: mid), last. rewrite Hl, <- app_assoc. cbn [app].
      repeat split; [ | exact Hlast | exact Hitem].
      constructor; [|exact Hmid]. split; [exact Es | eauto].
Qed.

(** [repeat: expr] gives items of the item parser. *)
Lemma repeatExpr_shape :
  forall (item : list byte -> parsed A) n s acc l rest,
    repeatExpr item n s acc = POk l rest ->
    exists items,
      l = acc ++ items
      /\ Forall (fun a => exists s' r', item s' = POk a r') items.
Proof.
  intros item n. induction n as [|n IH]; intros s acc l rest H.
  - inversion H; subst. exists []. rewrite app_nil_r. split; [reflexivity | constructor].
  - cbn [repeatExpr] in H. apply bindP_ok in H.
    destruct H as [a [rest' [Ha H]]]. apply IH in H.
    destruct H as (items & Hl & Hitems). exists (a :: items).
    rewrite Hl, <- app_assoc. split; [reflexivity|].
    constructor; [eauto | exact Hitems].
Qed.

End Shapes.

Ltac split_ok H :=
  repeat match type of H with
         | bindP _ _ = POk _ _ =>
             apply bindP_ok in H;
             let a := fresh "a" in
             let r := fresh "r" in
             let Ha := fresh "Ha" in
             destruct H as (a & r & Ha & H)
         end.

(** A field that is not the STOP has a value, and an extended delta when the
    short one is zero. *)
Lemma producedField_value :
  forall f, producedField f -> IsStop f = false ->
    (HasExtendedDelta f = true -> exists z, ExtendedDelta f = Some z)
    /\ producedThriftField (mkThriftField 0 0 (FieldValue f)).
Proof.
  intros f (fuel & s & rest & H) Hstop.
  destruct fuel as [|fuel]; [discriminate H|].
  cbn [parse_compact_field] in H. split_ok H.
  inversion H; subst. clear H.
  unfold IsStop in Hstop. cbn [FieldHeader] in Hstop.
  unfold HasExtendedDelta, FieldDeltaShort. cbn [FieldHeader ExtendedDelta FieldValue].
  rewrite Hstop in *. cbn [negb andb] in *. split.
  - intros Hd. rewrite Hd in Ha0. split_ok Ha0. inversion Ha0; subst. eauto.
  - intros v Hv. cbn [Val] in Hv. subst a1. split_ok Ha1.
    inversion Ha1; subst. exists fuel. eauto.
Qed.

Lemma thriftFieldsLoop_produced :
  forall mid last tl prevID out,
    Forall (fun f => IsStop f = false /\ producedField f) mid ->
    IsStop last = true ->
    Forall producedThriftField out ->
    exists fields,
      thriftFieldsLoop (mid ++ last :: tl) prevID out = (fields, None)
      /\ Forall producedThriftField fields
      /\ length fields = (length out + length mid)%nat.
Proof.
  induction mid as [|f mid IH]; intros last tl prevID out Hmid Hlast Hout.
  - cbn [app thriftFieldsLoop]. rewrite Hlast. exists out.
    repeat split; [exact Hout | cbn [length]; lia].
  - inversion Hmid as [|f' mid' [Hstop Hf] Hmid']; subst.
    destruct (producedField_value f Hf Hstop) as [Hext Hval].
    cbn [app thriftFieldsLoop]. rewrite Hstop.
    assert (Hnew : forall id,
               Forall producedThriftField
                 (out ++ [mkThriftField id (uint8 (FieldType f)) (FieldValue f)])).
    { intros id. apply Forall_app. split; [exact Hout|].
      constructor; [|constructor]. intros v Hv. apply (Hval v). exact Hv. }
    destruct (HasExtendedDelta f) eqn:Hd.
    + destruct (Hext eq_refl) as [z Hz]. rewrite Hz.
      destruct (IH last tl (int16 (VarintZ_Value z)) _ Hmid' Hlast
                  (Hnew (int16 (VarintZ_Value z)))) as (fields & E & Hp & Hlen).
      exists fields. rewrite length_app in Hlen. cbn [length] in Hlen |- *.
      repeat split; [exact E | exact Hp | lia].
    + destruct (IH last tl (int16 (prevID + int16 (FieldDeltaShort f))) _
                  Hmid' Hlast
                  (Hnew (int16 (prevID + int16 (FieldDeltaShort f)))))
        as (fields & E & Hp & Hlen).
      exists fields. rewrite length_app in Hlen. cbn [length] in Hlen |- *.
      repeat split; [exact E | exact Hp | lia].
Qed.

(** On a struct the parser gave, [thriftFields] does not fail: it returns a
    field for each one before the STOP that closes the struct. *)
Lemma thriftFields_produced :
  forall st, producedStruct st ->
    exists fields,
      thriftFields st = (fields, None)
      /\ Forall producedThriftField fields
      /\ length (Fields st) = S (length fields).
Proof.
  intros st (fuel & s & rest & H).
  destruct fuel as [|fuel]; [discriminate H|].
  cbn [parse_compact_struct] in H. split_ok H. inversion H; subst. clear H.
  apply repeatUntil_shape in Ha.
  destruct Ha as (mid & last & Hl & Hmid & Hlast & _). cbn [app] in Hl. subst a.
  unfold thriftFields. cbn [Fields].
  destruct (thriftFieldsLoop_produced mid last [] 0 []) as (fields & E & Hp & Hlen).
  - eapply Forall_impl; [|exact Hmid]. intros f [Hs (s' & r' & Hf)].
    split; [exact Hs|]. exists fuel, s', r'. exact Hf.
  - exact Hlast.
  - constructor.
  - exists fields. rewrite length_app. cbn [length] in *.
    repeat split; [exact E | exact Hp | lia].
Qed.

(** X14: on a struct that [parseCompactStructFromBytes] returns,
    [thriftFields] does not fail, and it returns one field for each field
    of the struct but the STOP that closes it. *)
Theorem thriftFields_of_parsed_struct :
  forall b st consumed,
    parseCompactStructFromBytes b = Returns (Some st, consumed, None) ->
    exists fields,
      thriftFields st = (fields, None)
      /\ length (Fields st) = S (length fields).
Proof.
  intros b st consumed H. unfold parseCompactStructFromBytes in H.
  destruct (parse_compact_struct (3 * length b + 3) b) as [st' rest|e|] eqn:E;
    inversion H; subst.
  destruct (thriftFields_produced st) as (fields & Hf & _ & Hlen).
  - exists (3 * length b + 3)%nat, b, rest. exact E.
  - exists fields. split; assumption.
Qed.

Ltac value_cases H :=
  cbn [parse_compact_value] in H;
  repeat match type of H with
         | (if ?c then _ else _) = POk _ _ => destruct c
         end;
  split_ok H; inversion H; subst; clear H.

Lemma thriftFields_of_parsed_struct_witness :
  exists fields,
    thriftFields (parsedStruct header3) = (fields, None)
    /\ length (Fields (parsedStruct header3)) = S (length fields).
Proof.
  apply (thriftFields_of_parsed_struct header3 (parsedStruct header3) 13).
  vm_compute. reflexivity.
Defined.

(** The struct inside a value the parser gave is one the parser gave. *)
Lemma producedValue_struct :
  forall v st, producedValue v -> StructValue v = Some st -> producedStruct st.
Proof.
  intros v st (fuel & t & s & rest & H) Hst.
  destruct fuel as [|fuel]; [discriminate H|].
  value_cases H; cbn [StructValue noValue] in Hst; try discriminate Hst.
  inversion Hst; subst. exists fuel. eauto.
Qed.

Lemma parse_compact_list_elements :
  forall fuel s l rest,
    parse_compact_list fuel s = POk l rest -> Forall producedValue (Elements l).
Proof.
  intros fuel s l rest H. destruct fuel as [|fuel]; [discriminate H|].
  cbn [parse_compact_list] in H. split_ok H. inversion H; subst. clear H.
  cbn [Elements]. apply repeatExpr_shape in Ha1.
  destruct Ha1 as (items & Hl & Hitems). cbn [app] in Hl. subst a1.
  eapply Forall_impl; [|exact Hitems].
  intros e (s' & r' & He). exists fuel. eauto.
Qed.

(** The elements of a list or set inside a value the parser gave are values
    the parser gave. *)
Lemma producedValue_list :
  forall v l, producedValue v -> thriftList (Some v) = Some l ->
    Forall producedValue (Elements l).
Proof.
  intros v l (fuel & t & s & rest & H) Hl.
  destruct fuel as [|fuel]; [discriminate H|].
  value_cases H; cbn [thriftList ListValue SetValue noValue] in Hl;
    try discriminate Hl; inversion Hl; subst;
    eapply parse_compact_list_elements; eassumption.
Qed.

Lemma eachField_total :
  forall (S : Type) (step : S -> thriftField -> S + error) fields,
    (forall out f, In f fields -> exists out', step out f = inl out') ->
    forall out, exists r, eachField step fields out = inl r.
Proof.
  intros S step fields. induction fields as [|f fields IH]; intros Hstep out.
  - exists out. reflexivity.
  - cbn [eachField]. destruct (Hstep out f (or_introl eq_refl)) as [out' E].
    rewrite E. apply IH. intros o g Hg. apply Hstep. right. exact Hg.
Qed.

Lemma eachElement_total :
  forall (A : Type) (decode : CompactValue -> option (A + error)) elems,
    (forall elem e, In elem elems -> decode elem <> Some (inr e)) ->
    forall acc, exists r, eachElement decode elems acc = inl r.
Proof.
  intros A decode elems. induction elems as [|elem elems IH]; intros Hd acc.
  - exists acc. reflexivity.
  - cbn [eachElement].
    assert (Hrest : forall el e, In el elems -> decode el <> Some (inr e)).
    { intros el e Hin. apply Hd. right. exact Hin. }
    destruct (decode elem) as [[a|e]|] eqn:E.
    + apply IH. exact Hrest.
    + exfalso. apply (Hd elem e (or_introl eq_refl)). exact E.
    + apply IH. exact Hrest.
Qed.

Lemma thriftI32_no_error : forall v, snd (thriftI32 v) = None.
Proof.
  intros v. unfold thriftI32. destruct v as [v|]; [|reflexivity].
  destruct (I32Value v); reflexivity.
Qed.

Lemma thriftI64_no_error : forall v, snd (thriftI64 v) = None.
Proof.
  intros v. unfold thriftI64. destruct v as [v|]; [|reflexivity].
  destruct (I64Value v); reflexivity.
Qed.

Lemma withInt_total :
  forall (S : Type) r (set : Z -> S) out,
    snd r = None -> exists out', withInt r set out = inl out'.
Proof.
  intros S [[v ok] e] set out H. cbn [snd] in H. subst e. unfold withInt.
  destruct ok; eexists; reflexivity.
Qed.

Lemma whenInt_total :
  forall (S : Type) r (set : Z -> S) out,
    snd r = None -> exists out', whenInt r set out = inl out'.
Proof.
  intros S [[v ok] e] set out H. cbn [snd] in H. subst e. unfold whenInt.
  destruct ok; eexists; reflexivity.
Qed.

Ltac int_cases :=
  repeat match goal with
         | |- exists _, (if ?c then _ else _) = inl _ => destruct c
         | |- exists _, withInt (thriftI32 _) _ _ = inl _ =>
             apply withInt_total, thriftI32_no_error
         | |- exists _, withInt (thriftI64 _) _ _ = inl _ =>
             apply withInt_total, thriftI64_no_error
         | |- exists _, whenInt (thriftI32 _) _ _ = inl _ =>
             apply whenInt_total, thriftI32_no_error
         | |- exists _, inl _ = inl _ => eexists; reflexivity
         end.

Lemma schemaElementField_total :
  forall out f, exists out', schemaElementField out f = inl out'.
Proof.
  intros out f. unfold schemaElementField. destruct out. int_cases.
  destruct (thriftString (Val f)) as [s [|]]; eexists; reflexivity.
Qed.

Lemma columnMetaDataField_total :
  forall out f, exists out', columnMetaDataField out f = inl out'.
Proof.
  intros out f. unfold columnMetaDataField. destruct out. int_cases.
  - destruct (thriftList (Val f)) as [lst|]; [|eexists; reflexivity].
    match goal with
    | |- context [eachElement ?d ?l ?a] =>
        destruct (eachElement_total _ d l) with (acc := a) as [r E]
    end.
    + intros elem e _. pose proof (thriftI32_no_error (Some elem)) as H.
      destruct (thriftI32 (Some elem)) as [[v ok] err]. cbn [snd] in H.
      subst err. destruct ok; discriminate.
    + rewrite E. eexists. reflexivity.
  - destruct (thriftList (Val f)) as [lst|]; [|eexists; reflexivity].
    match goal with
    | |- context [eachElement ?d ?l ?a] =>
        destruct (eachElement_total _ d l) with (acc := a) as [r E]
    end.
    + intros elem e _. destruct (thriftString (Some elem)) as [s [|]]; discriminate.
    + rewrite E. eexists. reflexivity.
Qed.

Lemma decodeSchemaElement_total :
  forall st, producedStruct st -> exists m, decodeSchemaElement st = inl m.
Proof.
  intros st Hst. destruct (thriftFields_produced st Hst) as (fields & E & _ & _).
  unfold decodeSchemaElement. rewrite E. apply eachField_total.
  intros out f _. apply schemaElementField_total.
Qed.

Lemma decodeColumnMetaData_total :
  forall st, producedStruct st -> exists m, decodeColumnMetaData st = inl m.
Proof.
  intros st Hst. destruct (thriftFields_produced st Hst) as (fields & E & _ & _).
  unfold decodeColumnMetaData. rewrite E. apply eachField_total.
  intros out f _. apply columnMetaDataField_total.
Qed.

(** The loop over the structs of a list does not fail when no struct of the
    list makes its decoder fail. *)
Lemma eachStruct_total :
  forall (A : Type) (decode : CompactStruct -> A + error) f lst acc,
    producedThriftField f -> thriftList (Val f) = Some lst ->
    (forall st, producedStruct st -> exists a, decode st = inl a) ->
    exists r,
      eachElement
        (fun elem =>
           match thriftStruct (Some elem) with
           | None => None
           | Some st => Some (decode st)
           end)
        (Elements lst) acc = inl r.
Proof.
  intros A decode f lst acc Hf Hl Hdec.
  assert (Hel : Forall producedValue (Elements lst)).
  { destruct (Val f) as [v|] eqn:Hv; [|discriminate Hl].
    apply (producedValue_list v lst); [apply Hf; exact Hv | exact Hl]. }
  apply eachElement_total. intros elem e Hin.
  rewrite Forall_forall in Hel. specialize (Hel elem Hin).
  unfold thriftStruct. destruct (StructValue elem) as [st|] eqn:Hst; [|discriminate].
  destruct (Hdec st (producedValue_struct elem st Hel Hst)) as [a Ha].
  rewrite Ha. discriminate.
Qed.

Lemma columnChunkField_total :
  forall out f, producedThriftField f ->
    exists out', columnChunkField out f = inl out'.
Proof.
  intros out f Hf. unfold columnChunkField. destruct out. int_cases.
  - destruct (thriftString (Val f)) as [s [|]]; [|eexists; reflexivity].
    destruct s; eexists; reflexivity.
  - destruct (thriftStruct (Val f)) as [sst|] eqn:Hs; [|eexists; reflexivity].
    unfold thriftStruct in Hs. destruct (Val f) as [v|] eqn:Hv; [|discriminate Hs].
    destruct (decodeColumnMetaData_total sst) as [m Hm].
    + apply (producedValue_struct v sst); [apply Hf; exact Hv | exact Hs].
    + rewrite Hm. eexists. reflexivity.
Qed.

Lemma decodeColumnChunk_total :
  forall st, producedStruct st -> exists m, decodeColumnChunk st = inl m.
Proof.
  intros st Hst. destruct (thriftFields_produced st Hst) as (fields & E & Hp & _).
  unfold decodeColumnChunk. rewrite E. apply eachField_total.
  intros out f Hin. apply columnChunkField_total.
  rewrite Forall_forall in Hp. apply Hp. exact Hin.
Qed.

Lemma rowGroupField_total :
  forall out f, producedThriftField f ->
    exists out', rowGroupField out f = inl out'.
Proof.
  intros out f Hf. unfold rowGroupField.
  destruct out as [cols tbs nr fo tcs]. int_cases.
  destruct (thriftList (Val f)) as [lst|] eqn:Hl; [|eexists; reflexivity].
  destruct (eachStruct_total _ decodeColumnChunk f lst cols Hf Hl
              decodeColumnChunk_total) as [r E].
  rewrite E. eexists. reflexivity.
Qed.

Lemma decodeRowGroup_total :
  forall st, producedStruct st -> exists m, decodeRowGroup st = inl m.
Proof.
  intros st Hst. destruct (thriftFields_produced st Hst) as (fields & E & Hp & _).
  unfold decodeRowGroup. rewrite E. apply eachField_total.
  intros out f Hin. apply rowGroupField_total.
  rewrite Forall_forall in Hp. apply Hp. exact Hin.
Qed.

Lemma fileMetaDataField_total :
  forall meta f, producedThriftField f ->
    exists meta', fileMetaDataField meta f = inl meta'.
Proof.
  intros meta f Hf. unfold fileMetaDataField.
  destruct meta as [ver sch nr rgs]. int_cases.
  - destruct (thriftList (Val f)) as [lst|] eqn:Hl; [|eexists; reflexivity].
    destruct (eachStruct_total _ decodeSchemaElement f lst sch Hf Hl
                decodeSchemaElement_total) as [r E].
    rewrite E. eexists. reflexivity.
  - destruct (thriftList (Val f)) as [lst|] eqn:Hl; [|eexists; reflexivity].
    destruct (eachStruct_total _ decodeRowGroup f lst rgs Hf Hl
                decodeRowGroup_total) as [r E].
    rewrite E. eexists. reflexivity.
Qed.

Lemma decodeFileMetaData_total :
  forall st, producedStruct st -> exists m, decodeFileMetaData st = inl m.
Proof.
  intros st Hst. destruct (thriftFields_produced st Hst) as (fields & E & Hp & _).
  unfold decodeFileMetaData. rewrite E. apply eachField_total.
  intros out f Hin. apply fileMetaDataField_total.
  rewrite Forall_forall in Hp. apply Hp. exact Hin.
Qed.

Lemma pageHeaderField_total :
  forall h f, producedThriftField f ->
    exists h', pageHeaderField h f = inl h'.
Proof.
  intros h f Hf. unfold pageHeaderField. destruct h. int_cases.
  destruct (thriftStruct (Val f)) as [dphSt|] eqn:Hs; [|eexists; reflexivity].
  unfold thriftStruct in Hs. destruct (Val f) as [v|] eqn:Hv; [|discriminate Hs].
  destruct (thriftFields_produced dphSt) as (dFields & E & _ & _).
  { apply (producedValue_struct v dphSt); [apply Hf; exact Hv | exact Hs]. }
  rewrite E. apply eachField_total. intros out df _.
  unfold dataPageHeaderField. destruct out. int_cases.
Qed.

Lemma decodePageHeader_total :
  forall st, producedStruct st -> exists h, decodePageHeader st = inl h.
Proof.
  intros st Hst. destruct (thriftFields_produced st Hst) as (fields & E & Hp & _).
  unfold decodePageHeader. rewrite E. apply eachField_total.
  intros out f Hin. apply pageHeaderField_total.
  rewrite Forall_forall in Hp. apply Hp. exact Hin.
Qed.

Lemma parsed_produced :
  forall b st consumed,
    parseCompactStructFromBytes b = Returns (Some st, consumed, None) ->
    producedStruct st.
Proof.
  intros b st consumed H. unfold parseCompactStructFromBytes in H.
  destruct (parse_compact_struct (3 * length b + 3) b) as [st' rest|e|] eqn:E;
    inversion H; subst.
  exists (3 * length b + 3)%nat, b, rest. exact E.
Qed.

(** X15: [decodeFileMetaData] does not fail on a struct that
    [parseCompactStructFromBytes] returns, whatever the struct holds: the
    one error of the mapper and of the decoders under it, a long-form field
    header without its id, is one the parser never leaves behind. *)
Theorem decodeFileMetaData_of_parsed_struct :
  forall b st consumed,
    parseCompactStructFromBytes b = Returns (Some st, consumed, None) ->
    exists metadata, decodeFileMetaData st = inl metadata.
Proof.
  intros b st consumed H. apply decodeFileMetaData_total.
  apply (parsed_produced b st consumed). exact H.
Qed.

Lemma decodeFileMetaData_of_parsed_struct_witness :
  exists metadata, decodeFileMetaData (parsedStruct footerExample) = inl metadata.
Proof.
  apply (decodeFileMetaData_of_parsed_struct footerExample
           (parsedStruct footerExample) 19).
  vm_compute. reflexivity.
Defined.

(** X16: [decodePageHeader] does not fail on a struct that
    [parseCompactStructFromBytes] returns. *)
Theorem decodePageHeader_of_parsed_struct :
  forall b st consumed,
    parseCompactStructFromBytes b = Returns (Some st, consumed, None) ->
    exists h, decodePageHeader st = inl h.
Proof.
  intros b st consumed H. apply decodePageHeader_total.
  apply (parsed_produced b st consumed). exact H.
Qed.

Lemma decodePageHeader_of_parsed_struct_witness :
  exists h, decodePageHeader (parsedStruct header3) = inl h.
Proof.
  apply (decodePageHeader_of_parsed_struct header3 (parsedStruct header3) 13).
  vm_compute. reflexivity.
Defined.

(** ** What follows a struct does not matter *)

Lemma bindP_agree :
  forall (A B : Type) (m m' : parsed A) (k k' : A -> list byte -> parsed B),
    (m <> PDeep -> m' = m) ->
    (forall a r, m = POk a r -> k a r <> PDeep -> k' a r = k a r) ->
    bindP m k <> PDeep -> bindP m' k' = bindP m k.
Proof.
  intros A B m m' k k' Hm Hk H.
  destruct m as [a r|e|].
  - rewrite Hm by discriminate. cbn [bindP] in *. apply Hk; [reflexivity | exact H].
  - rewrite Hm by discriminate. reflexivity.
  - exfalso. apply H. reflexivity.
Qed.

Lemma repeatExpr_refines :
  forall (A : Type) (item item' : list byte -> parsed A) n acc,
    refines item item' ->
    refines (fun s => repeatExpr item n s acc) (fun s => repeatExpr item' n s acc).
Proof.
  intros A item item' n. induction n as [|n IH]; intros acc Hitem s H.
  - reflexivity.
  - cbn [repeatExpr] in *. apply bindP_agree; [apply Hitem | | exact H].
    intros a r _ Hk. apply (IH (acc ++ [a]) Hitem r Hk).
Qed.

Lemma repeatUntil_refines :
  forall (A : Type) (item item' : list byte -> parsed A) stop k acc,
    refines item item' ->
    refines (fun s => repeatUntil item stop k s acc)
            (fun s => repeatUntil item' stop k s acc).
Proof.
  intros A item item' stop k. induction k as [|k IH]; intros acc Hitem s H.
  - reflexivity.
  - cbn [repeatUntil] in *. apply bindP_agree; [apply Hitem | | exact H].
    intros a r _ Hk. destruct (stop a); [reflexivity|].
    apply (IH (acc ++ [a]) Hitem r Hk).
Qed.

Ltac agree :=
  repeat match goal with
         | |- (if ?c then _ else _) <> PDeep -> _ => destruct c
         | |- (if ?c then _ else _) = (if ?c then _ else _) => destruct c
         | |- _ <> PDeep -> ?x = ?x => intros _; reflexivity
         | |- ?x = ?x => reflexivity
         | |- bindP _ _ <> PDeep -> bindP _ _ = bindP _ _ =>
             apply bindP_agree
         | |- forall a r, _ = POk a r -> _ =>
             let a := fresh "a" in
             let r := fresh "r" in
             intros a r _
         end.

(** A result within the depth budget is the result under any larger
    budget. *)
Lemma parse_mono : forall fuel, parserMono fuel.
Proof.
  induction fuel as [|fuel IH]; intros fuel' Hle.
  - repeat split; intros; intros s H; exfalso; apply H; reflexivity.
  - destruct fuel' as [|fuel']; [lia|].
    destruct (IH fuel' ltac:(lia)) as [IHv [IHl [IHm [IHs IHf]]]].
    split; [|split; [|split; [|split]]].
    + intros t s. cbn [parse_compact_value]. agree;
        first [apply IHl | apply IHm | apply IHs].
    + intros s. cbn [parse_compact_list]. agree.
      apply (repeatExpr_refines _ _ _ _ [] (IHv _)).
    + intros s. cbn [parse_compact_map]. agree.
      apply (repeatExpr_refines _ _ _ _ []).
      intros s'. agree; apply IHv.
    + intros s. cbn [parse_compact_struct]. agree.
      apply (repeatUntil_refines _ _ _ _ _ [] IHf).
    + intros s. cbn [parse_compact_field]. agree; first [apply IHv].
Qed.

Lemma read_u1_extends : extends read_u1.
Proof.
  intros s a rest more H. destruct s as [|b s]; [discriminate H|].
  inversion H; subst. reflexivity.
Qed.

Lemma read_bytes_extends : forall n, extends (read_bytes n).
Proof.
  intros n s a rest more H. unfold read_bytes in *.
  destruct (n <? 0); [discriminate H|].
  destruct (len s <? n) eqn:E; [discriminate H|]. apply Z.ltb_ge in E.
  inversion H; subst. pose proof (len_nonneg _ more) as Hm.
  destruct (len (s ++ more) <? n) eqn:E'.
  { apply Z.ltb_lt in E'. rewrite len_app in E'. lia. }
  unfold len in E.
  rewrite firstn_app, skipn_app.
  replace (Z.to_nat n - length s)%nat with O by lia.
  cbn [firstn skipn]. rewrite app_nil_r. reflexivity.
Qed.

Lemma read_varint_bytes_extends :
  forall acc, extends (fun s => read_varint_bytes s acc).
Proof.
  intros acc s. revert acc. induction s as [|b s IH]; intros acc a rest more H.
  - discriminate H.
  - cbn [app read_varint_bytes] in *.
    destruct (Z.land (b2z b) 128 =? 0).
    + inversion H; subst. reflexivity.
    + apply IH. exact H.
Qed.

Ltac extend_with lemma :=
  match goal with
  | Ha : ?m = POk _ _ |- context [bindP ?m' _] =>
      rewrite (lemma _ _ _ _ Ha); cbn [bindP]
  end.

Lemma parse_varint_u_extends : extends parse_varint_u.
Proof.
  intros s a rest more H. unfold parse_varint_u in *. split_ok H.
  inversion H; subst. rewrite (read_varint_bytes_extends [] _ _ _ more Ha).
  reflexivity.
Qed.

Lemma parse_varint_z_extends : extends parse_varint_z.
Proof.
  intros s a rest more H. unfold parse_varint_z in *. split_ok H.
  inversion H; subst. rewrite (read_varint_bytes_extends [] _ _ _ more Ha).
  reflexivity.
Qed.

Lemma parse_compact_string_extends : extends parse_compact_string.
Proof.
  intros s a rest more H. unfold parse_compact_string in *. split_ok H.
  inversion H; subst.
  rewrite (parse_varint_u_extends _ _ _ more Ha). cbn [bindP].
  rewrite (read_bytes_extends _ _ _ _ more Ha0). reflexivity.
Qed.

Lemma repeatExpr_extends :
  forall (A : Type) (item : list byte -> parsed A) n acc,
    extends item -> extends (fun s => repeatExpr item n s acc).
Proof.
  intros A item n. induction n as [|n IH]; intros acc Hitem s l rest more H.
  - inversion H; subst. reflexivity.
  - cbn [repeatExpr] in *. split_ok H.
    rewrite (Hitem _ _ _ more Ha). cbn [bindP].
    apply (IH _ Hitem). exact H.
Qed.

Lemma repeatUntil_extends :
  forall (A : Type) (item : list byte -> parsed A) stop k acc,
    extends item -> extends (fun s => repeatUntil item stop k s acc).
Proof.
  intros A item stop k. induction k as [|k IH]; intros acc Hitem s l rest more H.
  - discriminate H.
  - cbn [repeatUntil] in *. split_ok H.
    rewrite (Hitem _ _ _ more Ha). cbn [bindP].
    destruct (stop a).
    + inversion H; subst. reflexivity.
    + apply (IH _ Hitem). exact H.
Qed.

(** A [repeat: until] that ends within its counter ends the same way within
    a larger one. *)
Lemma repeatUntil_more :
  forall (A : Type) (item : list byte -> parsed A) stop k k' s acc l rest,
    (k <= k')%nat ->
    repeatUntil item stop k s acc = POk l rest ->
    repeatUntil item stop k' s acc = POk l rest.
Proof.
  intros A item stop k. induction k as [|k IH]; intros k' s acc l rest Hk H.
  - discriminate H.
  - destruct k' as [|k']; [lia|]. cbn [repeatUntil] in *. split_ok H.
    rewrite Ha. cbn [bindP]. destruct (stop a); [exact H|].
    apply (IH k'); [lia | exact H].
Qed.

Ltac ext_leaf more Ha :=
  first
    [ rewrite (read_u1_extends _ _ _ more Ha)
    | rewrite (read_bytes_extends _ _ _ _ more Ha)
    | rewrite (parse_varint_u_extends _ _ _ more Ha)
    | rewrite (parse_varint_z_extends _ _ _ more Ha)
    | rewrite (parse_compact_string_extends _ _ _ more Ha)
    | match goal with
      | IH : extends _ |- _ => rewrite (IH _ _ _ more Ha)
      | IH : forall t, extends _ |- _ => rewrite (IH _ _ _ _ more Ha)
      | IH : forall t, extends _ |- _ =>
          rewrite (repeatExpr_extends _ _ _ _ (IH _) _ _ _ more Ha)
      end ];
  cbn [bindP].

Ltac ext more H :=
  lazymatch type of H with
  | (if ?c then _ else _) = POk _ _ => destruct c; ext more H
  | POk _ _ = POk _ _ => inversion H; subst; clear H; cbn [bindP]
  | bindP _ _ = POk _ _ =>
      apply bindP_ok in H;
      let a := fresh "a" in
      let r := fresh "r" in
      let Ha := fresh "Ha" in
      destruct H as (a & r & Ha & H); ext more Ha; ext more H
  | _ => ext_leaf more H
  end.

(** What the parser reads does not depend on the bytes behind it. *)
Lemma parse_extends : forall fuel, parserExtends fuel.
Proof.
  induction fuel as [|fuel [IHv [IHl [IHm [IHs IHf]]]]].
  - repeat split; intros; intros s a rest more H; discriminate H.
  - unfold parserExtends. split; [|split; [|split; [|split]]].
    + intros t s a rest more H. cbn [parse_compact_value] in *.
      clear IHv IHf. ext more H; reflexivity.
    + intros s a rest more H. cbn [parse_compact_list] in *.
      clear IHl IHm IHs IHf. ext more H; reflexivity.
    + intros s a rest more H. cbn [parse_compact_map] in *.
      assert (Hentry : forall kt vt,
                 extends (fun s =>
                   bindP (parse_compact_value fuel kt s) (fun k rest =>
                   bindP (parse_compact_value fuel vt rest) (fun v rest =>
                   POk (mkMapEntry k v) rest)))).
      { intros kt vt s' e' rest' more' H'. clear IHl IHm IHs IHf.
        ext more' H'; reflexivity. }
      clear IHv IHl IHm IHs IHf.
      apply bindP_ok in H. destruct H as (sz & r1 & H1 & H).
      rewrite (parse_varint_u_extends _ _ _ more H1). cbn [bindP].
      apply bindP_ok in H. destruct H as (tb & r2 & H2 & H).
      assert (E2 : (if negb (VarintU_ValueU sz =? 0)
                    then bindP (read_u1 (r1 ++ more)) (fun b rest => POk (Some b) rest)
                    else POk None (r1 ++ more))
                   = POk tb (r2 ++ more)).
      { destruct (negb (VarintU_ValueU sz =? 0)).
        - apply bindP_ok in H2. destruct H2 as (b & r & Hb & H2).
          inversion H2; subst. rewrite (read_u1_extends _ _ _ more Hb).
          reflexivity.
        - inversion H2; subst. reflexivity. }
      rewrite E2. cbn [bindP].
      apply bindP_ok in H. destruct H as (en & r3 & H3 & H).
      rewrite (repeatExpr_extends _ _ _ _ (Hentry _ _) _ _ _ more H3).
      cbn [bindP]. inversion H; subst. reflexivity.
    + intros s a rest more H. cbn [parse_compact_struct] in *.
      apply bindP_ok in H. destruct H as (fs & r & Hfs & H).
      inversion H; subst.
      apply (repeatUntil_extends _ _ _ _ [] IHf _ _ _ more) in Hfs.
      apply (repeatUntil_more _ _ _ _ (S (length (s ++ more)))) in Hfs.
      * rewrite Hfs. reflexivity.
      * rewrite length_app. lia.
    + intros s a rest more H. cbn [parse_compact_field] in *.
      clear IHl IHm IHs IHf. ext more H; reflexivity.
Qed.

(** Bytes behind the input change nothing in the struct read, under the
    budget of the longer input. *)
Lemma parse_compact_struct_extends :
  forall b st rest more,
    parse_compact_struct (3 * length b + 3) b = POk st rest ->
    parse_compact_struct (3 * length (b ++ more) + 3) (b ++ more)
    = POk st (rest ++ more).
Proof.
  intros b st rest more E.
  destruct (parse_extends (3 * length b + 3)) as [_ [_ [_ [Es _]]]].
  pose proof (Es b st rest more E) as E'.
  destruct (parse_mono (3 * length b + 3) (3 * length (b ++ more) + 3)%nat)
    as [_ [_ [_ [Ms _]]]].
  { rewrite length_app. lia. }
  rewrite (Ms (b ++ more)) by (rewrite E'; discriminate).
  exact E'.
Qed.

(** X17: what [parseCompactStructFromBytes] decodes does not depend on
    the bytes that follow the struct: with more bytes behind the input it
    returns the same struct and the same count of bytes consumed. *)
Theorem parseCompactStructFromBytes_prefix :
  forall b st consumed more,
    parseCompactStructFromBytes b = Returns (Some st, consumed, None) ->
    parseCompactStructFromBytes (b ++ more) = Returns (Some st, consumed, None).
Proof.
  intros b st consumed more H. unfold parseCompactStructFromBytes in *.
  destruct (parse_compact_struct (3 * length b + 3) b) as [st' rest|e|] eqn:E;
    inversion H; subst. clear H.
  rewrite (parse_compact_struct_extends b st rest more E).
  rewrite !len_app. do 3 f_equal. lia.
Qed.

Lemma parseCompactStructFromBytes_prefix_witness :
  parseCompactStructFromBytes (header3 ++ body3)
  = Returns (Some (parsedStruct header3), 13, None).
Proof.
  apply (parseCompactStructFromBytes_prefix header3 (parsedStruct header3) 13 body3).
  vm_compute. reflexivity.
Defined.

Lemma peekLoop_sound :
  forall fuel r maxPeek peekN st consumed r',
    peekLoop fuel r maxPeek peekN = Returns (Some st, consumed, None, r') ->
    parseCompactStructFromBytes r = Returns (Some st, consumed, None)
    /\ r' = from r consumed.
Proof.
  induction fuel as [|fuel IH]; intros r maxPeek peekN st consumed r' H.
  - discriminate H.
  - cbn [peekLoop] in H.
    set (n := if maxPeek <? peekN then maxPeek else peekN) in H.
    destruct (len (firstn (Z.to_nat n) r) =? 0); [discriminate H|].
    unfold parseCompactStructFromBytes in H |- *.
    destruct (parse_compact_struct (3 * length (firstn (Z.to_nat n) r) + 3)
                (firstn (Z.to_nat n) r)) as [st0 rest|e|] eqn:E;
      cbn [bindO] in H; [ | | discriminate H].
    + destruct (len (firstn (Z.to_nat n) r) - len rest <=? 0); [discriminate H|].
      inversion H; subst. split; [|reflexivity].
      pose proof (parse_compact_struct_extends _ _ _ (skipn (Z.to_nat n) r) E)
        as E'.
      rewrite firstn_skipn in E'. rewrite E'.
      pose proof (f_equal (@len byte) (firstn_skipn (Z.to_nat n) r)) as Hl.
      rewrite len_app in Hl. rewrite len_app. do 3 f_equal. lia.
    + destruct (mentionsEOF e); [|discriminate H].
      destruct (maxPeek <=? n); [discriminate H|].
      apply (IH _ _ _ _ _ _ H).
Qed.

(** X18: the look-ahead of [parseCompactStructFromBufio] is sound.  The
    struct and the count it returns from a window of the reader are what
    [parseCompactStructFromBytes] returns on all the bytes the reader
    holds, and the reader is left behind the bytes of the struct. *)
Theorem parseCompactStructFromBufio_sound :
  forall r maxPeek st consumed r',
    parseCompactStructFromBufio r maxPeek = Returns (Some st, consumed, None, r') ->
    parseCompactStructFromBytes r = Returns (Some st, consumed, None)
    /\ r' = from r consumed.
Proof.
  intros r maxPeek st consumed r' H. unfold parseCompactStructFromBufio in H.
  apply peekLoop_sound in H. exact H.
Qed.

Lemma parseCompactStructFromBufio_sound_witness :
  parseCompactStructFromBytes (header3 ++ body3)
  = Returns (Some (parsedStruct header3), 13, None)
  /\ body3 = from (header3 ++ body3) 13.
Proof.
  apply (parseCompactStructFromBufio_sound (header3 ++ body3) (64 * 1024)
           (parsedStruct header3) 13 body3).
  vm_compute. reflexivity.
Defined.

(** ** Page headers and whole pages, written and read back *)

Lemma parse_i32_field :
  forall fuel v rest, - 2 ^ 62 <= v < 2 ^ 62 ->
    parse_compact_field (S (S fuel)) (x15 :: putVarint v ++ rest)
    = POk (shortField 21 (i32Value (mkVarintZ (putVarint v)))) rest.
Proof.
  intros fuel v rest Hv.
  cbn [parse_compact_field read_u1 bindP].
  change (b2z x15) with 21.
  change (21 =? 0) with false.
  change (Z.land (Z.shiftr 21 4) 15 =? 0) with false.
  change (Z.land 21 15) with 5.
  cbn [negb andb bindP parse_compact_value].
  change (5 =? 3) with false. change (5 =? 4) with false.
  change (5 =? 5) with true. cbv iota.
  rewrite parse_varint_z_putVarint by exact Hv. reflexivity.
Qed.

Lemma parse_stop_field :
  forall fuel rest,
    parse_compact_field (S fuel) (x00 :: rest) = POk stopField rest.
Proof. intros fuel rest. reflexivity. Qed.

Lemma parse_data_page_header :
  forall fuel nv enc rest,
    - 2 ^ 62 <= nv < 2 ^ 62 -> - 2 ^ 62 <= enc < 2 ^ 62 ->
    parse_compact_struct (S (S (S fuel))) (putDataPageHeader nv enc ++ rest)
    = POk (dataPageHeaderTree nv enc) rest.
Proof.
  intros fuel nv enc rest Hnv Henc. unfold putDataPageHeader.
  cbn [app]. rewrite <- app_assoc. cbn [app]. rewrite <- app_assoc. cbn [app].
  set (s := x15 :: putVarint nv ++ x15 :: putVarint enc ++ x00 :: rest).
  assert (H3 : repeatUntil (parse_compact_field (S (S fuel))) IsStop 3 s []
               = POk (Fields (dataPageHeaderTree nv enc)) rest).
  { unfold s. cbn [repeatUntil].
    rewrite parse_i32_field by exact Hnv. cbn [bindP].
    change (IsStop (shortField 21 (i32Value (mkVarintZ (putVarint nv))))) with false.
    cbv iota. rewrite parse_i32_field by exact Henc. cbn [bindP].
    change (IsStop (shortField 21 (i32Value (mkVarintZ (putVarint enc))))) with false.
    cbv iota. rewrite parse_stop_field. reflexivity. }
  cbn [parse_compact_struct].
  rewrite (repeatUntil_more _ _ _ 3 (S (length s)) s [] _ _) with (2 := H3).
  - reflexivity.
  - unfold s. cbn [length]. rewrite !length_app. cbn [length]. lia.
Qed.

Lemma parse_data_page_header_field :
  forall fuel nv enc rest,
    - 2 ^ 62 <= nv < 2 ^ 62 -> - 2 ^ 62 <= enc < 2 ^ 62 ->
    parse_compact_field (S (S (S (S (S fuel)))))
      (x2c :: putDataPageHeader nv enc ++ rest)
    = POk (shortField 44 (structValue (dataPageHeaderTree nv enc))) rest.
Proof.
  intros fuel nv enc rest Hnv Henc.
  cbn [parse_compact_field read_u1 bindP].
  change (b2z x2c) with 44.
  change (44 =? 0) with false.
  change (Z.land (Z.shiftr 44 4) 15 =? 0) with false.
  change (Z.land 44 15) with 12.
  cbn [negb andb bindP parse_compact_value].
  change (12 =? 3) with false. change (12 =? 4) with false.
  change (12 =? 5) with false. change (12 =? 6) with false.
  change (12 =? 7) with false. change (12 =? 8) with false.
  change (12 =? 9) with false. change (12 =? 10) with false.
  change (12 =? 11) with false. change (12 =? 12) with true. cbv iota.
  rewrite parse_data_page_header by assumption. reflexivity.
Qed.

Lemma parse_page_header :
  forall fuel h rest, int32Header h ->
    parse_compact_struct (6 + fuel) (putPageHeader h ++ rest)
    = POk (pageHeaderTree h) rest.
Proof.
  intros fuel h rest (H1 & H2 & H3 & H4 & H5). unfold putPageHeader.
  cbn [app]. rewrite <- app_assoc. cbn [app]. rewrite <- app_assoc. cbn [app].
  rewrite <- app_assoc. cbn [app]. rewrite <- app_assoc. cbn [app].
  set (s := x15 :: putVarint (pageType h) ++ _).
  assert (H : repeatUntil (parse_compact_field (5 + fuel)) IsStop 5 s []
              = POk (Fields (pageHeaderTree h)) rest).
  { unfold s. cbn [repeatUntil Nat.add].
    rewrite parse_i32_field by lia. cbn [bindP].
    match goal with |- context [IsStop ?f] => change (IsStop f) with false end.
    cbv iota. rewrite parse_i32_field by lia. cbn [bindP].
    match goal with |- context [IsStop ?f] => change (IsStop f) with false end.
    cbv iota. rewrite parse_i32_field by lia. cbn [bindP].
    match goal with |- context [IsStop ?f] => change (IsStop f) with false end.
    cbv iota. rewrite parse_data_page_header_field by lia. cbn [bindP].
    match goal with |- context [IsStop ?f] => change (IsStop f) with false end.
    cbv iota. rewrite parse_stop_field. reflexivity. }
  change (6 + fuel)%nat with (S (5 + fuel)). cbn [parse_compact_struct].
  rewrite (repeatUntil_more _ _ _ 5 (S (length s)) s [] _ _) with (2 := H).
  - reflexivity.
  - unfold s. cbn [length]. rewrite !length_app. cbn [length].
    rewrite !length_app. cbn [length]. rewrite !length_app. cbn [length]. lia.
Qed.

(** What [decodePageHeader] makes of the tree, whatever its five varints. *)
Lemma decodePageHeader_tree :
  forall z1 z2 z3 z4 z5,
    decodePageHeader
      (mkCompactStruct
         [shortField 21 (i32Value z1); shortField 21 (i32Value z2);
          shortField 21 (i32Value z3);
          shortField 44
            (structValue
               (mkCompactStruct
                  [shortField 21 (i32Value z4); shortField 21 (i32Value z5);
                   stopField]));
          stopField])
    = inl (mkPageHeader (int32 (VarintZ_Value z1)) (int32 (VarintZ_Value z2))
             (int32 (VarintZ_Value z3)) (int64 (int32 (VarintZ_Value z4)))
             (int32 (VarintZ_Value z5))).
Proof. intros z1 z2 z3 z4 z5. reflexivity. Qed.

Lemma int32_small : forall z, - 2 ^ 31 <= z < 2 ^ 31 -> int32 z = z.
Proof. intros z H. apply swrap_small; [lia | exact H]. Qed.

Lemma parseCompactStructFromBytes_page_header :
  forall h rest, int32Header h ->
    parseCompactStructFromBytes (putPageHeader h ++ rest)
    = Returns (Some (pageHeaderTree h), len (putPageHeader h), None).
Proof.
  intros h rest Hh. unfold parseCompactStructFromBytes.
  set (b := putPageHeader h ++ rest).
  assert (Hlen : (1 <= length b)%nat).
  { unfold b, putPageHeader. cbn [app length]. lia. }
  destruct (parse_mono 6 (3 * length b + 3)%nat ltac:(lia)) as [_ [_ [_ [Ms _]]]].
  pose proof (parse_page_header 0 h rest Hh) as E. fold b in E.
  change (6 + 0)%nat with 6%nat in E.
  rewrite (Ms b) by (rewrite E; discriminate). rewrite E.
  unfold b. rewrite len_app. do 3 f_equal. lia.
Qed.

Lemma decodePageHeader_pageHeaderTree :
  forall h, int32Header h -> decodePageHeader (pageHeaderTree h) = inl h.
Proof.
  intros [pt us cs nv en] (H1 & H2 & H3 & H4 & H5).
  cbn [pageType uncompressedSize compressedSize numValues encoding] in *.
  unfold pageHeaderTree, dataPageHeaderTree.
  cbn [pageType uncompressedSize compressedSize numValues encoding].
  rewrite decodePageHeader_tree.
  rewrite !VarintZ_Value_putVarint by lia.
  rewrite !int32_small by lia. rewrite int64_small by lia. reflexivity.
Qed.

(** X19: a page header whose five numbers are 32-bit, written in Thrift
    Compact form, is read back whatever follows it: the parser consumes
    the bytes of the header and no more, and [decodePageHeader] returns
    the five numbers. *)
Theorem decodePageHeader_round_trip :
  forall h rest, int32Header h ->
    exists st,
      parseCompactStructFromBytes (putPageHeader h ++ rest)
      = Returns (Some st, len (putPageHeader h), None)
      /\ decodePageHeader st = inl h.
Proof.
  intros h rest Hh. exists (pageHeaderTree h). split.
  - apply parseCompactStructFromBytes_page_header. exact Hh.
  - apply decodePageHeader_pageHeaderTree. exact Hh.
Qed.

Lemma decodePageHeader_round_trip_witness :
  exists st,
    parseCompactStructFromBytes (putPageHeader (mkPageHeader 0 12 12 3 0) ++ body3)
    = Returns (Some st, len (putPageHeader (mkPageHeader 0 12 12 3 0)), None)
    /\ decodePageHeader st = inl (mkPageHeader 0 12 12 3 0).
Proof.
  apply (decodePageHeader_round_trip (mkPageHeader 0 12 12 3 0) body3).
  unfold int32Header. cbn [pageType uncompressedSize compressedSize numValues encoding].
  lia.
Defined.

Lemma len_putPlainValues :
  forall vs, len vs <= len (putPlainValues vs).
Proof.
  induction vs as [|v vs IH].
  - unfold putPlainValues. cbn. unfold len. cbn. lia.
  - unfold putPlainValues in *. cbn [map concat].
    rewrite len_app, len_cons. pose proof (putPlain_nonempty v). lia.
Qed.

Lemma len_putVarint :
  forall v, - 2 ^ 62 <= v < 2 ^ 62 -> 1 <= len (putVarint v) <= 10.
Proof.
  intros v Hv. unfold putVarint. apply putUvarint_length.
  pose proof (zigzag_encode_small v Hv). lia.
Qed.

Lemma len_putPageHeader :
  forall h, int32Header h -> 1 <= len (putPageHeader h) <= 256.
Proof.
  intros h (H1 & H2 & H3 & H4 & H5). unfold putPageHeader, putDataPageHeader.
  repeat (rewrite ?len_cons, ?len_app).
  pose proof (len_putVarint (pageType h) ltac:(lia)).
  pose proof (len_putVarint (uncompressedSize h) ltac:(lia)).
  pose proof (len_putVarint (compressedSize h) ltac:(lia)).
  pose proof (len_putVarint (numValues h) ltac:(lia)).
  pose proof (len_putVarint (encoding h) ltac:(lia)).
  rewrite ?len_one, ?len_nil. lia.
Qed.

Lemma firstn_len_app :
  forall (A : Type) (l rest : list A) n,
    len l <= n -> firstn (Z.to_nat n) (l ++ rest)
                  = l ++ firstn (Z.to_nat (n - len l)) rest.
Proof.
  intros A l rest n H. unfold len in *. rewrite firstn_app.
  rewrite firstn_all2 by lia. f_equal. f_equal. lia.
Qed.

(** The look-ahead reader on a page header followed by anything: the first
    window holds the header. *)
Lemma peekLoop_page_header :
  forall fuel maxPeek h rest,
    int32Header h -> 256 <= maxPeek ->
    peekLoop (S fuel) (putPageHeader h ++ rest) maxPeek 256
    = Returns (Some (pageHeaderTree h), len (putPageHeader h), None, rest).
Proof.
  intros fuel maxPeek h rest Hh Hmax. pose proof (len_putPageHeader h Hh) as Hl.
  cbn [peekLoop].
  destruct (maxPeek <? 256) eqn:Em; [apply Z.ltb_lt in Em; lia|].
  rewrite (firstn_len_app _ _ _ 256) by lia.
  destruct (len (putPageHeader h ++ firstn (Z.to_nat (256 - len (putPageHeader h))) rest) =? 0) eqn:E.
  { apply Z.eqb_eq in E. rewrite len_app in E.
    pose proof (len_nonneg _ (firstn (Z.to_nat (256 - len (putPageHeader h))) rest)).
    lia. }
  rewrite parseCompactStructFromBytes_page_header by exact Hh. cbn [bindO].
  destruct (len (putPageHeader h) <=? 0) eqn:E0; [apply Z.leb_le in E0; lia|].
  rewrite from_app. reflexivity.
Qed.

Lemma parseCompactStructFromBufio_page_header :
  forall h rest, int32Header h ->
    parseCompactStructFromBufio (putPageHeader h ++ rest) (64 * 1024)
    = Returns (Some (pageHeaderTree h), len (putPageHeader h), None, rest).
Proof.
  intros h rest Hh. unfold parseCompactStructFromBufio.
  apply peekLoop_page_header; [exact Hh | discriminate].
Qed.

Lemma to_nat_len : forall (A : Type) (l : list A), Z.to_nat (len l) = length l.
Proof. intros A l. unfold len. apply Nat2Z.id. Qed.

Section SinglePage.

Variable snappyDecode : list byte -> option (list byte).

(** The round of the page loop on a PLAIN page: all its values are read,
    and the reader is left on what follows the page. *)
Lemma readRound_plainPage :
  forall t vs numValues size offset rest values total,
    Forall (storable t) vs -> vs <> [] ->
    len (putPlainValues vs) < 2 ^ 31 ->
    readRound snappyDecode
      (mkColumnMetaData t [] [] 0 numValues size size offset None)
      (plainColumn t) (plainPage vs ++ rest) values total
    = Returns (Next rest (values ++ vs) (total + len vs)).
Proof.
  intros t vs nv size offset rest values total Hvs Hne Hsize.
  pose proof (len_putPlainValues vs) as Hle.
  assert (Hpos : 0 < len vs).
  { destruct vs; [contradiction|]. rewrite len_cons.
    pose proof (len_nonneg _ vs). lia. }
  assert (Hh : int32Header (plainPageHeader vs)).
  { unfold int32Header, plainPageHeader.
    cbn [pageType uncompressedSize compressedSize numValues encoding]. lia. }
  unfold readRound, plainPage. rewrite <- app_assoc.
  rewrite parseCompactStructFromBufio_page_header by exact Hh. cbn [bindO].
  rewrite decodePageHeader_pageHeaderTree by exact Hh.
  unfold readPage, pageNumValues, pageEncoding, pageBytes, decompressData,
    maxDefinitionLevelOf, plainColumn, plainPageHeader.
  cbn [pageType uncompressedSize compressedSize numValues encoding
       NumValues Encodings Codec SType RepetitionType repetitionIs].
  destruct (len (putPlainValues vs) <=? 0) eqn:E0; [apply Z.leb_le in E0; lia|].
  destruct (len vs =? 0) eqn:E1; [apply Z.eqb_eq in E1; lia|].
  rewrite ?len_nil. cbn [andb Z.eqb Z.ltb Z.compare]. cbv iota.
  rewrite !to_nat_len, firstn_app, skipn_app, firstn_all, skipn_all, Nat.sub_diag.
  cbn [firstn skipn app]. rewrite app_nil_r.
  unfold parseDataPageWithEncoding, stripLevels, stripRepetition,
    stripDefinition. cbn [repetitionIs bindO]. change (0 <? 0) with false.
  cbv iota. cbn [bindO]. unfold decodeValues. change (0 =? 0) with true.
  cbv iota. unfold decodePlainValues.
  pose proof (plainLoop_putPlainValues t vs [] [] [] Hvs) as Hp.
  cbn [app] in Hp. rewrite app_nil_r, len_nil in Hp.
  rewrite to_nat_len, Hp. cbn [bindO].
  destruct (0 <? len vs) eqn:E2; [|apply Z.ltb_ge in E2; lia].
  reflexivity.
Qed.

(** A round on a reader with nothing left ends the loop. *)
Lemma readRound_empty :
  forall md schema values total,
    readRound snappyDecode md schema [] values total = Returns Break.
Proof.
  intros md schema values total. unfold readRound, parseCompactStructFromBufio.
  cbn [peekLoop]. rewrite firstn_nil. reflexivity.
Qed.

Lemma pageLoop_plainPages :
  forall t numValues size offset pagesLeft vss values total,
    plainPages t vss ->
    total + len (concat vss) <= numValues ->
    pageLoop snappyDecode pagesLeft
      (mkColumnMetaData t [] [] 0 numValues size size offset None)
      (plainColumn t) (concat (map plainPage vss)) values total
    = Returns (values ++ concat (firstn pagesLeft vss)).
Proof.
  intros t nv size offset pagesLeft.
  induction pagesLeft as [|n IH]; intros vss values total Hvss Hsum.
  - cbn [pageLoop firstn concat]. rewrite app_nil_r. reflexivity.
  - cbn [pageLoop NumValues]. destruct vss as [|vs vss].
    + cbn [map concat firstn]. rewrite app_nil_r.
      destruct (total <? nv); [|reflexivity].
      rewrite readRound_empty. reflexivity.
    + inversion Hvss as [|vs' vss' (Hvs & Hne & Hsize) Hvss']; subst.
      cbn [concat] in Hsum. rewrite len_app in Hsum.
      pose proof (len_nonneg _ (concat vss)) as Hc.
      assert (Hpos : 0 < len vs).
      { destruct vs; [contradiction|]. rewrite len_cons.
        pose proof (len_nonneg _ vs). lia. }
      destruct (total <? nv) eqn:E; [|apply Z.ltb_ge in E; lia].
      cbn [map concat]. rewrite readRound_plainPage by assumption.
      cbn [bindO firstn concat].
      destruct (nv <=? total + len vs) eqn:E'.
      * apply Z.leb_le in E'.
        assert (Hnil : vss = []).
        { destruct vss as [|vs2 vss2]; [reflexivity|].
          inversion Hvss' as [|x y (_ & Hne2 & _) _]; subst.
          cbn [concat] in Hc, Hsum. rewrite len_app in Hsum.
          destruct vs2; [contradiction|]. rewrite len_cons in Hsum.
          pose proof (len_nonneg _ vs2). pose proof (len_nonneg _ (concat vss2)).
          lia. }
        subst vss. rewrite firstn_nil. cbn [concat]. rewrite app_nil_r.
        reflexivity.
      * rewrite (IH vss (values ++ vs) (total + len vs) Hvss') by lia.
        rewrite <- app_assoc. reflexivity.
Qed.

(** X20: a column chunk that holds one uncompressed PLAIN data page of a
    column without repetition type is read back whole: wherever the page
    lies in the file, [readColumnValues] returns the values that were
    written, of any of the five types, and no error. *)
Theorem readColumnValues_plain_page :
  forall t vs before after,
    Forall (storable t) vs ->
    len (putPlainValues vs) < 2 ^ 31 ->
    readColumnValues snappyDecode (before ++ plainPage vs ++ after)
      (plainChunk t (len vs) (len (plainPage vs)) (len before))
      (plainColumn t)
    = Returns (vs, None).
Proof.
  intros t vs before after Hvs Hsize.
  unfold readColumnValues, plainChunk.
  cbn [MetaData DictionaryPageOffset DataPageOffset TotalCompressedSize].
  unfold sectionBytes.
  destruct (len before <? 0) eqn:Eb.
  { apply Z.ltb_lt in Eb. pose proof (len_nonneg _ before). lia. }
  rewrite from_app, to_nat_len, firstn_app, firstn_all, Nat.sub_diag.
  cbn [firstn]. rewrite app_nil_r.
  unfold maxPages. cbn [pageLoop NumValues].
  destruct vs as [|v vs].
  - reflexivity.
  - assert (E : (0 <? len (v :: vs)) = true).
    { apply Z.ltb_lt. rewrite len_cons. pose proof (len_nonneg _ vs). lia. }
    rewrite E. rewrite <- (app_nil_r (plainPage (v :: vs))).
    rewrite readRound_plainPage by (assumption || discriminate).
    cbn [bindO app]. rewrite Z.leb_refl. reflexivity.
Qed.

(** X21: a chunk made of PLAIN data pages, each with a value at least, is
    read back page after page, up to the hundred pages the loop allows:
    [readColumnValues] returns the values of the first hundred pages, in
    order. *)
Theorem readColumnValues_plain_pages :
  forall t vss,
    plainPages t vss ->
    readColumnValues snappyDecode (concat (map plainPage vss))
      (plainChunk t (len (concat vss)) (len (concat (map plainPage vss))) 0)
      (plainColumn t)
    = Returns (concat (firstn 100 vss), None).
Proof.
  intros t vss Hvss. unfold readColumnValues, plainChunk.
  cbn [MetaData DictionaryPageOffset DataPageOffset TotalCompressedSize].
  unfold sectionBytes. change (0 <? 0) with false. cbv iota.
  unfold from. cbn [Z.to_nat skipn]. rewrite to_nat_len, firstn_all.
  unfold maxPages. rewrite pageLoop_plainPages by (exact Hvss || lia).
  reflexivity.
Qed.

End SinglePage.

Lemma readColumnValues_plain_page_witness :
  readColumnValues noSnappy
    ([x50; x41; x52; x31] ++ plainPage [VInt32 1; VInt32 (-2); VInt32 3] ++ [xff])
    (plainChunk 1 (len [VInt32 1; VInt32 (-2); VInt32 3])
       (len (plainPage [VInt32 1; VInt32 (-2); VInt32 3]))
       (len [x50; x41; x52; x31]))
    (plainColumn 1)
  = Returns ([VInt32 1; VInt32 (-2); VInt32 3], None).
Proof.
  apply (readColumnValues_plain_page noSnappy 1
           [VInt32 1; VInt32 (-2); VInt32 3] [x50; x41; x52; x31] [xff]).
  - repeat (apply Forall_cons; [split; [reflexivity | lia] | ]). apply Forall_nil.
  - vm_compute. reflexivity.
Defined.

Lemma readColumnValues_plain_pages_witness :
  readColumnValues noSnappy
    (concat (map plainPage [[VInt64 7]; [VInt64 (-1); VInt64 9]]))
    (plainChunk 2 (len (concat [[VInt64 7]; [VInt64 (-1); VInt64 9]]))
       (len (concat (map plainPage [[VInt64 7]; [VInt64 (-1); VInt64 9]]))) 0)
    (plainColumn 2)
  = Returns (concat (firstn 100 [[VInt64 7]; [VInt64 (-1); VInt64 9]]), None).
Proof.
  apply (readColumnValues_plain_pages noSnappy 2
           [[VInt64 7]; [VInt64 (-1); VInt64 9]]).
  repeat (apply Forall_cons;
          [split; [repeat (apply Forall_cons; [split; [reflexivity | lia] | ]);
                   apply Forall_nil
                  | split; [discriminate | vm_compute; reflexivity]] | ]).
  apply Forall_nil.
Defined.

(** ** A page with definition levels *)

(** With nothing behind the values, any count that covers them reads them
    all. *)
Lemma plainLoop_putPlainValues_all :
  forall t vs n before values,
    Forall (storable t) vs -> (length vs <= n)%nat ->
    plainLoop (before ++ putPlainValues vs) t n (len before) values
    = (values ++ vs, None).
Proof.
  intros t vs. induction vs as [|v vs IH]; intros n before values Hvs Hn.
  - unfold putPlainValues. cbn [map concat]. rewrite !app_nil_r.
    destruct n as [|n]; [reflexivity|]. cbn [plainLoop].
    rewrite Z.ltb_irrefl. reflexivity.
  - inversion Hvs as [|v' vs' Hv Hvs']; subst.
    destruct n as [|n]; [cbn [length] in Hn; lia|]. cbn [length] in Hn.
    unfold putPlainValues. cbn [map concat plainLoop].
    fold (putPlainValues vs).
    pose proof (putPlain_nonempty v) as Hp.
    destruct (len before <? len (before ++ putPlain v ++ putPlainValues vs)) eqn:E.
    2:{ apply Z.ltb_ge in E. rewrite !len_app in E.
        pose proof (len_nonneg _ (putPlainValues vs)). lia. }
    rewrite plainStep_putPlain by exact Hv.
    rewrite <- len_app. rewrite (app_assoc before).
    rewrite IH by (assumption || lia). rewrite <- app_assoc. reflexivity.
Qed.

Lemma decodeRLEBytes_putRuns :
  forall runs numValues bitWidth,
    0 < bitWidth <= 8 -> 0 <= numValues ->
    Forall (fun run => 0 <= fst run <= maxSupportedValueCount) runs ->
    rleLoop (length (putRuns runs)) (putRuns runs) numValues bitWidth 0 []
    = (firstn (Z.to_nat numValues) (expandRuns runs), None).
Proof.
  intros runs numValues bitWidth Hbw Hn Hruns.
  assert (Hlen : (length runs <= length (putRuns runs))%nat).
  { clear. induction runs as [|r runs IH]; [apply Nat.le_refl|].
    unfold putRuns, putRun in *. cbn [map concat length].
    rewrite !length_app. cbn [length]. lia. }
  pose proof (rleLoop_putRuns bitWidth numValues runs (length (putRuns runs))
                [] [] ltac:(lia) Hruns Hlen) as H.
  cbn [app] in H. rewrite len_nil in H. rewrite H.
  replace (numValues - 0) with numValues by lia. reflexivity.
Qed.

Lemma levelRuns_counts :
  forall runs, levelRuns runs ->
    Forall (fun run => 0 <= fst run <= maxSupportedValueCount) runs.
Proof.
  intros runs H. eapply Forall_impl; [|exact H]. intros run [Hc _]. exact Hc.
Qed.

Lemma in_firstn :
  forall (A : Type) (a : A) n l, In a (firstn n l) -> In a l.
Proof.
  intros A a n l H. rewrite <- (firstn_skipn n l). apply in_or_app. left. exact H.
Qed.

Lemma levelsValid_expandRuns :
  forall runs n, levelRuns runs ->
    levelsValid (firstn n (expandRuns runs)) 1 = true.
Proof.
  intros runs n H. unfold levelsValid. apply forallb_forall. intros b Hb.
  apply in_firstn in Hb. unfold expandRuns in Hb. apply in_concat in Hb.
  destruct Hb as (l & Hl & Hb). apply in_map_iff in Hl.
  destruct Hl as (run & Hrun & Hin). subst l. apply repeat_spec in Hb. subst b.
  unfold levelRuns in H. rewrite Forall_forall in H.
  destruct (H run Hin) as [_ Hw]. apply negb_true_iff. apply Z.ltb_ge. exact Hw.
Qed.

Lemma putRuns_nonempty :
  forall runs, expandRuns runs <> [] -> 0 < len (putRuns runs).
Proof.
  intros runs H. destruct runs as [|r runs]; [contradiction H; reflexivity|].
  unfold putRuns, putRun. cbn [map concat]. rewrite !len_app, len_one.
  pose proof (len_nonneg _ (putUvarint (2 * fst r))).
  pose proof (len_nonneg _ (concat (map (fun run => putUvarint (2 * fst run) ++ [snd run]) runs))).
  lia.
Qed.

(** X22: a PLAIN data page of an OPTIONAL column, written as the section
    of its definition levels (runs of 0 and 1) followed by the values that
    are present, is read back as those values: the levels are taken off,
    and a null leaves no entry in the result. *)
Theorem parseDataPageWithEncoding_optional_page :
  forall t runs vs numValues,
    levelRuns runs -> expandRuns runs <> [] ->
    len (putRuns runs) < 10000 ->
    Forall (storable t) vs -> len vs <= numValues -> 0 < numValues ->
    parseDataPageWithEncoding (putOptionalPage runs vs) t 0 numValues (Some 1) 1
    = Returns (vs, None).
Proof.
  intros t runs vs nv Hruns Hne Hsmall Hvs Hlen Hnv.
  pose proof (putRuns_nonempty runs Hne) as Hpos.
  pose proof (len_nonneg _ (putPlainValues vs)) as Hv0.
  unfold parseDataPageWithEncoding, stripLevels, stripRepetition, stripDefinition.
  cbn [repetitionIs bindO Z.eqb Pos.eqb Z.ltb Z.compare]. cbv iota.
  unfold putOptionalPage, putLevels. rewrite <- app_assoc.
  set (enc := putRuns runs) in *.
  set (page := putLE 4 (len enc) ++ enc ++ putPlainValues vs).
  assert (Hp : len page = 4 + len enc + len (putPlainValues vs)).
  { unfold page. rewrite !len_app, len_putLE. lia. }
  destruct (4 <=? len page) eqn:E4; [|apply Z.leb_gt in E4; lia].
  assert (HU : Uint32 (slice page 0 4) = len enc).
  { unfold page. replace 4 with (len (putLE 4 (len enc))) at 1 by apply len_putLE.
    rewrite slice_prefix. unfold Uint32.
    rewrite <- (app_nil_r (putLE 4 (len enc))).
    apply le_uint_putLE. change (256 ^ Z.of_nat 4) with (2 ^ 32). lia. }
  rewrite HU.
  assert (Ec : ((0 <? len enc) && (len enc <? len page) && (len enc <? 10000))
               = true).
  { rewrite !andb_true_iff. repeat split; apply Z.ltb_lt; lia. }
  rewrite Ec. unfold page.
  rewrite decodeRLELevels_section by lia.
  unfold decodeRLEBytes. change (8 <? 1) with false. cbv iota.
  rewrite makeCap_returns by lia. cbn [bindO]. unfold enc.
  rewrite decodeRLEBytes_putRuns by (try lia; apply levelRuns_counts; exact Hruns).
  set (levels := firstn (Z.to_nat nv) (expandRuns runs)).
  assert (Hl : 0 < len levels <= nv).
  { unfold levels, len. rewrite length_firstn.
    destruct (expandRuns runs) as [|b l]; [contradiction Hne; reflexivity|].
    cbn [length]. lia. }
  assert (Ht : truncate levels nv = levels).
  { unfold truncate. destruct (nv <? len levels) eqn:E; [|reflexivity].
    apply Z.ltb_lt in E. lia. }
  rewrite Ht. cbn [bindO].
  assert (E0 : (0 <? len levels) = true) by (apply Z.ltb_lt; lia).
  rewrite E0. unfold levels. rewrite levelsValid_expandRuns by exact Hruns.
  cbn [andb bindO]. unfold decodeValues. cbn [Z.eqb]. unfold decodePlainValues.
  pose proof (plainLoop_putPlainValues_all t vs (Z.to_nat nv) [] [] Hvs) as Hd.
  cbn [app] in Hd. rewrite len_nil in Hd. rewrite Hd; [reflexivity|].
  unfold len in Hlen. lia.
Qed.

Lemma parseDataPageWithEncoding_optional_page_witness :
  parseDataPageWithEncoding
    (putOptionalPage [(2, x01); (1, x00); (1, x01)]
       [VInt32 5; VInt32 6; VInt32 7])
    1 0 4 (Some 1) 1
  = Returns ([VInt32 5; VInt32 6; VInt32 7], None).
Proof.
  apply (parseDataPageWithEncoding_optional_page 1
           [(2, x01); (1, x00); (1, x01)] [VInt32 5; VInt32 6; VInt32 7] 4).
  - repeat (apply Forall_cons; [vm_compute; repeat split; discriminate | ]).
    apply Forall_nil.
  - discriminate.
  - vm_compute. reflexivity.
  - repeat (apply Forall_cons; [split; [reflexivity | lia] | ]). apply Forall_nil.
  - vm_compute. discriminate.
  - lia.
Defined.
